(** * jmfinder: a shallow embedding of the block scanner

    The development follows [src/jmfinder.py]: the pattern classifier
    [is_jm], the primitive decoders ([decode_uint32], [decode_uint64],
    [decode_varint]), the transaction decoding attempt made on a slice of the
    block, the retry loop over slice widths, the per-block loop, the scan
    over a height range and the final read-modify-write of the candidate
    file.

    Python integers are unbounded: counts and offsets read from the wire are
    [N], the classifier works on [Z].  Byte strings are [list byte], text is
    [string].  A raised exception is a value of [result]; a loop over
    [range(n)] is [N.iter].  Three things come from outside and are
    parameters: the digest [hashlib.sha256], the block the node serves at a
    height, and the order in which a [set] is iterated.  The candidate file
    is its text, as the text layer of Python hands it out; where a statement
    is about its bytes, the UTF-8 codec is a parameter too ([merge_file]). *)

From Stdlib Require Import ZArith NArith List Lia Bool String Ascii.
From Stdlib Require Import Strings.Byte DecimalString.
From Stdlib Require QArith Qround.
From Stdlib Require Import Permutation Sorted.
From Stdlib Require DecimalPos DecimalN DecimalZ.
From Stdlib Require OrdersEx.
Import ListNotations.

(* ================================================================= *)
(** ** Exceptions *)

(** The exceptions the decoding code can raise: [IndexError] (indexing an
    empty sequence), [ValueError] (the explicit [raise ValueError]) and
    [StructError] ([struct.error], raised by [struct.unpack] on a buffer of
    the wrong size). *)
Inductive exn : Type :=
| IndexError
| ValueError
| StructError.

Inductive result (A : Type) : Type :=
| Ok (a : A)
| Raise (e : exn).

Arguments Ok {A} a.
Arguments Raise {A} e.

Definition bind {A B : Type} (c : result A) (k : A -> result B) : result B :=
  match c with
  | Ok a => k a
  | Raise e => Raise e
  end.

Declare Scope py_scope.
Delimit Scope py_scope with py.
Notation "x <- c1 ;; c2" := (bind c1 (fun x => c2))
  (at level 61, c1 at next level, right associativity) : py_scope.
Notation "' pat <- c1 ;; c2" := (bind c1 (fun x => match x with pat => c2 end))
  (at level 61, pat pattern, c1 at next level, right associativity) : py_scope.
Open Scope py_scope.

Definition is_ok {A : Type} (r : result A) : bool :=
  match r with Ok _ => true | Raise _ => false end.

(* ================================================================= *)
(** ** The pattern classifier *)

Definition MIN_PARTICIPANTS : Z := 3.
Definition MIN_CJ_AMOUNT : Z := 75000.

(** [Counter(values)]: a dictionary from value to number of occurrences,
    kept in insertion order (the order of first occurrence). *)
Fixpoint counter_add (c : list (Z * Z)) (v : Z) : list (Z * Z) :=
  match c with
  | [] => [(v, 1%Z)]
  | (k, n) :: c' =>
      if (k =? v)%Z then (k, (n + 1)%Z) :: c' else (k, n) :: counter_add c' v
  end.

Definition Counter (values : list Z) : list (Z * Z) :=
  fold_left counter_add values [].

(** [most_common(1)] is [heapq.nlargest(1, items, key=count)], which is
    [max(items, key=count)]: the first item with the largest count, or the
    empty list when there is no item. *)
Definition max_by_count (first : Z * Z) (others : list (Z * Z)) : Z * Z :=
  fold_left (fun best y => if (snd best <? snd y)%Z then y else best)
            others first.

Definition most_common_1 (c : list (Z * Z)) : list (Z * Z) :=
  match c with
  | [] => []
  | x :: r => [max_by_count x r]
  end.

(** [l[0]] *)
Definition index0 {A : Type} (l : list A) : result A :=
  match l with
  | [] => Raise IndexError
  | x :: _ => Ok x
  end.

Definition is_jm (n_in n_out : Z) (values : list Z) : result (Z * Z) :=
  let assumed_cj_outs := (n_out / 2)%Z in
  let assumed_cj_outs :=
    if negb (n_out mod 2 =? 0)%Z then (assumed_cj_outs + 1)%Z
    else assumed_cj_outs in
  if (assumed_cj_outs <? MIN_PARTICIPANTS)%Z then Ok (0%Z, 0%Z)
  else if (n_in <? assumed_cj_outs)%Z then Ok (0%Z, 0%Z)
  else
    '(most_common_value, equal_outs) <- index0 (most_common_1 (Counter values)) ;;
    if (most_common_value <? MIN_CJ_AMOUNT)%Z then Ok (0%Z, 0%Z)
    else if negb (equal_outs =? assumed_cj_outs)%Z then Ok (0%Z, 0%Z)
    else Ok (most_common_value, equal_outs).

(* ================================================================= *)
(** ** Byte strings and slices *)

Definition bytes : Type := list byte.

(** [l[a:]], [l[:b]] and [l[a:b]] for non-negative [a] and [b]: a slice
    never fails, it is cut at the end of the sequence. *)
Fixpoint slice_from {A : Type} (l : list A) (a : N) : list A :=
  match l with
  | [] => []
  | x :: r => if (a =? 0)%N then x :: r else slice_from r (N.pred a)
  end.

Fixpoint slice_to {A : Type} (l : list A) (b : N) : list A :=
  match l with
  | [] => []
  | x :: r => if (b =? 0)%N then [] else x :: slice_to r (N.pred b)
  end.

Definition slice {A : Type} (l : list A) (a b : N) : list A :=
  slice_to (slice_from l a) (b - a).

(** [l[-4:]]: the last four elements, or all of them when there are fewer. *)
Definition last4 {A : Type} (l : list A) : list A :=
  skipn (List.length l - 4) l.

Definition len {A : Type} (l : list A) : N := N.of_nat (List.length l).

(** Little-endian unsigned decoding, as [struct.unpack] does for the formats
    ["<H"], ["<I"] and ["<Q"]. *)
Fixpoint le_decode (data : bytes) : N :=
  match data with
  | [] => 0
  | b :: r => (Byte.to_N b + 256 * le_decode r)%N
  end.

Inductive struct_format : Type := fmt_H | fmt_I | fmt_Q.

Definition calcsize (f : struct_format) : N :=
  match f with
  | fmt_H => 2
  | fmt_I => 4
  | fmt_Q => 8
  end%N.

Definition struct_unpack (f : struct_format) (data : bytes) : result N :=
  if (len data =? calcsize f)%N then Ok (le_decode data) else Raise StructError.

(* ================================================================= *)
(** ** Primitive decoders *)

Definition decode_uint32 (data : bytes) : result N :=
  if negb (len data =? 4)%N then Raise ValueError
  else struct_unpack fmt_I data.

Definition decode_uint64 (data : bytes) : result N :=
  if negb (len data =? 8)%N then Raise ValueError
  else struct_unpack fmt_Q data.

Definition decode_varint (data : bytes) : result (N * N) :=
  size <- index0 (map Byte.to_N data) ;;
  if (255 <? size)%N then Raise ValueError
  else if (size <? 253)%N then Ok (size, 1%N)
  else
    format_ <- (if (size =? 253)%N then Ok fmt_H
                else if (size =? 254)%N then Ok fmt_I
                else if (size =? 255)%N then Ok fmt_Q
                else Raise ValueError) ;;
    let size := calcsize format_ in
    v <- struct_unpack format_ (slice data 1 (size + 1)) ;;
    Ok (v, (size + 1)%N).

(** [for _ in range(n): state = body(state)], where the body may raise: an
    exception leaves the loop and is the result of the whole loop. *)
Definition for_range {S : Type} (n : N) (body : S -> result S) (init : S)
  : result S :=
  N.iter n (fun st => bind st body) (Ok init).

(* ================================================================= *)
(** ** Identifier and size *)

Definition hex_digit (n : N) : ascii :=
  match n with
  | 0 => "0" | 1 => "1" | 2 => "2" | 3 => "3" | 4 => "4" | 5 => "5"
  | 6 => "6" | 7 => "7" | 8 => "8" | 9 => "9" | 10 => "a" | 11 => "b"
  | 12 => "c" | 13 => "d" | 14 => "e" | _ => "f"
  end%N%char.

(** [bytes.hex()] *)
Fixpoint hex (data : bytes) : string :=
  match data with
  | [] => EmptyString
  | b :: r =>
      String (hex_digit (Byte.to_N b / 16))
        (String (hex_digit (Byte.to_N b mod 16)) (hex r))
  end.

(** [hash_[::-1].hex()] *)
Definition format_hash (hash_ : bytes) : string := hex (rev hash_).

Fixpoint bytes_eqb (a b : bytes) : bool :=
  match a, b with
  | [], [] => true
  | x :: a', y :: b' => Byte.eqb x y && bytes_eqb a' b'
  | _, _ => false
  end.

(** [ceil(weight / 4)].  [weight / 4] is a float in Python; a slice is at
    most 1024 * 2^19 bytes wide, so the weight is far below 2^53 and the
    division by four is exact: the rational quotient is the float. *)
Definition ceil_div4 (w : Z) : Z :=
  Qround.Qceiling (QArith_base.Qmake w 4).

(** Lines 410-415, on the integers [tx_size] and
    [offset_before_tx_witnesses]. *)
Definition witness_size (tx_size offset_before_tx_witnesses : Z) : Z :=
  (tx_size - offset_before_tx_witnesses - 4)%Z.

Definition stripped_size (tx_size offset_before_tx_witnesses : Z) : Z :=
  (tx_size - (2 + witness_size tx_size offset_before_tx_witnesses))%Z.

Definition weight (tx_size offset_before_tx_witnesses : Z) : Z :=
  (stripped_size tx_size offset_before_tx_witnesses * 3 + tx_size)%Z.

Definition virtual_size (is_segwit : bool) (tx_size offset_before_tx_witnesses : Z)
  : Z :=
  if negb is_segwit then tx_size
  else ceil_div4 (weight tx_size offset_before_tx_witnesses).

(** [tx[:4] + tx[6:offset_before_tx_witnesses] + tx[-4:]] for a witness
    transaction, [tx] itself otherwise. *)
Definition txid_data_of (is_segwit : bool) (tx : bytes)
    (offset_before_tx_witnesses : N) : bytes :=
  if is_segwit
  then slice_to tx 4 ++ slice tx 6 offset_before_tx_witnesses ++ last4 tx
  else tx.

(* ================================================================= *)
(** ** Decoding one transaction from a slice *)

(** What one pass of the body of the [try] block leaves in the local
    variables.  [offset_before_tx_witnesses] is only assigned (and only read)
    for a witness transaction; it is 0 here otherwise. *)
Record tx_record : Type := {
  version : N;
  locktime : N;
  is_segwit : bool;
  n_in : N;
  n_out : N;
  values : list N;
  offset_before_tx_witnesses : N;
  tx_size : N;
  txid : string;
  vsize : Z;
  most_common_value : Z;
  equal_outs : Z
}.

Record tx_fields : Type := {
  f_version : N;
  f_locktime : N;
  f_is_segwit : bool;
  f_n_in : N;
  f_n_out : N;
  f_values : list N;
  f_offset_before_tx_witnesses : N;
  f_tx_offset : N
}.

(** One turn of [for _ in range(n_in)] over the inputs. *)
Definition parse_input (tx : bytes) (tx_offset : N) : result N :=
  let tx_input := slice_from tx tx_offset in
  '(script_length, varint_length) <- decode_varint (slice_from tx_input 36) ;;
  let script_start := (36 + varint_length)%N in
  let in_size := (script_start + script_length + 4)%N in
  Ok (tx_offset + in_size)%N.

(** One turn of [for _ in range(n_out)] over the outputs; the state is
    [tx_offset] and the list [values]. *)
Definition parse_output (tx : bytes) (st : N * list N) : result (N * list N) :=
  let '(tx_offset, values) := st in
  let tx_output := slice_from tx tx_offset in
  let _value_hex := slice_to tx_output 8 in
  value <- decode_uint64 _value_hex ;;
  let values := values ++ [value] in
  '(script_length, varint_size) <- decode_varint (slice_from tx_output 8) ;;
  let script_start := (8 + varint_size)%N in
  let out_size := (script_start + script_length)%N in
  Ok ((tx_offset + out_size)%N, values).

Definition parse_witness_component (tx : bytes) (tx_offset : N) : result N :=
  '(component_length, varint_size) <- decode_varint (slice_from tx tx_offset) ;;
  let tx_offset := (tx_offset + varint_size)%N in
  Ok (tx_offset + component_length)%N.

(** One turn of the outer witness loop. *)
Definition parse_witness (tx : bytes) (tx_offset : N) : result N :=
  '(tx_witnesses_n, varint_size) <- decode_varint (slice_from tx tx_offset) ;;
  let tx_offset := (tx_offset + varint_size)%N in
  for_range tx_witnesses_n (parse_witness_component tx) tx_offset.

(** Lines 335-388: everything before [tx_size] is assigned. *)
Definition parse_fields (tx : bytes) : result tx_fields :=
  version <- decode_uint32 (slice_to tx 4) ;;
  locktime <- decode_uint32 (last4 tx) ;;
  let is_segwit := false in
  let tx_offset := 4%N in
  let '(is_segwit, tx_offset) :=
    if bytes_eqb (slice tx tx_offset (tx_offset + 2)) [x00; x01]
    then (true, (tx_offset + 2)%N) else (is_segwit, tx_offset) in
  '(n_in, varint_size) <- decode_varint (slice_from tx tx_offset) ;;
  let tx_offset := (tx_offset + varint_size)%N in
  tx_offset <- for_range n_in (parse_input tx) tx_offset ;;
  '(n_out, varint_size) <- decode_varint (slice_from tx tx_offset) ;;
  let tx_offset := (tx_offset + varint_size)%N in
  '(tx_offset, values) <- for_range n_out (parse_output tx) (tx_offset, []) ;;
  if is_segwit then
    let offset_before_tx_witnesses := tx_offset in
    tx_offset <- for_range n_in (parse_witness tx) tx_offset ;;
    Ok {| f_version := version; f_locktime := locktime;
          f_is_segwit := is_segwit; f_n_in := n_in; f_n_out := n_out;
          f_values := values;
          f_offset_before_tx_witnesses := offset_before_tx_witnesses;
          f_tx_offset := tx_offset |}
  else
    Ok {| f_version := version; f_locktime := locktime;
          f_is_segwit := is_segwit; f_n_in := n_in; f_n_out := n_out;
          f_values := values;
          f_offset_before_tx_witnesses := 0%N;
          f_tx_offset := tx_offset |}.

(** The outcome of one pass of the [try] block on a slice: either the pass
    reaches [break], or an exception is caught; in the second case
    [tx_size] may already have been assigned. *)
Inductive attempt : Type :=
| Parsed (t : tx_record)
| Failed (e : exn) (assigned_tx_size : option N).

Section Hashing.

(** [hashlib.sha256(data).digest()] *)
Variable sha256 : bytes -> bytes.

Definition double_sha256 (data : bytes) : bytes := sha256 (sha256 data).

Definition parse_tx (tx : bytes) : attempt :=
  match parse_fields tx with
  | Raise e => Failed e None
  | Ok f =>
      let tx_size := (f_tx_offset f + 4)%N in
      let tx := slice_to tx tx_size in
      if negb (tx_size =? len tx)%N then Failed ValueError (Some tx_size)
      else
        let txid_data :=
          txid_data_of (f_is_segwit f) tx (f_offset_before_tx_witnesses f) in
        let txid := format_hash (double_sha256 txid_data) in
        let vsize :=
          virtual_size (f_is_segwit f) (Z.of_N tx_size)
                       (Z.of_N (f_offset_before_tx_witnesses f)) in
        match is_jm (Z.of_N (f_n_in f)) (Z.of_N (f_n_out f))
                    (map Z.of_N (f_values f)) with
        | Raise e => Failed e (Some tx_size)
        | Ok (most_common_value, equal_outs) =>
            Parsed {| version := f_version f; locktime := f_locktime f;
                      is_segwit := f_is_segwit f; n_in := f_n_in f;
                      n_out := f_n_out f; values := f_values f;
                      offset_before_tx_witnesses :=
                        f_offset_before_tx_witnesses f;
                      tx_size := tx_size; txid := txid; vsize := vsize;
                      most_common_value := most_common_value;
                      equal_outs := equal_outs |}
        end
  end.

End Hashing.

(* ================================================================= *)
(** ** Text: lines, fields and decimal numbers *)

Definition newline : ascii := "010"%char.
Definition comma : ascii := ","%char.

(** [str(n)] for an integer. *)
Definition str_of_Z (z : Z) : string := NilZero.string_of_int (Z.to_int z).
Definition str_of_N (n : N) : string := NilZero.string_of_uint (N.to_uint n).

(** The characters [str.strip()] removes, among the code points below 256. *)
Definition is_space (c : ascii) : bool :=
  let n := N_of_ascii c in
  ((9 <=? n) && (n <=? 13) || (28 <=? n) && (n <=? 32)
   || (n =? 133) || (n =? 160))%N.

Fixpoint lstrip (s : string) : string :=
  match s with
  | EmptyString => EmptyString
  | String c r => if is_space c then lstrip r else s
  end.

(** Removes the trailing white space: a character is kept when it is not
    white space or when something is kept after it. *)
Fixpoint rstrip (s : string) : string :=
  match s with
  | EmptyString => EmptyString
  | String c r =>
      match rstrip r with
      | EmptyString => if is_space c then EmptyString else String c EmptyString
      | r' => String c r'
      end
  end.

Definition strip (s : string) : string := rstrip (lstrip s).

(** The text a file opened in text mode hands out: ["\r\n"] and ["\r"] are
    read as ["\n"]. *)
Fixpoint universal_newlines (s : string) : string :=
  match s with
  | EmptyString => EmptyString
  | String c r =>
      if (c =? "013")%char then
        match r with
        | String c' r' =>
            if (c' =? newline)%char then String newline (universal_newlines r')
            else String newline (universal_newlines r)
        | EmptyString => String newline EmptyString
        end
      else String c (universal_newlines r)
  end.

(** [readlines] on a text: every line keeps its final newline, the last
    line has one only if the text ends with it. *)
Fixpoint readlines_text (s : string) : list string :=
  match s with
  | EmptyString => []
  | String c r =>
      if (c =? newline)%char then String c EmptyString :: readlines_text r
      else
        match readlines_text r with
        | [] => [String c EmptyString]
        | l :: ls => String c l :: ls
        end
  end.

(** [s.split(sep)] as the first field and the list of the other ones. *)
Fixpoint split_fields (sep : ascii) (s : string) : string * list string :=
  match s with
  | EmptyString => (EmptyString, [])
  | String c r =>
      let '(w, ws) := split_fields sep r in
      if (c =? sep)%char then (EmptyString, w :: ws) else (String c w, ws)
  end.

Definition split (sep : ascii) (s : string) : list string :=
  let '(w, ws) := split_fields sep s in w :: ws.

(** ['\n'.join(lines)] *)
Definition join_lines (lines : list string) : string :=
  String.concat (String newline EmptyString) lines.

(** [l[1]] *)
Definition index1 {A : Type} (l : list A) : result A :=
  match l with
  | _ :: x :: _ => Ok x
  | _ => Raise IndexError
  end.

(** [lambda x: x.split(',')[1]] *)
Definition height_key (x : string) : result string := index1 (split comma x).

(* ================================================================= *)
(** ** [sorted(..., key=...)] *)

(** The keys are computed first, for every element; then the list is sorted
    on them with [<] alone, equal keys keeping their order (the sort is
    stable, so its result does not depend on the algorithm). *)
Fixpoint decorate (key : string -> result string) (l : list string)
  : result (list (string * string)) :=
  match l with
  | [] => Ok []
  | x :: r =>
      k <- key x ;;
      kr <- decorate key r ;;
      Ok ((k, x) :: kr)
  end.

Fixpoint insert_stable (x : string * string) (l : list (string * string))
  : list (string * string) :=
  match l with
  | [] => [x]
  | y :: r => if String.ltb (fst y) (fst x) then y :: insert_stable x r
              else x :: y :: r
  end.

Fixpoint sort_stable (l : list (string * string)) : list (string * string) :=
  match l with
  | [] => []
  | x :: r => insert_stable x (sort_stable r)
  end.

Definition sorted (l : list string) (key : string -> result string)
  : result (list string) :=
  kl <- decorate key l ;;
  Ok (map snd (sort_stable kl)).

(* ================================================================= *)
(** ** The scan *)

Inductive ExitStatus : Type := SUCCESS | FAILURE | ARGERROR.

Definition ExitStatus_value (s : ExitStatus) : Z :=
  match s with SUCCESS => 0 | FAILURE => 1 | ARGERROR => 2 end.

(** How a run of [main] ends: it returns, it calls [sys.exit], or an
    exception nobody catches ends it. *)
Inductive outcome : Type :=
| Returned
| Exited (status : ExitStatus)
| Uncaught (e : exn).

(** The answer of [/rest/chaininfo]. *)
Record chain_info : Type := {
  blocks : Z;
  pruned : bool;
  pruneheight : Z
}.

(** [range(start, stop)] *)
Definition range (start stop : Z) : list Z :=
  map (fun k => (start + Z.of_nat k)%Z) (seq 0 (Z.to_nat (stop - start))).

(** The variables of the loop over the transactions of one block. *)
Record block_state : Type := {
  i : N;
  block_offset : N;
  processed_txs : N;
  results : list string
}.

Definition candidate_line (txid : string) (height : Z) (i : N) : string :=
  (txid ++ "," ++ str_of_Z height ++ "," ++ str_of_N i)%string.

(** Lines 297-301: the heights to scan. *)
Definition end_block_of (args_end : Z) (info : chain_info) : Z :=
  if negb (args_end =? 0)%Z then args_end else blocks info.

Definition start_block_of (args_start end_block : Z) : Z :=
  if (args_start <? 0)%Z then (end_block - Z.abs args_start + 1)%Z
  else args_start.

Section Scanner.

Variable sha256 : bytes -> bytes.

(** The block the node serves at a height ([get_blockhash] then
    [get_response]); [None] when the client gives up, which it does with
    [sys.exit(ExitStatus.FAILURE.value)]. *)
Variable fetch_block : Z -> option bytes.

(** The order in which a [set] built from a list is iterated: some
    enumeration of its distinct elements. *)
Variable set_iter : list string -> list string.

(** [for j in range(0, 20)], with the [tx_size] the failed passes leave
    behind. *)
Fixpoint try_widths (txs_data : bytes) (block_offset : N) (js : list N)
    (last_tx_size : N) : option tx_record * N :=
  match js with
  | [] => (None, last_tx_size)
  | j :: js' =>
      let offset_e := (block_offset + 1024 * 2 ^ j)%N in
      let tx := slice txs_data block_offset offset_e in
      match parse_tx sha256 tx with
      | Parsed t => (Some t, tx_size t)
      | Failed _ (Some s) => try_widths txs_data block_offset js' s
      | Failed _ None => try_widths txs_data block_offset js' last_tx_size
      end
  end.

Definition range_0_20 : list N := map N.of_nat (seq 0 20).

(** One turn of [for i in range(n_txs)]. *)
Definition tx_turn (height : Z) (txs_data : bytes) (st : block_state)
  : block_state :=
  let tx_size := 0%N in
  let '(found, tx_size) :=
    try_widths txs_data (block_offset st) range_0_20 tx_size in
  let '(processed_txs', results') :=
    match found with
    | Some t =>
        (((processed_txs st) + 1)%N,
         if (0 <? most_common_value t)%Z
         then results st ++ [candidate_line (txid t) height (i st)]
         else results st)
    | None => (processed_txs st, results st)
    end in
  {| i := (i st + 1)%N;
     block_offset := (block_offset st + tx_size)%N;
     processed_txs := processed_txs';
     results := results' |}.

(** The body of [for height in range(...)] once the block is there: the
    results so far, extended, or the way the run ends. *)
Definition scan_block (height : Z) (block : bytes) (found : list string)
  : outcome + list string :=
  let txs_data := slice_from block 80 in
  match decode_varint txs_data with
  | Raise e => inl (Uncaught e)
  | Ok (n_txs, block_offset) =>
      let st :=
        N.iter n_txs (tx_turn height txs_data)
               {| i := 0%N; block_offset := block_offset;
                  processed_txs := 0%N; results := found |} in
      if negb (processed_txs st =? n_txs)%N then inl (Exited FAILURE)
      else inr (results st)
  end.

Fixpoint scan (heights : list Z) (found : list string)
  : outcome + list string :=
  match heights with
  | [] => inr found
  | height :: rest =>
      match fetch_block height with
      | None => inl (Exited FAILURE)
      | Some block =>
          match scan_block height block found with
          | inl o => inl o
          | inr found' => scan rest found'
          end
      end
  end.

(** Lines 453-455: what is read, the results, without duplicates, sorted
    on the second field. *)
Definition merged_lines (lines_read found : list string)
  : result (list string) :=
  let lines := map strip lines_read ++ found in
  sorted (set_iter lines) height_key.

(** The [with open(..., 'a+')] block, on the content of the file (empty
    when the file was not there): the new content, or the exception that
    leaves the block before [truncate].  The content is the text the bytes
    of the file decode to; [merge_file] below puts the decoding, which can
    fail, before it. *)
Definition write_candidates (content : string) (found : list string)
  : result string :=
  result_ <-
    merged_lines (readlines_text (universal_newlines content)) found ;;
  Ok (join_lines result_).

(** [main], from the arguments [start] and [end], the chain information
    and the content of the candidate file, to the way the run ends and the
    content of the file then. *)
Definition main (args_start args_end : Z) (info : chain_info)
    (content : string) : outcome * string :=
  let end_block := end_block_of args_end info in
  let start_block := start_block_of args_start end_block in
  if pruned info && (start_block <? pruneheight info)%Z
  then (Exited ARGERROR, content)
  else
    match scan (range start_block (end_block + 1)) [] with
    | inl o => (o, content)
    | inr found =>
        match write_candidates content found with
        | Raise e => (Uncaught e, content)
        | Ok content' => (Returned, content')
        end
    end.

End Scanner.

(* ================================================================= *)
(** ** Vocabulary of the statements: the classifier *)

(** How often [v] occurs in [values]. *)
Definition occurrences (v : Z) (values : list Z) : Z :=
  Z.of_nat (count_occ Z.eq_dec values v).

(** The four conditions under which a transaction matches: [f] outputs of
    value [v], [g] the number of outputs halved and rounded up. *)
Definition matches (n_in g v f : Z) : Prop :=
  (f = g /\ 3 <= g /\ g <= n_in /\ 75000 <= v)%Z.

(* ================================================================= *)
(** ** Vocabulary of the statements: decoding *)

(** Two byte strings with the same first [o] bytes. *)
Definition agree (tx tx' : bytes) (o : N) : Prop :=
  slice_to tx o = slice_to tx' o.

(** The fields decoded, with another lock time. *)
Definition with_locktime (f : tx_fields) (lock : N) : tx_fields :=
  {| f_version := f_version f; f_locktime := lock;
     f_is_segwit := f_is_segwit f; f_n_in := f_n_in f; f_n_out := f_n_out f;
     f_values := f_values f;
     f_offset_before_tx_witnesses := f_offset_before_tx_witnesses f;
     f_tx_offset := f_tx_offset f |}.

Definition set_locktime (t : tx_record) (lock : N) : tx_record :=
  {| version := version t; locktime := lock; is_segwit := is_segwit t;
     n_in := n_in t; n_out := n_out t; values := values t;
     offset_before_tx_witnesses := offset_before_tx_witnesses t;
     tx_size := tx_size t; txid := txid t; vsize := vsize t;
     most_common_value := most_common_value t; equal_outs := equal_outs t |}.

(** The part of [parse_fields] between the two fixed fields and the
    witnesses: witness flag, counts, values and the offset reached after the
    outputs. *)
Definition parse_body (tx : bytes) : result (bool * N * N * list N * N) :=
  let '(is_segwit, tx_offset) :=
    if bytes_eqb (slice tx 4 (4 + 2)) [x00; x01]
    then (true, (4 + 2)%N) else (false, 4%N) in
  '(n_in, varint_size) <- decode_varint (slice_from tx tx_offset) ;;
  tx_offset <- for_range n_in (parse_input tx) (tx_offset + varint_size)%N ;;
  '(n_out, varint_size) <- decode_varint (slice_from tx tx_offset) ;;
  '(tx_offset, values) <-
    for_range n_out (parse_output tx) ((tx_offset + varint_size)%N, []) ;;
  Ok (is_segwit, n_in, n_out, values, tx_offset).

(* ================================================================= *)
(** ** Vocabulary of the statements: the scan *)

(** The heights [main] scans. *)
Definition scanned_heights (args_start args_end : Z) (info : chain_info)
  : list Z :=
  range (start_block_of args_start (end_block_of args_end info))
        (end_block_of args_end info + 1).

(** The state of the block loop after its last turn. *)
Definition block_loop (sha256 : bytes -> bytes) (height : Z) (block : bytes)
    (n_txs offset : N) (found : list string) : block_state :=
  N.iter n_txs (tx_turn sha256 height (slice_from block 80))
         {| i := 0%N; block_offset := offset;
            processed_txs := 0%N; results := found |}.

(** The state of the block loop with [found] put before its results. *)
Definition prepend (found : list string) (st : block_state) : block_state :=
  {| i := i st; block_offset := block_offset st;
     processed_txs := processed_txs st; results := found ++ results st |}.

(** Turn [j] of the loop over the transactions of a block finds a
    transaction at the cursor the turns before it have left. *)
Definition turn_decodes (sha256 : bytes -> bytes) (height : Z) (block : bytes)
    (offset : N) (found : list string) (j : N) : Prop :=
  fst (try_widths sha256 (slice_from block 80)
         (block_offset (block_loop sha256 height block j offset found))
         range_0_20 0) <> None.

(* ================================================================= *)
(** ** Vocabulary of the statements: the candidate file *)

Definition carriage_return : ascii := "013"%char.

Fixpoint all_chars (p : ascii -> bool) (s : string) : bool :=
  match s with
  | EmptyString => true
  | String c r => p c && all_chars p r
  end.

Definition no_newline (s : string) : bool :=
  all_chars (fun c => negb (c =? newline)%char) s.

Definition no_cr (s : string) : bool :=
  all_chars (fun c => negb (c =? carriage_return)%char) s.

(** No line break inside. *)
Definition no_breaks (s : string) : bool :=
  all_chars (fun c => negb (c =? newline)%char
                      && negb (c =? carriage_return)%char) s.

(** After a carriage return, a newline is swallowed. *)
Definition skip_newline (r : string) : string :=
  match r with
  | String c' r' => if (c' =? newline)%char then r' else r
  | EmptyString => r
  end.

Definition starts_clean (z : string) : bool :=
  match z with
  | EmptyString => true
  | String c _ => negb (is_space c)
  end.

(** Neither white space nor comma. *)
Definition plain_char (c : ascii) : bool :=
  negb (is_space c) && negb (c =? comma)%char.

(** The lines of the file, as the merge sees them. *)
Definition stored_records (content : string) : list string :=
  map strip (readlines_text (universal_newlines content)).

(** A line as the merge writes it: something, without line break, with no
    white space at either end. *)
Definition clean_line (x : string) : Prop :=
  x <> EmptyString /\ strip x = x /\ no_breaks x = true.

(** Adjacent keys are in order: the second is not below the first. *)
Definition keys_in_order (a b : string * string) : Prop :=
  String.ltb (fst b) (fst a) = false.


(* ================================================================= *)
(** ** Sample data *)

(** The [k] little-endian bytes of [n]. *)
Definition le_bytes (k : nat) (n : N) : bytes :=
  map (fun i => match Byte.of_N ((n / 256 ^ N.of_nat i) mod 256) with
                | Some b => b
                | None => x00
                end) (seq 0 k).

(** An input with an empty signature script and an output with an empty
    script. *)
Definition sample_input : bytes := repeat x00 36 ++ [x00] ++ repeat xff 4.

Definition sample_output (value : N) : bytes := le_bytes 8 value ++ [x00].

(** One input, one output, no witness: 60 bytes. *)
Definition legacy_tx (lock : N) : bytes :=
  le_bytes 4 1 ++ [x01] ++ sample_input ++ [x01] ++ sample_output 5000
  ++ le_bytes 4 lock.

(** Three inputs and five outputs, three of them of 100000: 178 bytes. *)
Definition joinmarket_tx (lock : N) : bytes :=
  le_bytes 4 2 ++ [x03] ++ sample_input ++ sample_input ++ sample_input
  ++ [x05] ++ sample_output 100000 ++ sample_output 100000 ++ sample_output 7
  ++ sample_output 100000 ++ sample_output 9 ++ le_bytes 4 lock.

(** The inputs and outputs of [witness_tx]: one input, one output. *)
Definition sample_body : bytes :=
  [x01] ++ sample_input ++ [x01] ++ sample_output 5000.

(** A witness transaction: version 2, marker and flag, [sample_body], the
    witness stack [witness] of the input and the lock time. *)
Definition witness_tx (witness : bytes) (lock : N) : bytes :=
  le_bytes 4 2 ++ [x00; x01] ++ sample_body ++ witness ++ le_bytes 4 lock.

(** A stand-in for the digest, for running the scanner on the samples. *)
Definition toy_digest (data : bytes) : bytes :=
  le_bytes 4 (fold_left (fun acc b => (31 * acc + Byte.to_N b) mod 4294967296)%N
                        data 7%N).

(** A header of 80 bytes, the count and the transactions. *)
Definition sample_block (txs : list bytes) : bytes :=
  repeat x00 80 ++ le_bytes 1 (N.of_nat (List.length txs)) ++ List.concat txs.

(** The transactions of a block of two: a transaction of 178 bytes with lock
    time 7, then one of 60 bytes with lock time 9.  The first one starts at
    offset 1 of [txs_data], after the count. *)
Definition two_tx_data : bytes :=
  slice_from (sample_block [joinmarket_tx 7; legacy_tx 9]) 80.

(** A node whose blocks at heights 99999 and 100000 each hold one matching
    transaction. *)
Definition two_height_chain (height : Z) : option bytes :=
  if ((height =? 99999) || (height =? 100000))%Z
  then Some (sample_block [joinmarket_tx 0])
  else None.

Definition two_height_info : chain_info :=
  {| blocks := 100000; pruned := false; pruneheight := 0 |}.

(** A block of nine transactions that announces ten, and a node that serves
    it at height 700000. *)
Definition short_block : bytes :=
  repeat x00 80 ++ [x0a] ++ List.concat (repeat (legacy_tx 0) 9).

Definition short_chain (height : Z) : option bytes :=
  if (height =? 700000)%Z then Some short_block else None.

(** The store and the record of the merge scenario, and the store after
    the merge. *)
Definition scenario_store : string :=
  ("abc123,700000,4" ++ String newline "def456,699999,0")%string.



(* ================================================================= *)
(** ** Vocabulary of the statements: turns, keys and the bytes of the file *)

(** The transaction turn [j] of the loop over a block decodes, at the
    cursor the turns before it have left. *)
Definition turn_transaction (sha256 : bytes -> bytes) (height : Z)
    (block : bytes) (offset : N) (j : N) : option tx_record :=
  fst (try_widths sha256 (slice_from block 80)
         (block_offset (block_loop sha256 height block j offset []))
         range_0_20 0).



(* ================================================================= *)
(** ** Sample data: lines of one height, and bytes that are no text *)









(* ================================================================= *)
(** * Properties *)

(** ** Slices *)

Lemma slice_from_skipn {A : Type} (l : list A) (a : N) :
  slice_from l a = skipn (N.to_nat a) l.
Proof.
  revert a; induction l as [|x r IH]; intros a; simpl.
  - now rewrite skipn_nil.
  - destruct (N.eqb_spec a 0) as [->|Ha]; [reflexivity|].
    rewrite IH.
    replace (N.to_nat a) with (S (N.to_nat (N.pred a))) by lia.
    reflexivity.
Qed.

Lemma slice_to_firstn {A : Type} (l : list A) (b : N) :
  slice_to l b = firstn (N.to_nat b) l.
Proof.
  revert b; induction l as [|x r IH]; intros b; simpl.
  - now rewrite firstn_nil.
  - destruct (N.eqb_spec b 0) as [->|Hb]; [reflexivity|].
    rewrite IH.
    replace (N.to_nat b) with (S (N.to_nat (N.pred b))) by lia.
    reflexivity.
Qed.

Lemma slice_firstn_skipn {A : Type} (l : list A) (a b : N) :
  slice l a b = firstn (N.to_nat (b - a)) (skipn (N.to_nat a) l).
Proof. unfold slice. now rewrite slice_to_firstn, slice_from_skipn. Qed.

(* ================================================================= *)
(** ** The classifier *)

Lemma occurrences_app (v : Z) (l1 l2 : list Z) :
  occurrences v (l1 ++ l2) = (occurrences v l1 + occurrences v l2)%Z.
Proof. unfold occurrences. rewrite count_occ_app. lia. Qed.

Lemma occurrences_nonneg (v : Z) (l : list Z) : (0 <= occurrences v l)%Z.
Proof. unfold occurrences. lia. Qed.

Lemma occurrences_In (v : Z) (l : list Z) :
  In v l <-> (0 < occurrences v l)%Z.
Proof.
  unfold occurrences. rewrite (count_occ_In Z.eq_dec). lia.
Qed.

Lemma Counter_snoc (l : list Z) (v : Z) :
  Counter (l ++ [v]) = counter_add (Counter l) v.
Proof. unfold Counter. now rewrite fold_left_app. Qed.

Lemma in_keys {c : list (Z * Z)} {k : Z} :
  In k (map fst c) <-> exists n, In (k, n) c.
Proof.
  rewrite in_map_iff. split.
  - intros [[k' n] [E H]]. simpl in E. subst. now exists n.
  - intros [n H]. now exists (k, n).
Qed.

Lemma counter_add_spec (c : list (Z * Z)) (v : Z) :
  NoDup (map fst c) ->
  NoDup (map fst (counter_add c v)) /\
  forall k n,
    In (k, n) (counter_add c v) <->
    (k <> v /\ In (k, n) c) \/
    (k = v /\ (In (v, (n - 1)%Z) c \/ (n = 1%Z /\ ~ In v (map fst c)))).
Proof.
  induction c as [|[k0 n0] c IH]; intros ND.
  - simpl. split.
    + constructor; [intros []|constructor].
    + intros k n. split.
      * intros [E|[]]. inversion E; subst. right. split; [reflexivity|].
        right. split; [reflexivity|intros []].
      * intros [[_ []]|[-> [[]|[-> _]]]]. now left.
  - simpl in ND. apply NoDup_cons_iff in ND as [Hk0 ND].
    specialize (IH ND) as [IHnd IHin].
    simpl. destruct (Z.eqb_spec k0 v) as [->|Hne].
    + split; [simpl; constructor; assumption|].
      intros k n. simpl. split.
      * intros [E|H].
        -- inversion E; subst. right. split; [reflexivity|].
           left. left. f_equal. lia.
        -- left. split; [|now right].
           intros ->. apply Hk0. apply in_keys. now exists n.
      * intros [[Hkv [E|H]]|[-> [[E|H]|[_ Hn]]]].
        -- inversion E; subst. now contradiction Hkv.
        -- now right.
        -- inversion E; subst. left. f_equal. lia.
        -- exfalso. apply Hk0. apply in_keys. now exists (n - 1)%Z.
        -- exfalso. apply Hn. now left.
    + split.
      * simpl. constructor; [|assumption].
        intros Hin. apply in_keys in Hin as [n Hin].
        apply IHin in Hin as [[_ Hin]|[-> _]]; [|now apply Hne].
        apply Hk0. apply in_keys. now exists n.
      * intros k n. simpl. rewrite IHin. split.
        -- intros [E|[[Hkv H]|[-> [H|[-> Hn]]]]].
           ++ inversion E; subst. left. split; [assumption|now left].
           ++ left. split; [assumption|now right].
           ++ right. split; [reflexivity|]. left. now right.
           ++ right. split; [reflexivity|]. right. split; [reflexivity|].
              intros [E|H]; [now apply Hne|now apply Hn].
        -- intros [[Hkv [E|H]]|[-> [[E|H]|[-> Hn]]]].
           ++ now left.
           ++ right. left. now split.
           ++ inversion E; subst. now contradiction Hne.
           ++ right. right. split; [reflexivity|]. now left.
           ++ right. right. split; [reflexivity|]. right.
              split; [reflexivity|]. intros H. apply Hn. now right.
Qed.

(** The counter holds every value of the list once, with the number of its
    occurrences. *)
Lemma Counter_spec (values : list Z) :
  NoDup (map fst (Counter values)) /\
  forall k n,
    In (k, n) (Counter values) <-> In k values /\ n = occurrences k values.
Proof.
  induction values as [|v l [IHnd IHin]] using rev_ind.
  - split; [constructor|]. intros k n. simpl. tauto.
  - rewrite Counter_snoc.
    destruct (counter_add_spec (Counter l) v IHnd) as [ND Hin].
    split; [assumption|].
    intros k n. rewrite Hin, in_app_iff, occurrences_app.
    assert (Hv : occurrences v [v] = 1%Z).
    { unfold occurrences. simpl. now destruct (Z.eq_dec v v). }
    assert (Hk : k <> v -> occurrences k [v] = 0%Z).
    { intros Hkv. unfold occurrences. simpl.
      destruct (Z.eq_dec v k); [now subst|reflexivity]. }
    split.
    + intros [[Hkv H]|[-> [H|[-> Hn]]]].
      * apply IHin in H as [H ->]. rewrite (Hk Hkv). split; [now left|lia].
      * apply IHin in H as [H E]. rewrite Hv. split; [now left|lia].
      * rewrite Hv. split; [right; now left|].
        assert (Hz : ~ In v l).
        { intros H. apply Hn. apply in_keys. exists (occurrences v l).
          now apply IHin. }
        rewrite occurrences_In in Hz. pose proof (occurrences_nonneg v l). lia.
    + intros [[H|[->|[]]] ->].
      * destruct (Z.eq_dec k v) as [->|Hkv].
        -- right. split; [reflexivity|]. left. apply IHin.
           split; [assumption|]. rewrite Hv. lia.
        -- left. split; [assumption|]. apply IHin.
           split; [assumption|]. rewrite (Hk Hkv). lia.
      * right. split; [reflexivity|].
        destruct (in_dec Z.eq_dec k l) as [H|H].
        -- left. apply IHin. split; [assumption|]. rewrite Hv. lia.
        -- right. rewrite Hv. split.
           ++ rewrite occurrences_In in H.
              pose proof (occurrences_nonneg k l). lia.
           ++ intros Hkeys. apply in_keys in Hkeys as [m Hm].
              apply IHin in Hm as [Hm _]. now apply H.
Qed.

Lemma max_by_count_spec (first : Z * Z) (others : list (Z * Z)) :
  In (max_by_count first others) (first :: others) /\
  forall y, In y (first :: others) ->
            (snd y <= snd (max_by_count first others))%Z.
Proof.
  unfold max_by_count. revert first.
  induction others as [|z r IH]; intros x; simpl.
  - split; [now left|]. intros y [<-|[]]. lia.
  - destruct (IH (if (snd x <? snd z)%Z then z else x)) as [Hin Hmax].
    split.
    + destruct Hin as [E|Hin]; [|right; now right].
      rewrite <- E. destruct (snd x <? snd z)%Z; [right|]; now left.
    + intros y Hy.
      assert (Hx : (snd x <= snd (if (snd x <? snd z)%Z then z else x))%Z)
        by (destruct (Z.ltb_spec (snd x) (snd z)); lia).
      assert (Hz : (snd z <= snd (if (snd x <? snd z)%Z then z else x))%Z)
        by (destruct (Z.ltb_spec (snd x) (snd z)); lia).
      pose proof (Hmax _ (or_introl eq_refl)) as Hb.
      destruct Hy as [<-|[<-|Hy]]; [lia|lia|].
      apply Hmax. now right.
Qed.

Lemma Counter_nonempty (values : list Z) :
  values <> [] -> Counter values <> [].
Proof.
  destruct values as [|v l]; [congruence|]. intros _ E.
  destruct (Counter_spec (v :: l)) as [_ H].
  specialize (H v (occurrences v (v :: l))).
  rewrite E in H. apply H. split; [now left|reflexivity].
Qed.

(** What [Counter(values).most_common(1)[0]] is, for a list with at least
    one value: a value of the list, with the number of its occurrences, which
    no other value exceeds. *)
Lemma most_common_spec (values : list Z) :
  values <> [] ->
  exists v f,
    most_common_1 (Counter values) = [(v, f)] /\
    In v values /\ f = occurrences v values /\
    forall w, (occurrences w values <= f)%Z.
Proof.
  intros Hne. pose proof (Counter_nonempty values Hne) as Hc.
  destruct (Counter_spec values) as [_ Hin].
  destruct (Counter values) as [|x r] eqn:EC; [congruence|].
  destruct (max_by_count_spec x r) as [Hb Hmax].
  destruct (max_by_count x r) as [v f] eqn:EM.
  exists v, f. simpl. rewrite EM. split; [reflexivity|].
  apply Hin in Hb as [Hv Hf]. split; [assumption|]. split; [assumption|].
  intros w. destruct (in_dec Z.eq_dec w values) as [Hw|Hw].
  - assert (H : In (w, occurrences w values) (x :: r)) by now apply Hin.
    apply Hmax in H. exact H.
  - rewrite occurrences_In in Hw. rewrite occurrences_In in Hv.
    pose proof (occurrences_nonneg w values). lia.
Qed.

(** The smallest integer not below [n_out / 2], as the code computes it. *)
Lemma assumed_cj_outs_ceil (n_out g : Z) :
  (n_out <= 2 * g < n_out + 2)%Z ->
  (if negb (n_out mod 2 =? 0)%Z then (n_out / 2 + 1)%Z else (n_out / 2)%Z) = g.
Proof.
  intros Hg.
  pose proof (Z.div_mod n_out 2 ltac:(lia)) as Hdm.
  pose proof (Z.mod_pos_bound n_out 2 ltac:(lia)) as Hb.
  destruct (Z.eqb_spec (n_out mod 2) 0); simpl; lia.
Qed.

Lemma is_jm_cases (n_in n_out g v f : Z) (values : list Z) :
  (n_out <= 2 * g < n_out + 2)%Z ->
  most_common_1 (Counter values) = [(v, f)] ->
  (matches n_in g v f -> is_jm n_in n_out values = Ok (v, f)) /\
  (~ matches n_in g v f -> is_jm n_in n_out values = Ok (0, 0)%Z).
Proof.
  intros Hg Hmc. unfold is_jm, matches, MIN_PARTICIPANTS, MIN_CJ_AMOUNT.
  rewrite (assumed_cj_outs_ceil n_out g Hg), Hmc. simpl.
  destruct (Z.ltb_spec g 3); [split; [lia|reflexivity]|].
  destruct (Z.ltb_spec n_in g); [split; [lia|reflexivity]|].
  destruct (Z.ltb_spec v 75000); [split; [lia|reflexivity]|].
  destruct (Z.eqb_spec f g); simpl; split; intros; try reflexivity; lia.
Qed.

(** C1.  For a non-empty list of values, [is_jm] looks at the most frequent
    value [v] of the list and its frequency [f] (the pair
    [Counter(values).most_common(1)[0]]).  With [g] the number of outputs
    halved and rounded up, it returns [(v, f)] when [f = g], [g >= 3],
    [n_in >= g] and [v >= 75000], and [(0, 0)] as soon as one of the four
    fails; so the result is [(0, 0)] exactly when the transaction does not
    match. *)
Theorem is_jm_classifies (n_in n_out : Z) (values : list Z) :
  values <> [] ->
  exists v f,
    index0 (most_common_1 (Counter values)) = Ok (v, f) /\
    In v values /\
    f = occurrences v values /\
    (forall w, occurrences w values <= f)%Z /\
    forall g, (n_out <= 2 * g < n_out + 2)%Z ->
      (matches n_in g v f -> is_jm n_in n_out values = Ok (v, f)) /\
      (~ matches n_in g v f -> is_jm n_in n_out values = Ok (0, 0)%Z) /\
      (is_jm n_in n_out values = Ok (v, f) <-> matches n_in g v f) /\
      (is_jm n_in n_out values = Ok (0, 0)%Z <-> ~ matches n_in g v f).
Proof.
  intros Hne.
  destruct (most_common_spec values Hne) as (v & f & Hmc & Hv & Hf & Hmax).
  exists v, f. rewrite Hmc. simpl.
  repeat (split; [assumption || reflexivity|]).
  intros g Hg. destruct (is_jm_cases n_in n_out g v f values Hg Hmc) as [Hyes Hno].
  assert (Hpos : (0 < f)%Z) by (subst f; now apply occurrences_In).
  assert (Hdec : matches n_in g v f \/ ~ matches n_in g v f)
    by (unfold matches; lia).
  split; [assumption|]. split; [assumption|].
  split; split.
  - intros E. destruct Hdec as [M|M]; [assumption|].
    rewrite (Hno M) in E. inversion E; subst. lia.
  - assumption.
  - intros E M. rewrite (Hyes M) in E. inversion E; subst. lia.
  - assumption.
Qed.

Lemma is_jm_classifies_witness :
  exists v f,
    index0 (most_common_1
              (Counter [100000; 100000; 100000; 50; 60; 70]%Z)) = Ok (v, f) /\
    In v [100000; 100000; 100000; 50; 60; 70]%Z /\
    f = occurrences v [100000; 100000; 100000; 50; 60; 70]%Z /\
    (forall w, occurrences w [100000; 100000; 100000; 50; 60; 70]%Z <= f)%Z /\
    forall g, (6 <= 2 * g < 6 + 2)%Z ->
      (matches 5 g v f ->
       is_jm 5 6 [100000; 100000; 100000; 50; 60; 70]%Z = Ok (v, f)) /\
      (~ matches 5 g v f ->
       is_jm 5 6 [100000; 100000; 100000; 50; 60; 70]%Z = Ok (0, 0)%Z) /\
      (is_jm 5 6 [100000; 100000; 100000; 50; 60; 70]%Z = Ok (v, f) <->
       matches 5 g v f) /\
      (is_jm 5 6 [100000; 100000; 100000; 50; 60; 70]%Z = Ok (0, 0)%Z <->
       ~ matches 5 g v f).
Proof.
  apply (is_jm_classifies 5 6 [100000; 100000; 100000; 50; 60; 70]%Z).
  discriminate.
Defined.

(** The two scenarios of the classifier: three outputs of 100000 among six
    match; three outputs of 50000 do not. *)
Example is_jm_accepts :
  is_jm 5 6 [100000; 100000; 100000; 50; 60; 70]%Z = Ok (100000, 3)%Z.
Proof. reflexivity. Qed.

Example is_jm_rejects_low_value :
  is_jm 5 6 [50000; 50000; 50000; 50; 60; 70]%Z = Ok (0, 0)%Z.
Proof. reflexivity. Qed.

(** With two values of the largest frequency, the first one of the list is
    the one looked at. *)
Example is_jm_tie_first_wins :
  is_jm 5 6 [50000; 100000; 50000; 100000; 50000; 100000]%Z = Ok (0, 0)%Z /\
  is_jm 5 6 [100000; 50000; 100000; 50000; 100000; 50000]%Z
  = Ok (100000, 3)%Z.
Proof. split; reflexivity. Qed.

(** C10.  [is_jm] raises nothing on a non-empty list of values.  On the empty
    list it raises [IndexError] (the first element of an empty
    [most_common(1)]) exactly when the two tests on the counts let it through,
    which is the case for every [n_out >= 5] with [n_in] at least half of it
    rounded up; and when [values] has [n_out] elements the call returns. *)
Theorem is_jm_total_on_nonempty :
  (forall n_in n_out values,
      values <> [] -> exists r, is_jm n_in n_out values = Ok r) /\
  (forall n_in n_out g,
      (n_out <= 2 * g < n_out + 2)%Z ->
      (5 <= n_out)%Z -> (g <= n_in)%Z ->
      is_jm n_in n_out [] = Raise IndexError) /\
  (exists n_in n_out g,
      (n_out <= 2 * g < n_out + 2)%Z /\ (5 <= n_out)%Z /\ (g <= n_in)%Z /\
      is_jm n_in n_out [] = Raise IndexError) /\
  (forall n_in n_out g values e,
      (n_out <= 2 * g < n_out + 2)%Z ->
      (is_jm n_in n_out values = Raise e <->
       values = [] /\ (3 <= g)%Z /\ (g <= n_in)%Z /\ e = IndexError)) /\
  (forall n_in n_out values,
      Z.of_nat (List.length values) = n_out ->
      exists r, is_jm n_in n_out values = Ok r).
Proof.
  assert (Hnonempty : forall n_in n_out values,
             values <> [] -> exists r, is_jm n_in n_out values = Ok r).
  { intros n_in n_out values Hne.
    destruct (most_common_spec values Hne) as (v & f & Hmc & _).
    unfold is_jm. rewrite Hmc. simpl.
    repeat match goal with
           | |- context [if ?b then _ else _] => destruct b
           end; eexists; reflexivity. }
  assert (Hempty : forall n_in n_out g,
             (n_out <= 2 * g < n_out + 2)%Z ->
             (is_jm n_in n_out [] = Raise IndexError <->
              (3 <= g)%Z /\ (g <= n_in)%Z) /\
             (forall e, is_jm n_in n_out [] = Raise e -> e = IndexError)).
  { intros n_in n_out g Hg. unfold is_jm, MIN_PARTICIPANTS.
    rewrite (assumed_cj_outs_ceil n_out g Hg). simpl.
    destruct (Z.ltb_spec g 3); [split; [split; [discriminate|lia]|discriminate]|].
    destruct (Z.ltb_spec n_in g); [split; [split; [discriminate|lia]|discriminate]|].
    split; [split; [lia|reflexivity]|]. intros e E. now inversion E. }
  split; [exact Hnonempty|].
  split.
  { intros n_in n_out g Hg H5 Hin. apply (Hempty n_in n_out g Hg). lia. }
  split.
  { exists 3%Z, 5%Z, 3%Z. repeat (split; [lia|]). reflexivity. }
  split.
  { intros n_in n_out g values e Hg. split.
    - intros E. destruct values as [|v l].
      + destruct (Hempty n_in n_out g Hg) as [H1 H2].
        pose proof (H2 e E) as ->. apply H1 in E. tauto.
      + destruct (Hnonempty n_in n_out (v :: l) ltac:(discriminate)) as [r Hr].
        congruence.
    - intros (-> & H3 & Hin & ->). now apply (Hempty n_in n_out g Hg). }
  intros n_in n_out values Hlen.
  destruct values as [|v l]; [|apply Hnonempty; discriminate].
  simpl in Hlen. subst n_out. eexists. reflexivity.
Qed.

Lemma is_jm_total_on_nonempty_witness :
  (exists r, is_jm 5 6 [100000; 100000; 100000; 50; 60; 70]%Z = Ok r) /\
  is_jm 3 5 [] = Raise IndexError /\
  (exists r, is_jm 3 0 [] = Ok r).
Proof.
  destruct is_jm_total_on_nonempty as (H1 & H2 & _ & _ & H5).
  split; [apply H1; discriminate|].
  split; [apply (H2 3 5 3)%Z; lia|].
  apply H5. reflexivity.
Defined.

(* ================================================================= *)
(** ** Primitive decoders *)

Lemma len_slice_to {A : Type} (l : list A) (b : N) :
  len (slice_to l b) = N.min b (len l).
Proof.
  unfold len. rewrite slice_to_firstn, length_firstn. lia.
Qed.

Lemma len_slice_from {A : Type} (l : list A) (a : N) :
  len (slice_from l a) = (len l - a)%N.
Proof.
  unfold len. rewrite slice_from_skipn, length_skipn. lia.
Qed.

Lemma len_slice {A : Type} (l : list A) (a b : N) :
  len (slice l a b) = N.min (b - a) (len l - a).
Proof. unfold slice. now rewrite len_slice_to, len_slice_from. Qed.

Lemma slice_cons_1 {A : Type} (x : A) (l : list A) (b : N) :
  slice (x :: l) 1 (b + 1) = slice_to l b.
Proof.
  rewrite slice_firstn_skipn, slice_to_firstn.
  replace (N.to_nat (b + 1 - 1)) with (N.to_nat b) by lia.
  reflexivity.
Qed.

(** The value of a selector byte above 252, from the bytes after it: the
    number of bytes the selector asks for, and the outcome. *)
Lemma decode_varint_wide (b : byte) (rest : bytes) (f : struct_format) :
  (Byte.to_N b = 253 /\ f = fmt_H \/ Byte.to_N b = 254 /\ f = fmt_I \/
   Byte.to_N b = 255 /\ f = fmt_Q)%N ->
  decode_varint (b :: rest) =
  if (calcsize f <=? len rest)%N
  then Ok (le_decode (slice_to rest (calcsize f)), (calcsize f + 1)%N)
  else Raise StructError.
Proof.
  intros H. unfold decode_varint. simpl.
  assert (E : (if (Byte.to_N b =? 253)%N then Ok fmt_H
               else if (Byte.to_N b =? 254)%N then Ok fmt_I
               else if (Byte.to_N b =? 255)%N then Ok fmt_Q
               else Raise ValueError) = Ok f).
  { destruct H as [[-> ->]|[[-> ->]|[-> ->]]]; reflexivity. }
  assert (H1 : (255 <? Byte.to_N b)%N = false).
  { destruct H as [[-> _]|[[-> _]|[-> _]]]; reflexivity. }
  assert (H2 : (Byte.to_N b <? 253)%N = false).
  { destruct H as [[-> _]|[[-> _]|[-> _]]]; reflexivity. }
  rewrite H1, H2, E. cbn [bind].
  rewrite slice_cons_1. unfold struct_unpack. rewrite len_slice_to.
  destruct (N.leb_spec (calcsize f) (len rest)) as [Hle|Hgt].
  - rewrite N.min_l by assumption. now rewrite N.eqb_refl.
  - rewrite N.min_r by lia.
    destruct (N.eqb_spec (len rest) (calcsize f)); [lia|reflexivity].
Qed.

(** The cases of [decode_varint], by the first byte. *)
Lemma decode_varint_cases (data : bytes) :
  match data with
  | [] => decode_varint data = Raise IndexError
  | b :: rest =>
      let s := Byte.to_N b in
      ((s <= 252)%N -> decode_varint data = Ok (s, 1%N)) /\
      (s = 253%N ->
       ((2 <= len rest)%N ->
        decode_varint data = Ok (le_decode (firstn 2 rest), 3%N)) /\
       ((len rest < 2)%N -> decode_varint data = Raise StructError)) /\
      (s = 254%N ->
       ((4 <= len rest)%N ->
        decode_varint data = Ok (le_decode (firstn 4 rest), 5%N)) /\
       ((len rest < 4)%N -> decode_varint data = Raise StructError)) /\
      (s = 255%N ->
       ((8 <= len rest)%N ->
        decode_varint data = Ok (le_decode (firstn 8 rest), 9%N)) /\
       ((len rest < 8)%N -> decode_varint data = Raise StructError)) /\
      (s <= 252 \/ s = 253 \/ s = 254 \/ s = 255)%N
  end.
Proof.
  destruct data as [|b rest]; [reflexivity|].
  cbv zeta.
  split.
  { intros Hs. unfold decode_varint. simpl.
    destruct (N.ltb_spec 255 (Byte.to_N b)); [lia|].
    destruct (N.ltb_spec (Byte.to_N b) 253); [reflexivity|lia]. }
  split; [|split; [|split]].
  - intros Hs.
    rewrite (decode_varint_wide b rest fmt_H) by tauto.
    rewrite slice_to_firstn. simpl calcsize.
    split; intros Hl; destruct (N.leb_spec 2 (len rest)); try lia; reflexivity.
  - intros Hs.
    rewrite (decode_varint_wide b rest fmt_I) by tauto.
    rewrite slice_to_firstn. simpl calcsize.
    split; intros Hl; destruct (N.leb_spec 4 (len rest)); try lia; reflexivity.
  - intros Hs.
    rewrite (decode_varint_wide b rest fmt_Q) by tauto.
    rewrite slice_to_firstn. simpl calcsize.
    split; intros Hl; destruct (N.leb_spec 8 (len rest)); try lia; reflexivity.
  - pose proof (Byte.to_N_bounded b). lia.
Qed.

(** C8.  [decode_varint] on a byte string: it fails on the empty string; a
    first byte [b] up to 252 is the value, one byte consumed; a first byte
    253, 254 or 255 announces 2, 4 or 8 little-endian bytes, which are the
    value, with 3, 5 or 9 bytes consumed, and the call fails when fewer
    bytes than that follow. *)
Theorem decode_varint_spec (data : bytes) :
  match data with
  | [] => decode_varint data = Raise IndexError
  | b :: rest =>
      let s := Byte.to_N b in
      ((s <= 252)%N -> decode_varint data = Ok (s, 1%N)) /\
      (s = 253%N ->
       ((2 <= len rest)%N ->
        decode_varint data = Ok (le_decode (firstn 2 rest), 3%N)) /\
       ((len rest < 2)%N -> decode_varint data = Raise StructError)) /\
      (s = 254%N ->
       ((4 <= len rest)%N ->
        decode_varint data = Ok (le_decode (firstn 4 rest), 5%N)) /\
       ((len rest < 4)%N -> decode_varint data = Raise StructError)) /\
      (s = 255%N ->
       ((8 <= len rest)%N ->
        decode_varint data = Ok (le_decode (firstn 8 rest), 9%N)) /\
       ((len rest < 8)%N -> decode_varint data = Raise StructError)) /\
      (s <= 252 \/ s = 253 \/ s = 254 \/ s = 255)%N
  end.
Proof. exact (decode_varint_cases data). Qed.

Lemma decode_varint_spec_witness :
  decode_varint [xfd; x01; x02; x03] = Ok (513%N, 3%N) /\
  decode_varint [xfe; x01; x02; x03] = Raise StructError /\
  decode_varint [x2a; x01] = Ok (42%N, 1%N).
Proof.
  split; [|split].
  - destruct (decode_varint_spec [xfd; x01; x02; x03]) as (_ & H & _).
    apply H; [reflexivity | vm_compute; discriminate].
  - destruct (decode_varint_spec [xfe; x01; x02; x03]) as (_ & _ & H & _).
    apply H; reflexivity.
  - destruct (decode_varint_spec [x2a; x01]) as (H & _).
    apply H. vm_compute. discriminate.
Defined.

(* ================================================================= *)
(** ** Virtual size *)

Lemma ceil_div4_bounds (w : Z) :
  (4 * (ceil_div4 w - 1) < w <= 4 * ceil_div4 w)%Z.
Proof.
  unfold ceil_div4, Qround.Qceiling, Qround.Qfloor.
  cbn [QArith_base.Qopp QArith_base.Qnum QArith_base.Qden].
  pose proof (Z.div_mod (- w) 4 ltac:(lia)).
  pose proof (Z.mod_pos_bound (- w) 4 ltac:(lia)).
  lia.
Qed.

Lemma parse_tx_vsize (sha256 : bytes -> bytes) (tx : bytes) (t : tx_record) :
  parse_tx sha256 tx = Parsed t ->
  vsize t = virtual_size (is_segwit t) (Z.of_N (tx_size t))
                         (Z.of_N (offset_before_tx_witnesses t)).
Proof.
  unfold parse_tx. intros H.
  destruct (parse_fields tx) as [f|e]; [|discriminate].
  destruct (negb _); [discriminate|].
  destruct (is_jm _ _ _) as [[v n]|e]; [|discriminate].
  inversion H; subst. reflexivity.
Qed.

(** C5 (amended).  A transaction decoded without the witness marker has
    its byte length as virtual size (250 for 250 bytes).  For a witness
    transaction, with [witness_size = tx_size - offset_before_tx_witnesses - 4],
    [stripped_size = tx_size - 2 - witness_size] and
    [weight = stripped_size * 3 + tx_size], the virtual size is the weight
    divided by four and rounded up.  A stripped size of 200 with a witness of
    100 bytes means 302 bytes in all, a weight of 902 and a virtual size of
    226. *)
Theorem vsize_formula (sha256 : bytes -> bytes) (tx : bytes) (t : tx_record) :
  parse_tx sha256 tx = Parsed t ->
  let total := Z.of_N (tx_size t) in
  let before := Z.of_N (offset_before_tx_witnesses t) in
  (is_segwit t = false -> vsize t = total) /\
  (is_segwit t = true ->
   witness_size total before = (total - before - 4)%Z /\
   stripped_size total before = (total - 2 - witness_size total before)%Z /\
   weight total before = (stripped_size total before * 3 + total)%Z /\
   (4 * (vsize t - 1) < weight total before <= 4 * vsize t)%Z) /\
  virtual_size false 250 0 = 250%Z /\
  (forall total' before',
      stripped_size total' before' = 200%Z ->
      witness_size total' before' = 100%Z ->
      total' = 302%Z /\ weight total' before' = 902%Z /\
      virtual_size true total' before' = 226%Z).
Proof.
  intros H. cbv zeta. rewrite (parse_tx_vsize sha256 tx t H).
  split; [intros ->; reflexivity|].
  split.
  - intros ->. unfold virtual_size. cbn [negb].
    split; [reflexivity|]. split; [unfold stripped_size; lia|].
    split; [reflexivity|]. apply ceil_div4_bounds.
  - split; [reflexivity|].
    intros total' before' Hs Hw.
    assert (Ht : total' = 302%Z) by (unfold stripped_size in Hs; lia).
    assert (Hb : before' = 198%Z) by (unfold witness_size in Hw; lia).
    subst. repeat split; reflexivity.
Qed.

Lemma vsize_formula_witness :
  exists t,
    parse_tx toy_digest (witness_tx [x02; x01; xaa; x02; xbb; xcc] 7) = Parsed t /\
    is_segwit t = true /\ tx_size t = 68%N /\
    offset_before_tx_witnesses t = 58%N /\
    (4 * (vsize t - 1) < weight 68 58 <= 4 * vsize t)%Z.
Proof.
  eexists. split; [vm_compute; reflexivity|].
  repeat (split; [reflexivity|]).
  apply (vsize_formula toy_digest
           (witness_tx [x02; x01; xaa; x02; xbb; xcc] 7) _ eq_refl).
  reflexivity.
Defined.

(** The numbers of the worked example cannot be met: a stripped size of 200
    and a witness of 100 bytes are those of a transaction of 302 bytes and of
    weight 902, and a transaction of 304 bytes with a witness of 100 bytes
    has a stripped size of 202, a weight of 910 and a virtual size of 228. *)
Lemma vsize_example_304_fails :
  stripped_size 302 198 = 200%Z /\ witness_size 302 198 = 100%Z /\
  weight 302 198 = 902%Z /\ virtual_size true 302 198 = 226%Z /\
  witness_size 304 200 = 100%Z /\ stripped_size 304 200 = 202%Z /\
  weight 304 200 = 910%Z /\ virtual_size true 304 200 = 228%Z /\
  ~ (exists total before,
        stripped_size total before = 200%Z /\
        witness_size total before = 100%Z /\
        total = 304%Z /\ weight total before = 904%Z).
Proof.
  repeat (split; [reflexivity|]).
  intros (total & before & Hs & Hw & Ht & _).
  unfold stripped_size in Hs. lia.
Qed.

(* ================================================================= *)
(** ** The lock time read from a slice of the block *)

(** C7.  On the block of two transactions, the first transaction is decoded
    at cursor 1 with a consumed length of 178 and matches the pattern, so its
    fields are logged; its [locktime] is 9, the last four bytes of the slice
    (those of the second transaction), while the last four of its own 178
    bytes decode to 7. *)
Theorem locktime_read_from_slice_end (sha256 : bytes -> bytes) :
  exists t,
    try_widths sha256 two_tx_data 1 range_0_20 0 = (Some t, 178%N) /\
    tx_size t = 178%N /\
    most_common_value t = 100000%Z /\
    locktime t = 9%N /\
    decode_uint32 (last4 (slice two_tx_data 1 (1 + 178))) = Ok 7%N.
Proof.
  eexists. split; [vm_compute; reflexivity|].
  repeat split; reflexivity.
Qed.

(** C6.  On the same block, decoding at cursor 1 consumes 178 bytes; decoding
    those 178 bytes again, on their own, gives the same version, witness
    flag, counts, values, length and identifier, and another lock time: 7
    instead of 9. *)
Theorem redecode_changes_locktime (sha256 : bytes -> bytes) :
  exists t t',
    try_widths sha256 two_tx_data 1 range_0_20 0 = (Some t, 178%N) /\
    try_widths sha256 (slice two_tx_data 1 (1 + 178)) 0 range_0_20 0
    = (Some t', 178%N) /\
    version t' = version t /\ is_segwit t' = is_segwit t /\
    n_in t' = n_in t /\ n_out t' = n_out t /\ values t' = values t /\
    tx_size t' = tx_size t /\ txid t' = txid t /\
    locktime t = 9%N /\ locktime t' = 7%N /\ t' <> t.
Proof.
  eexists. eexists. split; [vm_compute; reflexivity|].
  split; [vm_compute; reflexivity|].
  repeat (split; [reflexivity|]).
  intros E. apply (f_equal locktime) in E. cbn in E. discriminate.
Qed.

(* ================================================================= *)
(** ** The identifier *)

(** What a pass that reaches [break] has computed. *)
Lemma parse_tx_inv (sha256 : bytes -> bytes) (tx : bytes) (t : tx_record) :
  parse_tx sha256 tx = Parsed t ->
  exists f,
    parse_fields tx = Ok f /\
    tx_size t = (f_tx_offset f + 4)%N /\
    tx_size t = len (slice_to tx (tx_size t)) /\
    version t = f_version f /\ locktime t = f_locktime f /\
    is_segwit t = f_is_segwit f /\ n_in t = f_n_in f /\
    n_out t = f_n_out f /\ values t = f_values f /\
    offset_before_tx_witnesses t = f_offset_before_tx_witnesses f /\
    txid t = format_hash
               (double_sha256 sha256
                  (txid_data_of (is_segwit t) (slice_to tx (tx_size t))
                                (offset_before_tx_witnesses t))) /\
    is_jm (Z.of_N (n_in t)) (Z.of_N (n_out t)) (map Z.of_N (values t))
    = Ok (most_common_value t, equal_outs t).
Proof.
  unfold parse_tx. intros H.
  destruct (parse_fields tx) as [f|e]; [|discriminate].
  exists f. split; [reflexivity|].
  destruct (N.eqb_spec (f_tx_offset f + 4) (len (slice_to tx (f_tx_offset f + 4))))
    as [E|E]; [|discriminate].
  cbn [negb] in H.
  destruct (is_jm _ _ _) as [[v n]|e] eqn:EJ; [|discriminate].
  inversion H; subst; cbn.
  repeat (split; [reflexivity || assumption|]). assumption.
Qed.

Lemma bytes_eqb_eq (a b : bytes) : bytes_eqb a b = true <-> a = b.
Proof.
  revert b; induction a as [|x a IH]; intros [|y b]; simpl;
    try (split; [discriminate|discriminate]); [tauto|].
  rewrite andb_true_iff, IH. split.
  - intros [E ->]. apply Byte.byte_dec_bl in E. now subst.
  - intros E. inversion E; subst. split; [|reflexivity].
    now apply Byte.byte_dec_lb.
Qed.

(** The witness flag is set exactly when bytes 4 and 5 are 00 01. *)
Lemma parse_fields_is_segwit (tx : bytes) (f : tx_fields) :
  parse_fields tx = Ok f ->
  f_is_segwit f = bytes_eqb (slice tx 4 6) [x00; x01].
Proof.
  unfold parse_fields. intros H.
  destruct (decode_uint32 (slice_to tx 4)) as [ver|e]; [|discriminate].
  destruct (decode_uint32 (last4 tx)) as [lock|e]; [|discriminate].
  cbn [bind] in H. change (4 + 2)%N with 6%N in H.
  destruct (bytes_eqb (slice tx 4 6) [x00; x01]).
  - destruct (decode_varint _) as [[n vs]|e]; [|discriminate]. cbn [bind] in H.
    destruct (for_range n _ _) as [o|e]; [|discriminate]. cbn [bind] in H.
    destruct (decode_varint _) as [[m vs']|e]; [|discriminate]. cbn [bind] in H.
    destruct (for_range m _ _) as [[o' vals]|e]; [|discriminate]. cbn [bind] in H.
    destruct (for_range n _ _) as [o''|e]; [|discriminate]. cbn [bind] in H.
    now inversion H.
  - destruct (decode_varint _) as [[n vs]|e]; [|discriminate]. cbn [bind] in H.
    destruct (for_range n _ _) as [o|e]; [|discriminate]. cbn [bind] in H.
    destruct (decode_varint _) as [[m vs']|e]; [|discriminate]. cbn [bind] in H.
    destruct (for_range m _ _) as [[o' vals]|e]; [|discriminate]. cbn [bind] in H.
    now inversion H.
Qed.

Lemma slice_to_app_exact {A : Type} (l1 l2 : list A) (n : N) :
  len l1 = n -> slice_to (l1 ++ l2) n = l1.
Proof.
  intros <-. rewrite slice_to_firstn. unfold len. rewrite Nat2N.id.
  rewrite firstn_app, Nat.sub_diag, firstn_all. simpl. apply app_nil_r.
Qed.

Lemma slice_from_app_exact {A : Type} (l1 l2 : list A) (n : N) :
  len l1 = n -> slice_from (l1 ++ l2) n = l2.
Proof.
  intros <-. rewrite slice_from_skipn. unfold len. rewrite Nat2N.id.
  rewrite skipn_app, Nat.sub_diag, skipn_all. reflexivity.
Qed.

Lemma slice_app_exact {A : Type} (l1 l2 l3 : list A) (a b : N) :
  len l1 = a -> (a + len l2)%N = b -> slice (l1 ++ l2 ++ l3) a b = l2.
Proof.
  intros Ha Hb. unfold slice. rewrite (slice_from_app_exact l1 _ a Ha).
  apply slice_to_app_exact. lia.
Qed.

Lemma last4_app {A : Type} (l lock : list A) :
  List.length lock = 4 -> last4 (l ++ lock) = lock.
Proof.
  intros H. unfold last4. rewrite length_app, H.
  replace (List.length l + 4 - 4) with (List.length l) by lia.
  rewrite skipn_app, Nat.sub_diag, skipn_all. reflexivity.
Qed.

Lemma len_app {A : Type} (l1 l2 : list A) :
  len (l1 ++ l2) = (len l1 + len l2)%N.
Proof. unfold len. rewrite length_app. lia. Qed.

(** The bytes hashed for a witness transaction laid out as version, marker
    and flag, inputs and outputs, witnesses, lock time. *)
Lemma txid_data_of_witness_layout (ver body wit lock rest : bytes) :
  List.length ver = 4 -> List.length lock = 4 ->
  txid_data_of true
    (slice_to (ver ++ [x00; x01] ++ body ++ wit ++ lock ++ rest)
              (6 + len body + len wit + 4))
    (6 + len body)
  = ver ++ body ++ lock.
Proof.
  intros Hv Hl.
  assert (E : slice_to (ver ++ [x00; x01] ++ body ++ wit ++ lock ++ rest)
                       (6 + len body + len wit + 4)
              = ver ++ [x00; x01] ++ body ++ wit ++ lock).
  { replace (ver ++ [x00; x01] ++ body ++ wit ++ lock ++ rest)
      with ((ver ++ [x00; x01] ++ body ++ wit ++ lock) ++ rest)
      by (repeat rewrite <- app_assoc; reflexivity).
    apply slice_to_app_exact. repeat rewrite len_app.
    replace (len ver) with 4%N by (unfold len; now rewrite Hv).
    replace (len lock) with 4%N by (unfold len; now rewrite Hl).
    change (len [x00; x01]) with 2%N. lia. }
  rewrite E. unfold txid_data_of. f_equal; [|f_equal].
  - apply slice_to_app_exact. unfold len. now rewrite Hv.
  - replace (ver ++ [x00; x01] ++ body ++ wit ++ lock)
      with ((ver ++ [x00; x01]) ++ body ++ (wit ++ lock))
      by (repeat rewrite <- app_assoc; reflexivity).
    apply slice_app_exact; [|reflexivity].
    rewrite len_app. unfold len. rewrite Hv. reflexivity.
  - replace (ver ++ [x00; x01] ++ body ++ wit ++ lock)
      with ((ver ++ [x00; x01] ++ body ++ wit) ++ lock)
      by (repeat rewrite <- app_assoc; reflexivity).
    now apply last4_app.
Qed.

Lemma parse_tx_witness_layout_txid
    (sha256 : bytes -> bytes) (ver body wit lock rest : bytes) (t : tx_record) :
  List.length ver = 4 -> List.length lock = 4 ->
  parse_tx sha256 (ver ++ [x00; x01] ++ body ++ wit ++ lock ++ rest) = Parsed t ->
  offset_before_tx_witnesses t = (6 + len body)%N ->
  tx_size t = (6 + len body + len wit + 4)%N ->
  is_segwit t = true /\
  txid t = format_hash (double_sha256 sha256 (ver ++ body ++ lock)).
Proof.
  intros Hv Hl Hp Ho Hs.
  destruct (parse_tx_inv sha256 _ t Hp)
    as (f & Hf & _ & _ & _ & _ & Hseg & _ & _ & _ & _ & Hid & _).
  assert (Hw : is_segwit t = true).
  { rewrite Hseg, (parse_fields_is_segwit _ f Hf). apply bytes_eqb_eq.
    replace (ver ++ [x00; x01] ++ body ++ wit ++ lock ++ rest)
      with (ver ++ [x00; x01] ++ (body ++ wit ++ lock ++ rest))
      by reflexivity.
    apply slice_app_exact; [|reflexivity]. unfold len. now rewrite Hv. }
  split; [assumption|].
  rewrite Hid, Hw, Ho, Hs.
  now rewrite txid_data_of_witness_layout.
Qed.

(* ================================================================= *)
(** ** Text: lines read back from what was written *)

Lemma all_chars_app (p : ascii -> bool) (s1 s2 : string) :
  all_chars p (s1 ++ s2) = all_chars p s1 && all_chars p s2.
Proof.
  induction s1 as [|c r IH]; simpl; [reflexivity|].
  now rewrite IH, andb_assoc.
Qed.

Lemma no_breaks_split (s : string) :
  no_breaks s = no_newline s && no_cr s.
Proof.
  unfold no_breaks, no_newline, no_cr.
  induction s as [|c r IH]; simpl; [reflexivity|]. rewrite IH.
  destruct (negb (c =? newline)%char), (negb (c =? carriage_return)%char),
    (all_chars _ r), (all_chars _ r); reflexivity.
Qed.

Lemma universal_newlines_cons (c : ascii) (r : string) :
  universal_newlines (String c r) =
  if (c =? carriage_return)%char
  then String newline (universal_newlines (skip_newline r))
  else String c (universal_newlines r).
Proof.
  destruct r as [|c' r']; [reflexivity|].
  cbn [universal_newlines skip_newline]. change "013"%char with carriage_return.
  destruct (c =? carriage_return)%char; [|reflexivity].
  destruct (c' =? newline)%char; reflexivity.
Qed.

Lemma universal_newlines_no_cr (s : string) :
  no_cr (universal_newlines s) = true.
Proof.
  unfold no_cr.
  assert (H : forall n s, String.length s <= n ->
                all_chars (fun c => negb (c =? carriage_return)%char)
                          (universal_newlines s) = true).
  { clear s. induction n as [|n IH]; intros [|c r] Hl;
      try reflexivity; try (simpl in Hl; lia).
    rewrite universal_newlines_cons.
    destruct (Ascii.eqb_spec c carriage_return) as [->|Hc].
    - cbn [all_chars]. rewrite IH; [reflexivity|].
      simpl in Hl. destruct r as [|c' r']; simpl in *; [lia|].
      destruct (c' =? newline)%char; simpl; lia.
    - cbn [all_chars]. apply Ascii.eqb_neq in Hc. rewrite Hc.
      apply IH. simpl in Hl. lia. }
  apply (H (String.length s)). lia.
Qed.

Lemma universal_newlines_id (s : string) :
  no_cr s = true -> universal_newlines s = s.
Proof.
  unfold no_cr. induction s as [|c r IH]; [reflexivity|].
  rewrite universal_newlines_cons. cbn [all_chars].
  intros H. apply andb_true_iff in H as [Hc Hr].
  apply negb_true_iff in Hc. rewrite Hc. now rewrite IH.
Qed.

(** A line read is a stretch without newline, followed by a newline or by
    the end of the text. *)
Lemma readlines_text_shape (s : string) :
  Forall (fun y => exists b,
              no_newline b = true /\
              (y = b \/ y = (b ++ String newline EmptyString)%string) /\
              (no_cr s = true -> no_cr b = true))
         (readlines_text s).
Proof.
  induction s as [|c r IH]; simpl; [constructor|].
  destruct (Ascii.eqb_spec c newline) as [->|Hc].
  - constructor.
    + exists EmptyString. split; [reflexivity|]. split; [now right|reflexivity].
    + eapply Forall_impl; [|exact IH]. intros y (b & Hb & Hy & Hcr).
      exists b. split; [assumption|]. split; [assumption|].
      intros H. apply Hcr. unfold no_cr in *. simpl in H. exact H.
  - assert (Hcr' : no_cr (String c r) = true ->
                   negb (c =? carriage_return)%char = true /\ no_cr r = true).
    { unfold no_cr. simpl. intros H. now apply andb_true_iff in H. }
    destruct (readlines_text r) as [|l ls].
    + constructor; [|constructor].
      exists (String c EmptyString). unfold no_newline, no_cr. simpl.
      apply Ascii.eqb_neq in Hc. rewrite Hc. split; [reflexivity|].
      split; [now left|]. intros H. apply Hcr' in H as [-> _]. reflexivity.
    + inversion IH as [|? ? (b & Hb & Hy & Hcr) Hls]; subst.
      constructor.
      * exists (String c b). unfold no_newline, no_cr in *. simpl.
        apply Ascii.eqb_neq in Hc. rewrite Hc, Hb. split; [reflexivity|].
        split; [destruct Hy as [->| ->]; [now left|now right]|].
        intros H. apply Hcr' in H as [-> H]. simpl. exact (Hcr H).
      * eapply Forall_impl; [|exact Hls]. intros y (b' & Hb' & Hy' & Hcr'').
        exists b'. split; [assumption|]. split; [assumption|].
        intros H. apply Hcr''. now apply Hcr' in H.
Qed.

Lemma is_space_newline : is_space newline = true.
Proof. reflexivity. Qed.

Lemma lstrip_app_space (b : string) (c : ascii) :
  is_space c = true ->
  lstrip (b ++ String c EmptyString) =
  match lstrip b with
  | EmptyString => EmptyString
  | l => (l ++ String c EmptyString)%string
  end.
Proof.
  intros Hc. induction b as [|d b IH]; simpl.
  - now rewrite Hc.
  - destruct (is_space d); [exact IH|reflexivity].
Qed.

Lemma rstrip_app_space (b : string) (c : ascii) :
  is_space c = true -> rstrip (b ++ String c EmptyString) = rstrip b.
Proof.
  intros Hc. induction b as [|d b IH]; simpl.
  - now rewrite Hc.
  - now rewrite IH.
Qed.

Lemma strip_app_newline (b : string) :
  strip (b ++ String newline EmptyString) = strip b.
Proof.
  unfold strip. rewrite (lstrip_app_space b newline is_space_newline).
  destruct (lstrip b) as [|d l]; [reflexivity|].
  apply (rstrip_app_space (String d l) newline is_space_newline).
Qed.

Lemma all_chars_lstrip (p : ascii -> bool) (b : string) :
  all_chars p b = true -> all_chars p (lstrip b) = true.
Proof.
  induction b as [|c r IH]; simpl; [reflexivity|].
  intros H. destruct (is_space c); [|exact H].
  apply andb_true_iff in H as [_ H]. now apply IH.
Qed.

Lemma all_chars_rstrip (p : ascii -> bool) (b : string) :
  all_chars p b = true -> all_chars p (rstrip b) = true.
Proof.
  induction b as [|c r IH]; simpl; [reflexivity|].
  intros H. apply andb_true_iff in H as [Hc Hr]. specialize (IH Hr).
  destruct (rstrip r) as [|d r'].
  - destruct (is_space c); simpl; [reflexivity|]. now rewrite Hc.
  - cbn [all_chars] in IH |- *. now rewrite Hc.
Qed.

Lemma all_chars_strip (p : ascii -> bool) (b : string) :
  all_chars p b = true -> all_chars p (strip b) = true.
Proof.
  intros H. unfold strip. now apply all_chars_rstrip, all_chars_lstrip.
Qed.

Lemma lstrip_starts_clean (b : string) : starts_clean (lstrip b) = true.
Proof.
  induction b as [|c r IH]; simpl; [reflexivity|].
  destruct (is_space c) eqn:E; [exact IH|]. simpl. now rewrite E.
Qed.

Lemma lstrip_id (z : string) : starts_clean z = true -> lstrip z = z.
Proof.
  destruct z as [|c r]; simpl; [reflexivity|].
  intros H. apply negb_true_iff in H. now rewrite H.
Qed.

Lemma rstrip_starts_clean (z : string) :
  starts_clean z = true -> starts_clean (rstrip z) = true.
Proof.
  destruct z as [|c r]; simpl; [reflexivity|].
  intros H. destruct (rstrip r).
  - apply negb_true_iff in H. rewrite H. simpl. now rewrite H.
  - exact H.
Qed.

Lemma rstrip_idempotent (z : string) : rstrip (rstrip z) = rstrip z.
Proof.
  induction z as [|c r IH]; simpl; [reflexivity|].
  destruct (rstrip r) as [|d r0] eqn:E.
  - destruct (is_space c) eqn:Ec; simpl; [reflexivity|]. now rewrite Ec.
  - change (rstrip (String c (String d r0)))
      with (match rstrip (String d r0) with
            | EmptyString =>
                if is_space c then EmptyString else String c EmptyString
            | r' => String c r'
            end).
    now rewrite IH.
Qed.

Lemma strip_idempotent (b : string) : strip (strip b) = strip b.
Proof.
  unfold strip.
  rewrite (lstrip_id (rstrip (lstrip b))).
  - apply rstrip_idempotent.
  - apply rstrip_starts_clean, lstrip_starts_clean.
Qed.

Lemma readlines_text_line (b rest : string) :
  no_newline b = true ->
  readlines_text (b ++ String newline rest) =
  (b ++ String newline EmptyString)%string :: readlines_text rest.
Proof.
  unfold no_newline. induction b as [|c r IH]; simpl.
  - intros _. reflexivity.
  - intros H. apply andb_true_iff in H as [Hc Hr].
    apply negb_true_iff in Hc. rewrite Hc. now rewrite (IH Hr).
Qed.

Lemma readlines_text_last (b : string) :
  no_newline b = true -> b <> EmptyString -> readlines_text b = [b].
Proof.
  unfold no_newline. induction b as [|c r IH]; simpl; [congruence|].
  intros H _. apply andb_true_iff in H as [Hc Hr].
  apply negb_true_iff in Hc. rewrite Hc.
  destruct r as [|d r']; [reflexivity|].
  rewrite (IH Hr); [reflexivity|discriminate].
Qed.

Lemma join_lines_cons2 (x y : string) (r : list string) :
  join_lines (x :: y :: r) = (x ++ String newline (join_lines (y :: r)))%string.
Proof. reflexivity. Qed.

Lemma no_cr_join_lines (lines : list string) :
  Forall clean_line lines -> no_cr (join_lines lines) = true.
Proof.
  induction lines as [|x [|y r] IH]; intros H.
  - reflexivity.
  - inversion H as [|? ? (_ & _ & Hb) _]; subst.
    change (join_lines [x]) with x.
    rewrite no_breaks_split in Hb. now apply andb_true_iff in Hb.
  - inversion H as [|? ? (_ & _ & Hb) Hr]; subst.
    rewrite join_lines_cons2. unfold no_cr. rewrite all_chars_app.
    rewrite no_breaks_split in Hb. apply andb_true_iff in Hb as [_ Hb].
    unfold no_cr in Hb. rewrite Hb. cbn [all_chars andb].
    change (negb (newline =? carriage_return)%char) with true.
    exact (IH Hr).
Qed.

(** Reading back what was written gives the lines written. *)
Lemma stored_records_join_lines (lines : list string) :
  Forall clean_line lines -> stored_records (join_lines lines) = lines.
Proof.
  intros H. unfold stored_records.
  rewrite (universal_newlines_id _ (no_cr_join_lines lines H)).
  induction lines as [|x [|y r] IH].
  - reflexivity.
  - inversion H as [|? ? (Hne & Hs & Hb) _]; subst.
    change (join_lines [x]) with x.
    rewrite no_breaks_split in Hb. apply andb_true_iff in Hb as [Hb _].
    rewrite (readlines_text_last x Hb Hne). simpl. now rewrite Hs.
  - inversion H as [|? ? (Hne & Hs & Hb) Hr]; subst.
    rewrite join_lines_cons2.
    rewrite no_breaks_split in Hb. apply andb_true_iff in Hb as [Hb _].
    rewrite (readlines_text_line x _ Hb). cbn [map].
    rewrite strip_app_newline, Hs. f_equal. exact (IH Hr).
Qed.

Lemma stored_records_clean (content x : string) :
  In x (stored_records content) -> strip x = x /\ no_breaks x = true.
Proof.
  unfold stored_records. rewrite in_map_iff. intros (y & <- & Hy).
  pose proof (readlines_text_shape (universal_newlines content)) as Hs.
  rewrite Forall_forall in Hs.
  destruct (Hs y Hy) as (b & Hnl & Hyb & Hcr).
  specialize (Hcr (universal_newlines_no_cr content)).
  assert (E : strip y = strip b).
  { destruct Hyb as [->| ->]; [reflexivity|apply strip_app_newline]. }
  rewrite E. split; [apply strip_idempotent|].
  apply all_chars_strip. fold (no_breaks b).
  now rewrite no_breaks_split, Hnl, Hcr.
Qed.

Lemma height_key_nonempty (x k : string) :
  height_key x = Ok k -> x <> EmptyString.
Proof. intros H ->. discriminate. Qed.

(* ================================================================= *)
(** ** [sorted] *)

Lemma insert_stable_perm (x : string * string) (l : list (string * string)) :
  Permutation (insert_stable x l) (x :: l).
Proof.
  induction l as [|y r IH]; simpl; [reflexivity|].
  destruct (String.ltb (fst y) (fst x)); [|reflexivity].
  rewrite IH. apply perm_swap.
Qed.

Lemma sort_stable_perm (l : list (string * string)) :
  Permutation (sort_stable l) l.
Proof.
  induction l as [|x r IH]; simpl; [reflexivity|].
  rewrite insert_stable_perm. now constructor.
Qed.

Lemma ltb_asym (a b : string) :
  String.ltb a b = true -> String.ltb b a = false.
Proof.
  unfold String.ltb. rewrite (String.compare_antisym b a).
  destruct (String.compare a b); simpl; congruence.
Qed.

Lemma insert_stable_sorted (x : string * string) (l : list (string * string)) :
  Sorted keys_in_order l -> Sorted keys_in_order (insert_stable x l).
Proof.
  induction l as [|y r IH]; simpl; intros Hs.
  - repeat constructor.
  - destruct (String.ltb (fst y) (fst x)) eqn:E.
    + inversion Hs as [|? ? Hr Hh]; subst. constructor; [now apply IH|].
      destruct r as [|z r']; simpl.
      * constructor. unfold keys_in_order. now apply ltb_asym.
      * inversion Hh; subst.
        destruct (String.ltb (fst z) (fst x)); constructor;
          [assumption|]. unfold keys_in_order. now apply ltb_asym.
    + constructor; [assumption|]. constructor. exact E.
Qed.

Lemma sort_stable_sorted (l : list (string * string)) :
  Sorted keys_in_order (sort_stable l).
Proof.
  induction l as [|x r IH]; simpl; [constructor|].
  now apply insert_stable_sorted.
Qed.

Lemma decorate_ok (key : string -> result string) (l : list string)
    (kl : list (string * string)) :
  decorate key l = Ok kl ->
  map snd kl = l /\ Forall (fun p => key (snd p) = Ok (fst p)) kl.
Proof.
  revert kl; induction l as [|x r IH]; simpl; intros kl H.
  - inversion H; subst. split; [reflexivity|constructor].
  - destruct (key x) as [k|e] eqn:Ek; [|discriminate]. cbn [bind] in H.
    destruct (decorate key r) as [kr|e]; [|discriminate]. cbn [bind] in H.
    inversion H; subst. destruct (IH kr eq_refl) as [Hm Hf].
    split; [simpl; now rewrite Hm|]. constructor; assumption.
Qed.

Lemma decorate_total (key : string -> result string) (l : list string) :
  (forall x, In x l -> exists k, key x = Ok k) ->
  exists kl, decorate key l = Ok kl.
Proof.
  induction l as [|x r IH]; simpl; intros H; [now eexists|].
  destruct (H x (or_introl eq_refl)) as [k ->].
  destruct IH as [kr ->]; [intros y Hy; apply H; now right|].
  now eexists.
Qed.


(** What [sorted] returns: the same elements, each with a key, adjacent
    keys in order. *)
Lemma sorted_spec (l out : list string) (key : string -> result string) :
  sorted l key = Ok out ->
  Permutation out l /\
  (forall x, In x l -> exists k, key x = Ok k) /\
  exists kl, map snd kl = out /\
             Forall (fun p => key (snd p) = Ok (fst p)) kl /\
             Sorted keys_in_order kl.
Proof.
  unfold sorted. intros H.
  destruct (decorate key l) as [kl|e] eqn:Ed; [|discriminate].
  cbn [bind] in H. inversion H; subst.
  destruct (decorate_ok key l kl Ed) as [Hm Hf].
  pose proof (sort_stable_perm kl) as Hp.
  split; [rewrite <- Hm; now apply Permutation_map|].
  split.
  - intros x Hx. rewrite <- Hm in Hx. apply in_map_iff in Hx as (p & <- & Hp').
    rewrite Forall_forall in Hf. exists (fst p). now apply Hf.
  - exists (sort_stable kl). split; [reflexivity|].
    split; [|apply sort_stable_sorted].
    rewrite Forall_forall in *. intros p Hin. apply Hf.
    now apply (Permutation_in _ Hp).
Qed.

(* ================================================================= *)
(** ** The merge into the candidate file *)

Section Merge.

Variable set_iter : list string -> list string.

(** A set holds each element once, and nothing else. *)
Hypothesis set_iter_NoDup : forall l, NoDup (set_iter l).
Hypothesis set_iter_In : forall l x, In x (set_iter l) <-> In x l.

Lemma merged_lines_spec (lines_read found out : list string) :
  merged_lines set_iter lines_read found = Ok out ->
  NoDup out /\
  (forall x, In x out <-> In x (map strip lines_read) \/ In x found) /\
  (forall x, In x out -> exists k, height_key x = Ok k).
Proof.
  unfold merged_lines. intros H.
  destruct (sorted_spec _ _ _ H) as (Hp & Hk & _).
  split; [|split].
  - apply (Permutation_NoDup (Permutation_sym Hp)), set_iter_NoDup.
  - intros x. split.
    + intros Hx. apply (Permutation_in _ Hp) in Hx.
      apply (proj1 (set_iter_In _ _)) in Hx. now apply in_app_iff in Hx.
    + intros Hx. apply in_app_iff in Hx.
      apply (proj2 (set_iter_In _ _)) in Hx.
      now apply (Permutation_in _ (Permutation_sym Hp)).
  - intros x Hx. apply Hk. now apply (Permutation_in _ Hp).
Qed.

Lemma merged_lines_total (lines_read found : list string) :
  (forall x, In x (map strip lines_read) \/ In x found ->
             exists k, height_key x = Ok k) ->
  exists out, merged_lines set_iter lines_read found = Ok out.
Proof.
  intros H. unfold merged_lines, sorted.
  destruct (decorate_total height_key
              (set_iter (map strip lines_read ++ found))) as [kl ->].
  - intros x Hx. apply H. apply (proj1 (set_iter_In _ _)) in Hx.
    now apply in_app_iff in Hx.
  - now eexists.
Qed.

Lemma write_candidates_inv (content content' : string) (found : list string) :
  write_candidates set_iter content found = Ok content' ->
  exists out,
    merged_lines set_iter (readlines_text (universal_newlines content)) found
    = Ok out /\ content' = join_lines out.
Proof.
  unfold write_candidates. intros H.
  destruct (merged_lines _ _ _) as [out|e]; [|discriminate].
  cbn [bind] in H. inversion H; subst. now exists out.
Qed.

(** After the write, the file holds the lines it held and the results,
    each once. *)
Lemma write_candidates_spec (content content' : string) (found : list string) :
  Forall clean_line found ->
  write_candidates set_iter content found = Ok content' ->
  NoDup (stored_records content') /\
  (forall x, In x (stored_records content') <->
             In x (stored_records content) \/ In x found) /\
  (forall x, In x (stored_records content') ->
             exists k, height_key x = Ok k).
Proof.
  intros Hf H. destruct (write_candidates_inv _ _ _ H) as (out & Hm & ->).
  destruct (merged_lines_spec _ _ _ Hm) as (Hnd & Hin & Hk).
  assert (Hc : Forall clean_line out).
  { rewrite Forall_forall. intros x Hx.
    destruct (Hk x Hx) as [k Hkx].
    apply Hin in Hx as [Hx|Hx].
    - destruct (stored_records_clean content x Hx) as [Hs Hb].
      split; [exact (height_key_nonempty x k Hkx)|now split].
    - rewrite Forall_forall in Hf. now apply Hf. }
  rewrite (stored_records_join_lines out Hc).
  split; [assumption|]. split; assumption.
Qed.

Lemma write_candidates_total (content : string) (found : list string) :
  (forall x, In x (stored_records content) \/ In x found ->
             exists k, height_key x = Ok k) ->
  exists content', write_candidates set_iter content found = Ok content'.
Proof.
  intros H. unfold write_candidates.
  destruct (merged_lines_total
              (readlines_text (universal_newlines content)) found H)
    as [out ->].
  now eexists.
Qed.


(** The set of two distinct lines is iterated in one of two orders. *)
Lemma set_iter_two (l : list string) (a b : string) :
  a <> b -> (forall x, In x l <-> x = a \/ x = b) ->
  set_iter l = [a; b] \/ set_iter l = [b; a].
Proof.
  intros Hab Hl.
  assert (Hp : Permutation [a; b] (set_iter l)).
  { apply NoDup_Permutation.
    - constructor; [intros [E|[]]; now apply Hab|].
      constructor; [intros []|constructor].
    - apply set_iter_NoDup.
    - intros x. rewrite set_iter_In, Hl. simpl. intuition congruence. }
  now apply Permutation_length_2_inv in Hp.
Qed.



End Merge.

(* ================================================================= *)
(** ** A block that is not decoded to its end *)

Lemma scan_app (sha256 : bytes -> bytes) (fetch_block : Z -> option bytes)
    (pre post : list Z) (found : list string) :
  scan sha256 fetch_block (pre ++ post) found =
  match scan sha256 fetch_block pre found with
  | inl o => inl o
  | inr found' => scan sha256 fetch_block post found'
  end.
Proof.
  revert found; induction pre as [|h pre IH]; intros found; simpl.
  - reflexivity.
  - destruct (fetch_block h) as [block|]; [|reflexivity].
    destruct (scan_block sha256 h block found) as [o|found']; [reflexivity|].
    apply IH.
Qed.

Lemma scan_block_incomplete (sha256 : bytes -> bytes) (height : Z)
    (block : bytes) (found : list string) (n_txs offset : N) :
  decode_varint (slice_from block 80) = Ok (n_txs, offset) ->
  processed_txs (block_loop sha256 height block n_txs offset found) <> n_txs ->
  scan_block sha256 height block found = inl (Exited FAILURE).
Proof.
  intros Hd Hp. unfold scan_block. rewrite Hd.
  fold (block_loop sha256 height block n_txs offset found).
  apply N.eqb_neq in Hp. now rewrite Hp.
Qed.

(** A run that does not return leaves the file as it was. *)
Lemma main_writes_only_on_return
    (sha256 : bytes -> bytes) (fetch_block : Z -> option bytes)
    (set_iter : list string -> list string)
    (args_start args_end : Z) (info : chain_info) (content : string) :
  fst (main sha256 fetch_block set_iter args_start args_end info content)
  <> Returned ->
  snd (main sha256 fetch_block set_iter args_start args_end info content)
  = content.
Proof.
  unfold main.
  destruct (pruned info && _); [reflexivity|].
  destruct (scan _ _ _ _) as [o|found]; [reflexivity|].
  destruct (write_candidates _ _ _) as [c|e]; [|reflexivity].
  simpl. congruence.
Qed.


(* ================================================================= *)
(** ** The lines a scan finds *)

Lemma all_chars_impl (p q : ascii -> bool) (s : string) :
  (forall c, p c = true -> q c = true) ->
  all_chars p s = true -> all_chars q s = true.
Proof.
  intros Hpq. induction s as [|c r IH]; simpl; [reflexivity|].
  intros H. apply andb_true_iff in H as [Hc Hr].
  now rewrite (Hpq c Hc), (IH Hr).
Qed.

Lemma rstrip_id (s : string) :
  all_chars (fun c => negb (is_space c)) s = true -> rstrip s = s.
Proof.
  induction s as [|c r IH]; simpl; [reflexivity|].
  intros H. apply andb_true_iff in H as [Hc Hr]. rewrite (IH Hr).
  apply negb_true_iff in Hc. rewrite Hc. now destruct r.
Qed.

(** A text without white space is a clean line, unless it is empty. *)
Lemma clean_line_no_space (s : string) :
  s <> EmptyString ->
  all_chars (fun c => negb (is_space c)) s = true -> clean_line s.
Proof.
  intros Hne H. split; [assumption|]. split.
  - unfold strip. rewrite lstrip_id.
    + now apply rstrip_id.
    + destruct s as [|c r]; [reflexivity|]. simpl in *.
      now apply andb_true_iff in H as [H _].
  - unfold no_breaks. revert H. apply all_chars_impl.
    intros c Hc. apply negb_true_iff in Hc.
    destruct (Ascii.eqb_spec c newline) as [->|_]; [discriminate|].
    destruct (Ascii.eqb_spec c carriage_return) as [->|_]; [discriminate|].
    reflexivity.
Qed.

Lemma hex_plain (data : bytes) : all_chars plain_char (hex data) = true.
Proof.
  induction data as [|b r IH]; [reflexivity|].
  cbn [hex all_chars]. rewrite IH.
  destruct b; reflexivity.
Qed.

Lemma string_of_uint_plain (d : Decimal.uint) :
  all_chars plain_char (NilEmpty.string_of_uint d) = true.
Proof. induction d; simpl; [reflexivity|assumption ..]. Qed.

Lemma str_of_uint_plain (d : Decimal.uint) :
  all_chars plain_char (NilZero.string_of_uint d) = true.
Proof.
  destruct d; try reflexivity; apply (string_of_uint_plain (_ d)).
Qed.

Lemma str_of_N_plain (n : N) : all_chars plain_char (str_of_N n) = true.
Proof. apply str_of_uint_plain. Qed.

Lemma str_of_Z_plain (z : Z) : all_chars plain_char (str_of_Z z) = true.
Proof.
  unfold str_of_Z, NilZero.string_of_int.
  destruct (Z.to_int z); [apply str_of_uint_plain|].
  cbn [all_chars]. now rewrite str_of_uint_plain.
Qed.

Lemma plain_no_space (s : string) :
  all_chars plain_char s = true ->
  all_chars (fun c => negb (is_space c)) s = true.
Proof.
  apply all_chars_impl. intros c H.
  now apply andb_true_iff in H as [H _].
Qed.

Lemma plain_no_comma (s : string) :
  all_chars plain_char s = true ->
  all_chars (fun c => negb (c =? comma)%char) s = true.
Proof.
  apply all_chars_impl. intros c H.
  now apply andb_true_iff in H as [_ H].
Qed.

Lemma candidate_line_clean (hash_ : bytes) (height : Z) (i : N) :
  clean_line (candidate_line (format_hash hash_) height i).
Proof.
  apply clean_line_no_space.
  - unfold candidate_line. destruct (format_hash hash_); discriminate.
  - unfold candidate_line, format_hash.
    repeat rewrite all_chars_app.
    rewrite (plain_no_space _ (hex_plain _)),
      (plain_no_space _ (str_of_Z_plain _)),
      (plain_no_space _ (str_of_N_plain _)).
    reflexivity.
Qed.

(** Splitting after a first field without separator. *)
Lemma split_fields_app (sep : ascii) (a r : string) :
  all_chars (fun c => negb (c =? sep)%char) a = true ->
  split_fields sep (a ++ String sep r) = (a, split sep r).
Proof.
  induction a as [|c a IH]; simpl.
  - intros _. rewrite Ascii.eqb_refl. unfold split.
    now destruct (split_fields sep r).
  - intros H. apply andb_true_iff in H as [Hc Ha]. rewrite (IH Ha).
    apply negb_true_iff in Hc. now rewrite Hc.
Qed.

(** The key of a line found by the scan is its height, in decimal. *)
Lemma height_key_candidate_line (hash_ : bytes) (height : Z) (i : N) :
  height_key (candidate_line (format_hash hash_) height i)
  = Ok (str_of_Z height).
Proof.
  unfold height_key, candidate_line, split, format_hash.
  change ((hex (rev hash_) ++ "," ++ str_of_Z height ++ "," ++ str_of_N i)%string)
    with ((hex (rev hash_)
           ++ String comma (str_of_Z height ++ String comma (str_of_N i)))%string).
  rewrite (split_fields_app comma _ _ (plain_no_comma _ (hex_plain _))).
  unfold split.
  rewrite (split_fields_app comma _ _ (plain_no_comma _ (str_of_Z_plain _))).
  reflexivity.
Qed.

Section ScanResults.

Variable sha256 : bytes -> bytes.
Variable fetch_block : Z -> option bytes.

Lemma try_widths_txid (txs_data : bytes) (offset : N) (js : list N)
    (last_tx_size : N) (t : tx_record) (size : N) :
  try_widths sha256 txs_data offset js last_tx_size = (Some t, size) ->
  exists hash_, txid t = format_hash hash_.
Proof.
  revert last_tx_size; induction js as [|j js IH]; intros last_tx_size; simpl.
  - discriminate.
  - destruct (parse_tx sha256 _) as [t'|e [s|]] eqn:Ep.
    + intros H. inversion H; subst.
      destruct (parse_tx_inv sha256 _ t Ep)
        as (f & _ & _ & _ & _ & _ & _ & _ & _ & _ & _ & Hid & _).
      eexists. exact Hid.
    + apply IH.
    + apply IH.
Qed.

Lemma tx_turn_prepend (height : Z) (txs_data : bytes) (found : list string)
    (st : block_state) :
  tx_turn sha256 height txs_data (prepend found st)
  = prepend found (tx_turn sha256 height txs_data st).
Proof.
  unfold tx_turn, prepend. cbn [i block_offset processed_txs results].
  destruct (try_widths sha256 txs_data (block_offset st) range_0_20 0)
    as [[t|] size]; [|reflexivity].
  destruct (0 <? most_common_value t)%Z; cbn; [|reflexivity].
  now rewrite app_assoc.
Qed.

Lemma block_loop_prepend (height : Z) (block : bytes) (n_txs offset : N)
    (found : list string) :
  block_loop sha256 height block n_txs offset found
  = prepend found (block_loop sha256 height block n_txs offset []).
Proof.
  unfold block_loop.
  rewrite (N.iter_swap_gen _ _ (prepend found)
             (tx_turn sha256 height (slice_from block 80))
             (tx_turn sha256 height (slice_from block 80))).
  - unfold prepend. cbn. now rewrite app_nil_r.
  - intros st. symmetry. apply tx_turn_prepend.
Qed.

(** The lines a block adds do not depend on the lines found before. *)
Lemma scan_block_prepend (height : Z) (block : bytes) (found : list string) :
  scan_block sha256 height block found =
  match scan_block sha256 height block [] with
  | inl o => inl o
  | inr r => inr (found ++ r)
  end.
Proof.
  unfold scan_block.
  destruct (decode_varint (slice_from block 80)) as [[n_txs offset]|e];
    [|reflexivity].
  fold (block_loop sha256 height block n_txs offset found).
  fold (block_loop sha256 height block n_txs offset []).
  rewrite block_loop_prepend. cbn [prepend processed_txs results].
  now destruct (negb _).
Qed.

Lemma scan_prepend (heights : list Z) (found : list string) :
  scan sha256 fetch_block heights found =
  match scan sha256 fetch_block heights [] with
  | inl o => inl o
  | inr r => inr (found ++ r)
  end.
Proof.
  revert found; induction heights as [|h rest IH]; intros found; simpl.
  - now rewrite app_nil_r.
  - destruct (fetch_block h) as [block|]; [|reflexivity].
    rewrite (scan_block_prepend h block found).
    destruct (scan_block sha256 h block []) as [o|r]; [reflexivity|].
    rewrite (IH (found ++ r)), (IH r).
    destruct (scan sha256 fetch_block rest []) as [o|r']; [reflexivity|].
    now rewrite app_assoc.
Qed.

(** A scan that goes through has found, for each of its heights, the lines
    of the block at that height. *)
Lemma scan_found (heights : list Z) (found : list string) :
  scan sha256 fetch_block heights [] = inr found ->
  (forall h, In h heights ->
     exists block r, fetch_block h = Some block /\
                     scan_block sha256 h block [] = inr r) /\
  (forall x, In x found <->
     exists h block r, In h heights /\ fetch_block h = Some block /\
                       scan_block sha256 h block [] = inr r /\ In x r).
Proof.
  revert found; induction heights as [|h rest IH]; intros found; simpl.
  - intros H. inversion H; subst. split; [intros h []|].
    intros x. split; [intros []|]. now intros (h & _ & _ & [] & _).
  - destruct (fetch_block h) as [block|] eqn:Ef; [|discriminate].
    destruct (scan_block sha256 h block []) as [o|r] eqn:Eb; [discriminate|].
    rewrite (scan_prepend rest r).
    destruct (scan sha256 fetch_block rest []) as [o|r'] eqn:Er;
      [discriminate|].
    intros H. inversion H; subst. destruct (IH r' eq_refl) as [IH1 IH2].
    split.
    + intros h' [<-|Hh']; [now exists block, r|now apply IH1].
    + intros x. rewrite in_app_iff, IH2. split.
      * intros [Hx|(h' & b' & r0 & Hh' & Hf' & Hb' & Hx)].
        -- exists h, block, r. repeat split; auto.
        -- exists h', b', r0. repeat split; auto.
      * intros (h' & b' & r0 & [<-|Hh'] & Hf' & Hb' & Hx).
        -- left. rewrite Ef in Hf'. inversion Hf'; subst.
           rewrite Eb in Hb'. now inversion Hb'; subst.
        -- right. now exists h', b', r0.
Qed.

Lemma tx_turn_clean (height : Z) (txs_data : bytes) (st : block_state) :
  Forall clean_line (results st) ->
  Forall clean_line (results (tx_turn sha256 height txs_data st)).
Proof.
  intros H. unfold tx_turn.
  destruct (try_widths sha256 txs_data (block_offset st) range_0_20 0)
    as [[t|] size] eqn:Et; [|exact H].
  destruct (0 <? most_common_value t)%Z; cbn; [|exact H].
  apply Forall_app. split; [exact H|]. constructor; [|constructor].
  destruct (try_widths_txid _ _ _ _ _ _ Et) as [hash_ ->].
  apply candidate_line_clean.
Qed.

Lemma scan_block_clean (height : Z) (block : bytes) (r : list string) :
  scan_block sha256 height block [] = inr r -> Forall clean_line r.
Proof.
  unfold scan_block.
  destruct (decode_varint (slice_from block 80)) as [[n_txs offset]|e];
    [|discriminate].
  destruct (negb _); [discriminate|]. intros H. inversion H; subst.
  apply (N.iter_invariant n_txs _ (tx_turn sha256 height (slice_from block 80))
           (fun st => Forall clean_line (results st))).
  - intros st. apply tx_turn_clean.
  - constructor.
Qed.

(** Every line a scan finds is a clean line. *)
Lemma scan_clean (heights : list Z) (found : list string) :
  scan sha256 fetch_block heights [] = inr found -> Forall clean_line found.
Proof.
  intros H. destruct (scan_found heights found H) as [_ Hin].
  rewrite Forall_forall. intros x Hx.
  apply Hin in Hx as (h & block & r & _ & _ & Hb & Hx).
  pose proof (scan_block_clean h block r Hb) as Hc.
  rewrite Forall_forall in Hc. now apply Hc.
Qed.

(** A scan of heights that were all scanned before finds nothing new. *)
Lemma scan_subrange (heights heights' : list Z) (found found' : list string) :
  scan sha256 fetch_block heights [] = inr found ->
  scan sha256 fetch_block heights' [] = inr found' ->
  (forall h, In h heights' -> In h heights) ->
  forall x, In x found' -> In x found.
Proof.
  intros H H' Hsub x Hx.
  destruct (scan_found heights found H) as [_ Hin].
  destruct (scan_found heights' found' H') as [_ Hin'].
  apply Hin' in Hx as (h & block & r & Hh & Hf & Hb & Hx).
  apply Hin. exists h, block, r. repeat split; auto.
Qed.

End ScanResults.

(* ================================================================= *)
(** ** Scanning again *)

(** A scan that stops does so with [sys.exit(FAILURE)] or on an exception. *)
Lemma scan_stops_on_failure
    (sha256 : bytes -> bytes) (fetch_block : Z -> option bytes)
    (heights : list Z) (found : list string) (o : outcome) :
  scan sha256 fetch_block heights found = inl o ->
  o = Exited FAILURE \/ exists e, o = Uncaught e.
Proof.
  revert found; induction heights as [|h rest IH]; intros found; simpl.
  - discriminate.
  - destruct (fetch_block h) as [block|]; [|intros H; inversion H; now left].
    destruct (scan_block sha256 h block found) as [o'|found'] eqn:Eb;
      [|apply IH].
    unfold scan_block in Eb.
    destruct (decode_varint _) as [[n_txs offset]|e].
    + destruct (negb _); [|discriminate].
      intros H. inversion H; subst. inversion Eb. now left.
    + intros H. inversion H; subst. inversion Eb. right. now exists e.
Qed.

Lemma scan_never_returns
    (sha256 : bytes -> bytes) (fetch_block : Z -> option bytes)
    (heights : list Z) (found : list string) :
  scan sha256 fetch_block heights found <> inl Returned.
Proof.
  intros H. apply scan_stops_on_failure in H as [H|[e H]]; discriminate.
Qed.

Lemma main_returned_inv
    (sha256 : bytes -> bytes) (fetch_block : Z -> option bytes)
    (set_iter : list string -> list string)
    (args_start args_end : Z) (info : chain_info) (content content' : string) :
  main sha256 fetch_block set_iter args_start args_end info content
  = (Returned, content') ->
  exists found,
    scan sha256 fetch_block (scanned_heights args_start args_end info) []
    = inr found /\
    write_candidates set_iter content found = Ok content'.
Proof.
  unfold main, scanned_heights.
  destruct (pruned info && _); [discriminate|].
  destruct (scan _ _ _ _) as [o|found] eqn:Es.
  - intros H. inversion H; subst.
    now destruct (scan_never_returns _ _ _ _ Es).
  - destruct (write_candidates set_iter content found) as [c|e] eqn:Ew;
      [|discriminate].
    intros H. inversion H; subst. now exists found.
Qed.

(** Two runs on the same chain, the second one over heights the first one
    scanned: the second run leaves in the file the lines the first one
    left. *)
Lemma rescan_keeps_records
    (sha256 : bytes -> bytes) (fetch_block : Z -> option bytes)
    (set_iter : list string -> list string)
    (start1 end1 start2 end2 : Z) (info1 info2 : chain_info)
    (content0 content1 content2 : string) :
  (forall l, NoDup (set_iter l)) ->
  (forall l x, In x (set_iter l) <-> In x l) ->
  main sha256 fetch_block set_iter start1 end1 info1 content0
  = (Returned, content1) ->
  main sha256 fetch_block set_iter start2 end2 info2 content1
  = (Returned, content2) ->
  (forall h, In h (scanned_heights start2 end2 info2) ->
             In h (scanned_heights start1 end1 info1)) ->
  NoDup (stored_records content2) /\
  (forall x, In x (stored_records content2) <-> In x (stored_records content1)).
Proof.
  intros Hnd Hin H1 H2 Hsub.
  destruct (main_returned_inv _ _ _ _ _ _ _ _ H1) as (found1 & Hs1 & Hw1).
  destruct (main_returned_inv _ _ _ _ _ _ _ _ H2) as (found2 & Hs2 & Hw2).
  pose proof (scan_clean sha256 fetch_block _ _ Hs1) as Hc1.
  pose proof (scan_clean sha256 fetch_block _ _ Hs2) as Hc2.
  destruct (write_candidates_spec set_iter Hnd Hin _ _ _ Hc1 Hw1)
    as (_ & Hin1 & _).
  destruct (write_candidates_spec set_iter Hnd Hin _ _ _ Hc2 Hw2)
    as (Hnd2 & Hin2 & _).
  split; [assumption|].
  intros x. rewrite Hin2. split; [|auto].
  intros [Hx|Hx]; [assumption|].
  apply Hin1. right.
  exact (scan_subrange sha256 fetch_block _ _ _ _ Hs1 Hs2 Hsub x Hx).
Qed.


(* ================================================================= *)
(** ** The end of a run on an incomplete block *)

(** C9.  Take a height of the scan whose block has a number of decoded
    transactions other than the count it declares.  Then [main] does not
    return: it ends with [sys.exit] and a status other than [SUCCESS], or on
    an exception; and the candidate file is what it was.  When the heights before
    that one are scanned to their end, the run ends there, with [sys.exit]
    and the status [FAILURE] (1).  And whatever the blocks, a run that does
    not return leaves the file as it was. *)
Theorem incomplete_block_aborts
    (sha256 : bytes -> bytes) (fetch_block : Z -> option bytes)
    (set_iter : list string -> list string)
    (args_start args_end : Z) (info : chain_info) (content : string)
    (height : Z) (block : bytes) (n_txs offset : N) :
  In height (scanned_heights args_start args_end info) ->
  fetch_block height = Some block ->
  decode_varint (slice_from block 80) = Ok (n_txs, offset) ->
  processed_txs (block_loop sha256 height block n_txs offset []) <> n_txs ->
  (exists o,
      main sha256 fetch_block set_iter args_start args_end info content
      = (o, content) /\
      (o = Exited FAILURE \/ o = Exited ARGERROR \/ exists e, o = Uncaught e)) /\
  (forall pre post found,
      pruned info
      && (start_block_of args_start (end_block_of args_end info)
          <? pruneheight info)%Z = false ->
      scanned_heights args_start args_end info = pre ++ height :: post ->
      scan sha256 fetch_block pre [] = inr found ->
      main sha256 fetch_block set_iter args_start args_end info content
      = (Exited FAILURE, content)) /\
  ExitStatus_value FAILURE = 1%Z /\
  (forall args_start' args_end' info' content',
      fst (main sha256 fetch_block set_iter args_start' args_end' info' content')
      <> Returned ->
      snd (main sha256 fetch_block set_iter args_start' args_end' info' content')
      = content').
Proof.
  intros Hh Hf Hd Hp.
  assert (Hb : forall found,
             scan_block sha256 height block found = inl (Exited FAILURE)).
  { intros found.
    apply (scan_block_incomplete sha256 height block found n_txs offset Hd).
    rewrite block_loop_prepend. exact Hp. }
  split; [|split; [|split; [reflexivity|]]].
  - unfold main. fold (scanned_heights args_start args_end info).
    destruct (pruned info && _); [exists (Exited ARGERROR); split; auto|].
    destruct (scan sha256 fetch_block (scanned_heights args_start args_end info) [])
      as [o|found] eqn:Es.
    + exists o. split; [reflexivity|].
      destruct (scan_stops_on_failure _ _ _ _ _ Es) as [->|He]; auto.
    + destruct (scan_found sha256 fetch_block _ _ Es) as [Hall _].
      destruct (Hall height Hh) as (block' & r & Hf' & Hr).
      rewrite Hf in Hf'. inversion Hf'; subst. rewrite Hb in Hr. discriminate.
  - intros pre post found Hpr Hr Hpre.
    unfold main. fold (scanned_heights args_start args_end info).
    rewrite Hpr, Hr, scan_app, Hpre. simpl. now rewrite Hf, Hb.
  - intros. now apply main_writes_only_on_return.
Qed.

Lemma incomplete_block_aborts_witness :
  processed_txs (block_loop toy_digest 700000 short_block 10 1 []) = 9%N /\
  main toy_digest short_chain (nodup string_dec) 700000 700000
       two_height_info scenario_store
  = (Exited FAILURE, scenario_store).
Proof.
  split; [vm_compute; reflexivity|].
  destruct (incomplete_block_aborts toy_digest short_chain (nodup string_dec)
              700000 700000 two_height_info scenario_store
              700000 short_block 10 1) as (_ & H & _).
  - now left.
  - reflexivity.
  - reflexivity.
  - vm_compute. discriminate.
  - apply (H [] [] []); reflexivity.
Defined.

(* ================================================================= *)
(** ** A decoding pass reads the bytes of the transaction only *)

Lemma slice_to_slice_to {A : Type} (l : list A) (a b : N) :
  slice_to (slice_to l a) b = slice_to l (N.min a b).
Proof.
  repeat rewrite slice_to_firstn. rewrite firstn_firstn. f_equal. lia.
Qed.

Lemma slice_from_slice_from {A : Type} (l : list A) (a b : N) :
  slice_from (slice_from l a) b = slice_from l (a + b).
Proof.
  repeat rewrite slice_from_skipn. rewrite skipn_skipn. f_equal. lia.
Qed.

Lemma slice_of_slice_to {A : Type} (l : list A) (a b : N) :
  slice l a b = slice_from (slice_to l b) a.
Proof.
  rewrite slice_firstn_skipn, slice_from_skipn, slice_to_firstn.
  rewrite skipn_firstn_comm. f_equal. lia.
Qed.

Lemma slice_to_all {A : Type} (l : list A) (b : N) :
  (len l <= b)%N -> slice_to l b = l.
Proof.
  intros H. rewrite slice_to_firstn. apply firstn_all2. unfold len in H. lia.
Qed.

Lemma agree_le (tx tx' : bytes) (a b : N) :
  (a <= b)%N -> agree tx tx' b -> agree tx tx' a.
Proof.
  unfold agree. intros Hab H.
  replace a with (N.min b a) by lia.
  repeat rewrite <- slice_to_slice_to. now rewrite H.
Qed.

Lemma agree_slice (tx tx' : bytes) (lo hi o : N) :
  (hi <= o)%N -> agree tx tx' o -> slice tx lo hi = slice tx' lo hi.
Proof.
  intros Hh H. apply (agree_le tx tx' hi o Hh) in H.
  repeat rewrite slice_of_slice_to. now rewrite H.
Qed.

Lemma len_cons {A : Type} (x : A) (l : list A) : len (x :: l) = (len l + 1)%N.
Proof. unfold len. cbn [List.length]. lia. Qed.

(** [decode_varint] looks at the bytes it consumes, and there is at least
    one. *)
Lemma decode_varint_local (d d' : bytes) (v vs : N) :
  decode_varint d = Ok (v, vs) ->
  (1 <= vs)%N /\ (vs <= len d)%N /\
  (slice_to d' vs = slice_to d vs -> decode_varint d' = Ok (v, vs)).
Proof.
  destruct d as [|b rest]; [discriminate|].
  pose proof (decode_varint_cases (b :: rest)) as Hspec. cbv zeta in Hspec.
  destruct Hspec as (H0 & H1 & H2 & H3 & Hcases).
  assert (Hhead : forall n, (1 <= n)%N ->
            slice_to d' n = slice_to (b :: rest) n ->
            exists rest', d' = b :: rest' /\
                          slice_to rest' (n - 1) = slice_to rest (n - 1)).
  { intros n Hn E. repeat rewrite slice_to_firstn in E.
    replace (N.to_nat n) with (S (N.to_nat (n - 1))) in E by lia.
    destruct d' as [|b' rest']; [discriminate|]. simpl in E.
    inversion E; subst. exists rest'. split; [reflexivity|].
    now repeat rewrite slice_to_firstn. }
  assert (Hwide : forall f,
            (Byte.to_N b = 253 /\ f = fmt_H \/ Byte.to_N b = 254 /\ f = fmt_I \/
             Byte.to_N b = 255 /\ f = fmt_Q)%N ->
            decode_varint (b :: rest) = Ok (v, vs) ->
            (1 <= vs)%N /\ (vs <= len (b :: rest))%N /\
            (slice_to d' vs = slice_to (b :: rest) vs ->
             decode_varint d' = Ok (v, vs))).
  { intros f Hf. rewrite (decode_varint_wide b rest f Hf).
    destruct (N.leb_spec (calcsize f) (len rest)) as [Hle|Hgt]; [|discriminate].
    intros E. inversion E; subst.
    split; [lia|]. split; [rewrite len_cons; lia|].
    intros Hd.
    destruct (Hhead (calcsize f + 1)%N ltac:(lia) Hd) as (rest' & -> & Hr).
    replace (calcsize f + 1 - 1)%N with (calcsize f) in Hr by lia.
    rewrite (decode_varint_wide b rest' f Hf).
    assert (Hl : len (slice_to rest' (calcsize f)) = calcsize f).
    { rewrite Hr, len_slice_to. lia. }
    rewrite len_slice_to in Hl.
    destruct (N.leb_spec (calcsize f) (len rest')); [|lia].
    now rewrite Hr. }
  intros Hd.
  destruct Hcases as [Hs|[Hs|[Hs|Hs]]].
  - rewrite (H0 Hs) in Hd. inversion Hd; subst.
    split; [lia|]. split; [rewrite len_cons; lia|].
    intros E. destruct (Hhead 1%N ltac:(lia) E) as (rest' & -> & _).
    pose proof (decode_varint_cases (b :: rest')) as Hspec'. cbv zeta in Hspec'.
    now apply Hspec'.
  - apply (Hwide fmt_H); [tauto|assumption].
  - apply (Hwide fmt_I); [tauto|assumption].
  - apply (Hwide fmt_Q); [tauto|assumption].
Qed.

(** The same, for a number read at an offset of the slice. *)
Lemma decode_varint_at (tx tx' : bytes) (off v vs : N) :
  decode_varint (slice_from tx off) = Ok (v, vs) ->
  (1 <= vs)%N /\ (off + vs <= len tx)%N /\
  (agree tx tx' (off + vs) -> decode_varint (slice_from tx' off) = Ok (v, vs)).
Proof.
  intros H.
  destruct (decode_varint_local _ (slice_from tx' off) _ _ H) as (H1 & H2 & H3).
  rewrite len_slice_from in H2.
  split; [assumption|]. split; [lia|].
  intros Ha. apply H3.
  assert (E : forall l : bytes,
             slice_to (slice_from l off) vs = slice l off (off + vs)).
  { intros l. unfold slice. f_equal. lia. }
  repeat rewrite E. symmetry. apply (agree_slice tx tx' _ _ (off + vs)); [lia|].
  assumption.
Qed.

Lemma Ok_inj {A : Type} (a b : A) : Ok a = Ok b -> a = b.
Proof. intros H. now inversion H. Qed.

(** A loop whose turns only move forward, each reading below the offset it
    reaches, reads below the offset the loop reaches. *)
Lemma for_range_local {S : Type} (m : S -> N) (ok : N -> Prop)
    (body body' : S -> result S) :
  (forall a b, (a <= b)%N -> ok b -> ok a) ->
  (forall st st', body st = Ok st' ->
                  (m st <= m st')%N /\ (ok (m st') -> body' st = Ok st')) ->
  forall n init fin,
    for_range n body init = Ok fin ->
    (m init <= m fin)%N /\ (ok (m fin) -> for_range n body' init = Ok fin).
Proof.
  intros Hmono Hstep n init. unfold for_range.
  induction n as [|n IH] using N.peano_ind; intros fin.
  - simpl. intros H. inversion H; subst. split; [lia|reflexivity].
  - repeat rewrite N.iter_succ.
    destruct (N.iter n (fun st => bind st body) (Ok init)) as [mid|e];
      [|discriminate].
    cbn [bind]. intros H.
    destruct (IH mid eq_refl) as [Hle Hloc].
    destruct (Hstep mid fin H) as [Hle' Hloc'].
    split; [lia|]. intros Hok.
    rewrite (Hloc (Hmono _ _ Hle' Hok)). cbn [bind]. now apply Hloc'.
Qed.

Lemma parse_input_local (tx tx' : bytes) (off off' : N) :
  parse_input tx off = Ok off' ->
  (off <= off')%N /\ (agree tx tx' off' -> parse_input tx' off = Ok off').
Proof.
  unfold parse_input. repeat rewrite slice_from_slice_from.
  destruct (decode_varint (slice_from tx (off + 36))) as [[sl vl]|e] eqn:E;
    [|discriminate].
  cbn [bind]. intros H. apply Ok_inj in H. subst.
  destruct (decode_varint_at tx tx' _ _ _ E) as (H1 & H2 & H3).
  split; [lia|]. intros Ha.
  rewrite H3; [reflexivity|]. eapply agree_le; [|exact Ha]; lia.
Qed.

Lemma decode_uint64_ok (d : bytes) (v : N) :
  decode_uint64 d = Ok v -> len d = 8%N /\ v = le_decode d.
Proof.
  unfold decode_uint64, struct_unpack.
  destruct (N.eqb_spec (len d) 8) as [E|E]; [|discriminate].
  cbn [negb calcsize]. rewrite E. cbn. intros H. inversion H. now split.
Qed.

Lemma decode_uint32_ok (d : bytes) (v : N) :
  decode_uint32 d = Ok v <-> len d = 4%N /\ v = le_decode d.
Proof.
  unfold decode_uint32, struct_unpack.
  destruct (N.eqb_spec (len d) 4) as [E|E]; cbn [negb calcsize].
  - rewrite E. cbn. split; [intros H; inversion H; now split|].
    now intros [_ ->].
  - split; [discriminate|]. now intros [H _].
Qed.

Lemma parse_output_local (tx tx' : bytes) (st st' : N * list N) :
  parse_output tx st = Ok st' ->
  (fst st <= fst st')%N /\
  (agree tx tx' (fst st') -> parse_output tx' st = Ok st').
Proof.
  destruct st as [off vals]. unfold parse_output.
  repeat rewrite slice_from_slice_from.
  assert (E8 : forall l : bytes,
             slice_to (slice_from l off) 8 = slice l off (off + 8)).
  { intros l. unfold slice. f_equal. lia. }
  repeat rewrite E8.
  destruct (decode_uint64 (slice tx off (off + 8))) as [v|e] eqn:Ev;
    [|discriminate].
  cbn [bind].
  destruct (decode_varint (slice_from tx (off + 8))) as [[sl vs]|e] eqn:E;
    [|discriminate].
  cbn [bind]. intros H. apply Ok_inj in H. subst. cbn [fst].
  destruct (decode_varint_at tx tx' _ _ _ E) as (H1 & H2 & H3).
  split; [lia|]. intros Ha.
  rewrite <- (agree_slice tx tx' off (off + 8) (off + (8 + vs + sl))
                ltac:(lia) Ha), Ev.
  cbn [bind]. rewrite H3; [reflexivity|].
  eapply agree_le; [|exact Ha]; lia.
Qed.

Lemma parse_witness_component_local (tx tx' : bytes) (off off' : N) :
  parse_witness_component tx off = Ok off' ->
  (off <= off')%N /\
  (agree tx tx' off' -> parse_witness_component tx' off = Ok off').
Proof.
  unfold parse_witness_component.
  destruct (decode_varint (slice_from tx off)) as [[cl vs]|e] eqn:E;
    [|discriminate].
  cbn [bind]. intros H. apply Ok_inj in H. subst.
  destruct (decode_varint_at tx tx' _ _ _ E) as (H1 & H2 & H3).
  split; [lia|]. intros Ha.
  rewrite H3; [reflexivity|]. eapply agree_le; [|exact Ha]; lia.
Qed.

Lemma parse_witness_local (tx tx' : bytes) (off off' : N) :
  parse_witness tx off = Ok off' ->
  (off <= off')%N /\ (agree tx tx' off' -> parse_witness tx' off = Ok off').
Proof.
  unfold parse_witness.
  destruct (decode_varint (slice_from tx off)) as [[n vs]|e] eqn:E;
    [|discriminate].
  cbn [bind]. intros H.
  destruct (decode_varint_at tx tx' _ _ _ E) as (H1 & H2 & H3).
  destruct (for_range_local (fun o => o) (agree tx tx')
              (parse_witness_component tx) (parse_witness_component tx')
              (agree_le tx tx')
              (parse_witness_component_local tx tx') n _ _ H) as [Hle Hloc].
  split; [lia|]. intros Ha.
  rewrite H3; [|eapply agree_le; [|exact Ha]; lia].
  cbn [bind]. now apply Hloc.
Qed.

(** [parse_fields], phase by phase. *)
Lemma parse_fields_phases (tx : bytes) :
  parse_fields tx =
  (version <- decode_uint32 (slice_to tx 4) ;;
   locktime <- decode_uint32 (last4 tx) ;;
   '(is_segwit, n_in, n_out, values, tx_offset) <- parse_body tx ;;
   if is_segwit then
     tx_offset' <- for_range n_in (parse_witness tx) tx_offset ;;
     Ok {| f_version := version; f_locktime := locktime;
           f_is_segwit := true; f_n_in := n_in; f_n_out := n_out;
           f_values := values;
           f_offset_before_tx_witnesses := tx_offset;
           f_tx_offset := tx_offset' |}
   else
     Ok {| f_version := version; f_locktime := locktime;
           f_is_segwit := false; f_n_in := n_in; f_n_out := n_out;
           f_values := values;
           f_offset_before_tx_witnesses := 0%N;
           f_tx_offset := tx_offset |}).
Proof.
  unfold parse_fields, parse_body.
  destruct (decode_uint32 (slice_to tx 4)) as [ver|e]; [|reflexivity].
  destruct (decode_uint32 (last4 tx)) as [lock|e]; [|reflexivity].
  cbn [bind].
  destruct (bytes_eqb (slice tx 4 (4 + 2)) [x00; x01]).
  - destruct (decode_varint _) as [[n vs]|e]; [|reflexivity]. cbn [bind].
    destruct (for_range n _ _) as [o|e]; [|reflexivity]. cbn [bind].
    destruct (decode_varint _) as [[m vs']|e]; [|reflexivity]. cbn [bind].
    destruct (for_range m _ _) as [[o' vals]|e]; reflexivity.
  - destruct (decode_varint _) as [[n vs]|e]; [|reflexivity]. cbn [bind].
    destruct (for_range n _ _) as [o|e]; [|reflexivity]. cbn [bind].
    destruct (decode_varint _) as [[m vs']|e]; [|reflexivity]. cbn [bind].
    destruct (for_range m _ _) as [[o' vals]|e]; reflexivity.
Qed.

Lemma parse_body_local (tx tx' : bytes)
    (sw : bool) (n m : N) (vals : list N) (o : N) :
  parse_body tx = Ok (sw, n, m, vals, o) ->
  (6 <= o)%N /\
  (agree tx tx' o -> parse_body tx' = Ok (sw, n, m, vals, o)).
Proof.
  unfold parse_body.
  assert (Hss : (6 <= o)%N -> agree tx tx' o ->
                slice tx' 4 (4 + 2) = slice tx 4 (4 + 2)).
  { intros Ho Ha. symmetry. now apply (agree_slice tx tx' 4 (4 + 2) o). }
  set (start := if bytes_eqb (slice tx 4 (4 + 2)) [x00; x01]
                then (true, (4 + 2)%N) else (false, 4%N)).
  assert (Hs : (4 <= snd start)%N)
    by (subst start; destruct (bytes_eqb _ _); cbn [snd]; lia).
  destruct start as [sw0 o0] eqn:Es. cbn [snd] in Hs.
  destruct (decode_varint (slice_from tx o0)) as [[n0 vs]|e] eqn:E1;
    [|discriminate].
  cbn [bind].
  destruct (for_range n0 (parse_input tx) (o0 + vs)%N) as [o1|e] eqn:E2;
    [|discriminate].
  cbn [bind].
  destruct (decode_varint (slice_from tx o1)) as [[m0 vs']|e] eqn:E3;
    [|discriminate].
  cbn [bind].
  destruct (for_range m0 (parse_output tx) ((o1 + vs')%N, []))
    as [[o2 vals0]|e] eqn:E4; [|discriminate].
  cbn [bind]. intros H. apply Ok_inj in H. inversion H; subst.
  destruct (decode_varint_at tx tx' _ _ _ E1) as (A1 & A2 & A3).
  destruct (for_range_local (fun x => x) (agree tx tx')
              (parse_input tx) (parse_input tx') (agree_le tx tx')
              (parse_input_local tx tx') _ _ _ E2) as [B1 B2].
  destruct (decode_varint_at tx tx' _ _ _ E3) as (C1 & C2 & C3).
  destruct (for_range_local fst (agree tx tx')
              (parse_output tx) (parse_output tx') (agree_le tx tx')
              (parse_output_local tx tx') _ _ _ E4) as [D1 D2].
  cbn [fst] in D1, D2.
  split; [lia|]. intros Ha.
  rewrite (Hss ltac:(lia) Ha). fold start. rewrite Es.
  rewrite A3 by (eapply agree_le; [|exact Ha]; lia). cbn [bind].
  rewrite B2 by (eapply agree_le; [|exact Ha]; lia). cbn [bind].
  rewrite C3 by (eapply agree_le; [|exact Ha]; lia). cbn [bind].
  rewrite (D2 Ha). reflexivity.
Qed.

Lemma len_last4 {A : Type} (l : list A) : len (last4 l) = N.min 4 (len l).
Proof. unfold last4, len. rewrite length_skipn. lia. Qed.

(** The fields decoded from a slice are decoded from any byte string that
    starts with the bytes up to the offset reached, the lock time apart:
    that one is read at the end of the string. *)
Lemma parse_fields_local (tx tx' : bytes) (f : tx_fields) :
  parse_fields tx = Ok f ->
  (6 <= f_tx_offset f)%N /\
  (agree tx tx' (f_tx_offset f) -> (4 <= len tx')%N ->
   parse_fields tx' = Ok (with_locktime f (le_decode (last4 tx')))).
Proof.
  repeat rewrite parse_fields_phases.
  destruct (decode_uint32 (slice_to tx 4)) as [ver|e] eqn:Ev; [|discriminate].
  destruct (decode_uint32 (last4 tx)) as [lock|e]; [|discriminate].
  cbn [bind].
  destruct (parse_body tx) as [[[[[sw n] m] vals] o]|e] eqn:Eb; [|discriminate].
  cbn [bind].
  destruct (parse_body_local tx tx' _ _ _ _ _ Eb) as [Ho Hb].
  assert (Hver : agree tx tx' o -> decode_uint32 (slice_to tx' 4) = Ok ver).
  { intros Ha. now rewrite <- (agree_le tx tx' 4 o ltac:(lia) Ha). }
  assert (Hlock : (4 <= len tx')%N ->
                  decode_uint32 (last4 tx') = Ok (le_decode (last4 tx'))).
  { intros Hl. apply decode_uint32_ok. split; [|reflexivity].
    rewrite len_last4. lia. }
  destruct sw.
  - destruct (for_range n (parse_witness tx) o) as [o'|e] eqn:Ew;
      [|discriminate].
    cbn [bind]. intros H. apply Ok_inj in H. subst f. cbn.
    destruct (for_range_local (fun x => x) (agree tx tx')
                (parse_witness tx) (parse_witness tx') (agree_le tx tx')
                (parse_witness_local tx tx') _ _ _ Ew) as [W1 W2].
    split; [lia|]. intros Ha Hl.
    assert (Ha' : agree tx tx' o) by (eapply agree_le; [|exact Ha]; lia).
    rewrite (Hver Ha'), (Hlock Hl), (Hb Ha'). cbn [bind].
    rewrite (W2 Ha). reflexivity.
  - intros H. apply Ok_inj in H. subst f. cbn.
    split; [lia|]. intros Ha Hl.
    rewrite (Hver Ha), (Hlock Hl), (Hb Ha). reflexivity.
Qed.

Lemma Parsed_inj (t t' : tx_record) : Parsed t = Parsed t' -> t = t'.
Proof. intros H. now inversion H. Qed.

(** A pass that succeeds on a slice succeeds on every byte string that
    starts with the bytes of the transaction, with the same results, the
    lock time apart. *)
Lemma parse_tx_local (sha256 : bytes -> bytes) (tx tx' : bytes) (t : tx_record) :
  parse_tx sha256 tx = Parsed t ->
  slice_to tx' (tx_size t) = slice_to tx (tx_size t) ->
  parse_tx sha256 tx' = Parsed (set_locktime t (le_decode (last4 tx'))).
Proof.
  unfold parse_tx.
  destruct (parse_fields tx) as [f|e] eqn:Ef; [|discriminate].
  destruct (N.eqb_spec (f_tx_offset f + 4) (len (slice_to tx (f_tx_offset f + 4))))
    as [El|El]; [|discriminate].
  cbn [negb].
  destruct (is_jm _ _ _) as [[v k]|e] eqn:Ej; [|discriminate].
  intros H. apply Parsed_inj in H. subst t. cbn [tx_size].
  intros Hs.
  destruct (parse_fields_local tx tx' f Ef) as [Ho Hloc].
  assert (Hlen : len (slice_to tx' (f_tx_offset f + 4)) = (f_tx_offset f + 4)%N)
    by now rewrite Hs.
  rewrite Hloc.
  - cbn [with_locktime f_tx_offset f_is_segwit f_offset_before_tx_witnesses
         f_n_in f_n_out f_values f_version f_locktime].
    rewrite Hlen, N.eqb_refl. cbn [negb]. rewrite Ej, Hs. reflexivity.
  - unfold agree. symmetry.
    apply (agree_le tx' tx (f_tx_offset f) (f_tx_offset f + 4)); [lia|].
    exact Hs.
  - rewrite len_slice_to in Hlen. lia.
Qed.

Lemma slice_from_0 {A : Type} (l : list A) : slice_from l 0 = l.
Proof. now rewrite slice_from_skipn. Qed.

(** The round trip, the lock time apart: a transaction decoded at a cursor of
    a buffer with consumed length [L] is decoded again from its own [L]
    bytes, with the same version, witness flag, counts, values, length,
    identifier and virtual size; the lock time of the second decoding is the
    one of the last four bytes of the transaction. *)
Lemma redecode_same_but_locktime
    (sha256 : bytes -> bytes) (data : bytes) (cursor : N) (js : list N)
    (last last' : N) (t : tx_record) (L : N) :
  try_widths sha256 data cursor js last = (Some t, L) ->
  L = tx_size t /\
  try_widths sha256 (slice data cursor (cursor + L)) 0 js last'
  = (Some (set_locktime t
             (le_decode (last4 (slice data cursor (cursor + L))))), L).
Proof.
  assert (Hsl : forall w L',
             slice (slice data cursor (cursor + L')) 0 (0 + w)
             = slice_to (slice_from data cursor) (N.min L' w)).
  { intros w L'. unfold slice. rewrite slice_from_0, slice_to_slice_to.
    f_equal. lia. }
  assert (Hsw : forall w,
             slice data cursor (cursor + w) = slice_to (slice_from data cursor) w).
  { intros w. unfold slice. f_equal. lia. }
  revert last last'. induction js as [|j js IH]; intros last last'.
  - discriminate.
  - cbn [try_widths]. rewrite Hsl, Hsw.
    set (w := (1024 * 2 ^ j)%N).
    destruct (parse_tx sha256 (slice_to (slice_from data cursor) w))
      as [t0|e s] eqn:Ep.
    + intros H. inversion H; subst t0 L. clear H. split; [reflexivity|].
      destruct (parse_tx_inv sha256 _ t Ep) as (_ & _ & _ & Hlen & _).
      rewrite slice_to_slice_to, len_slice_to in Hlen.
      assert (Hw : (tx_size t <= w)%N) by lia.
      rewrite N.min_l by assumption.
      rewrite (parse_tx_local sha256 _ (slice_to (slice_from data cursor) (tx_size t))
                 t Ep).
      * cbn [set_locktime tx_size]. now rewrite Hsw.
      * repeat rewrite slice_to_slice_to. f_equal. lia.
    + assert (Hfail : forall L',
                 try_widths sha256 data cursor js
                   (match s with Some s' => s' | None => last end) = (Some t, L') ->
                 exists e' s',
                   parse_tx sha256
                     (slice_to (slice_from data cursor) (N.min L' w))
                   = Failed e' s').
      { intros L' _.
        destruct (parse_tx sha256 (slice_to (slice_from data cursor) (N.min L' w)))
          as [t1|e' s'] eqn:Ep'; [|now exists e', s'].
        exfalso.
        destruct (parse_tx_inv sha256 _ t1 Ep') as (_ & _ & _ & Hlen & _).
        rewrite slice_to_slice_to, len_slice_to in Hlen.
        rewrite (parse_tx_local sha256 _ (slice_to (slice_from data cursor) w)
                   t1 Ep') in Ep; [discriminate|].
        repeat rewrite slice_to_slice_to. f_equal. lia. }
      intros H.
      assert (H' : try_widths sha256 data cursor js
                     (match s with Some s' => s' | None => last end)
                   = (Some t, L)) by (destruct s; exact H).
      destruct (Hfail L H') as (e' & s' & ->).
      destruct (IH _ (match s' with Some x => x | None => last' end) H')
        as [HL Hr].
      split; [assumption|]. destruct s'; exact Hr.
Qed.

(* ================================================================= *)
(** ** The identifier does not depend on the witnesses *)

(** Two slices that start with the same bytes up to the witnesses of the
    first are decoded with the same flag, counts, values and offset of the
    witnesses. *)
Lemma parse_fields_same_body (tx tx' : bytes) (f f' : tx_fields) :
  parse_fields tx = Ok f -> parse_fields tx' = Ok f' ->
  f_is_segwit f = true ->
  agree tx tx' (f_offset_before_tx_witnesses f) ->
  f_is_segwit f' = true /\ f_n_in f' = f_n_in f /\ f_n_out f' = f_n_out f /\
  f_values f' = f_values f /\
  f_offset_before_tx_witnesses f' = f_offset_before_tx_witnesses f.
Proof.
  repeat rewrite parse_fields_phases.
  destruct (decode_uint32 (slice_to tx 4)) as [ver|e]; [|discriminate].
  destruct (decode_uint32 (last4 tx)) as [lock|e]; [|discriminate].
  destruct (decode_uint32 (slice_to tx' 4)) as [ver'|e]; [|discriminate].
  destruct (decode_uint32 (last4 tx')) as [lock'|e]; [|discriminate].
  cbn [bind].
  destruct (parse_body tx) as [[[[[sw n] m] vals] o]|e] eqn:Eb; [|discriminate].
  cbn [bind].
  destruct (parse_body_local tx tx' _ _ _ _ _ Eb) as [_ Hb].
  destruct sw.
  - destruct (for_range n (parse_witness tx) o) as [o'|e]; [|discriminate].
    cbn [bind]. intros H. apply Ok_inj in H. subst f. cbn.
    intros H' _ Ha. rewrite (Hb Ha) in H'. cbn [bind] in H'.
    destruct (for_range n (parse_witness tx') o) as [o''|e]; [|discriminate].
    cbn [bind] in H'. apply Ok_inj in H'. subst f'. cbn. tauto.
  - intros H. apply Ok_inj in H. subst f. cbn. discriminate.
Qed.

(** C4.  The identifier of a decoded transaction is the hexadecimal form of
    the reversed double digest of [tx[:4] + tx[6:offset_before_tx_witnesses]
    + tx[-4:]] for a witness transaction, that is of the transaction without
    marker, flag and witnesses.  Take two witness transactions with the same
    version, the same inputs and outputs [body] and the same lock time, and
    any two witness parts, both decoded, the first one with its witnesses
    starting after [body].  Then the second one has its witnesses starting
    there too and the same counts and values; the bytes hashed are version,
    [body] and lock time for both; the identifiers are equal.  A transaction
    decoded without witness flag has the digest of all its bytes. *)
Theorem txid_ignores_witness
    (sha256 : bytes -> bytes)
    (ver body wit1 wit2 lock rest1 rest2 : bytes) (t1 t2 : tx_record) :
  List.length ver = 4 -> List.length lock = 4 ->
  parse_tx sha256 (ver ++ [x00; x01] ++ body ++ wit1 ++ lock ++ rest1)
  = Parsed t1 ->
  parse_tx sha256 (ver ++ [x00; x01] ++ body ++ wit2 ++ lock ++ rest2)
  = Parsed t2 ->
  offset_before_tx_witnesses t1 = (6 + len body)%N ->
  tx_size t1 = (6 + len body + len wit1 + 4)%N ->
  tx_size t2 = (6 + len body + len wit2 + 4)%N ->
  is_segwit t1 = true /\ is_segwit t2 = true /\
  offset_before_tx_witnesses t2 = offset_before_tx_witnesses t1 /\
  n_in t2 = n_in t1 /\ n_out t2 = n_out t1 /\ values t2 = values t1 /\
  txid t1 = hex (rev (sha256 (sha256 (ver ++ body ++ lock)))) /\
  txid t2 = txid t1 /\
  (forall tx t,
      parse_tx sha256 tx = Parsed t -> is_segwit t = false ->
      txid t = hex (rev (sha256 (sha256 (slice_to tx (tx_size t)))))).
Proof.
  intros Hv Hl H1 H2 Ho1 Hs1 Hs2.
  assert (Hlegacy : forall tx t,
             parse_tx sha256 tx = Parsed t -> is_segwit t = false ->
             txid t = hex (rev (sha256 (sha256 (slice_to tx (tx_size t)))))).
  { intros tx t Hp Hs.
    destruct (parse_tx_inv sha256 tx t Hp)
      as (f & _ & _ & _ & _ & _ & _ & _ & _ & _ & _ & Hid & _).
    now rewrite Hid, Hs. }
  destruct (parse_tx_witness_layout_txid sha256 _ _ _ _ _ t1 Hv Hl H1 Ho1 Hs1)
    as [Hw1 E1].
  destruct (parse_tx_inv sha256 _ t1 H1)
    as (f1 & Hf1 & _ & _ & _ & _ & Hseg1 & Hin1 & Hout1 & Hval1 & Hoff1 & _).
  destruct (parse_tx_inv sha256 _ t2 H2)
    as (f2 & Hf2 & _ & _ & _ & _ & Hseg2 & Hin2 & Hout2 & Hval2 & Hoff2 & _).
  destruct (parse_fields_same_body _ _ f1 f2 Hf1 Hf2) as (A & B & C & D & E).
  { now rewrite <- Hseg1. }
  { rewrite <- Hoff1, Ho1. unfold agree.
    replace (ver ++ [x00; x01] ++ body ++ wit1 ++ lock ++ rest1)
      with ((ver ++ [x00; x01] ++ body) ++ wit1 ++ lock ++ rest1)
      by (repeat rewrite <- app_assoc; reflexivity).
    replace (ver ++ [x00; x01] ++ body ++ wit2 ++ lock ++ rest2)
      with ((ver ++ [x00; x01] ++ body) ++ wit2 ++ lock ++ rest2)
      by (repeat rewrite <- app_assoc; reflexivity).
    assert (Hp : len (ver ++ [x00; x01] ++ body) = (6 + len body)%N).
    { repeat rewrite len_app.
      replace (len ver) with 4%N by (unfold len; now rewrite Hv).
      change (len [x00; x01]) with 2%N. lia. }
    now repeat rewrite (slice_to_app_exact _ _ _ Hp). }
  assert (Ho2 : offset_before_tx_witnesses t2 = (6 + len body)%N)
    by congruence.
  destruct (parse_tx_witness_layout_txid sha256 _ _ _ _ _ t2 Hv Hl H2 Ho2 Hs2)
    as [Hw2 E2].
  unfold format_hash, double_sha256 in E1, E2.
  repeat split; try congruence. exact Hlegacy.
Qed.

Lemma txid_ignores_witness_witness :
  exists t1 t2,
    parse_tx toy_digest
      (witness_tx [x02; x01; xaa; x02; xbb; xcc] 7 ++ legacy_tx 9) = Parsed t1 /\
    parse_tx toy_digest (witness_tx [x00] 7) = Parsed t2 /\
    tx_size t1 = 68%N /\ tx_size t2 = 63%N /\
    vsize t1 = 62%Z /\ vsize t2 = 61%Z /\
    txid t1 = hex (rev (toy_digest
                          (toy_digest (le_bytes 4 2 ++ sample_body ++ le_bytes 4 7)))) /\
    txid t2 = txid t1.
Proof.
  eexists. eexists.
  split; [vm_compute; reflexivity|].
  split; [vm_compute; reflexivity|].
  repeat (split; [reflexivity|]).
  apply (txid_ignores_witness toy_digest (le_bytes 4 2) sample_body
           [x02; x01; xaa; x02; xbb; xcc] [x00] (le_bytes 4 7)
           (legacy_tx 9) []); reflexivity.
Defined.

(* ================================================================= *)
(** ** What the lock time and the order of the lines are *)

(** The lock time of a pass is read at the end of the slice it was given;
    it is the one of the transaction when the slice ends with it. *)
Lemma parse_tx_locktime (sha256 : bytes -> bytes) (tx : bytes) (t : tx_record) :
  parse_tx sha256 tx = Parsed t ->
  locktime t = le_decode (last4 tx) /\
  (len tx = tx_size t ->
   locktime t = le_decode (last4 (slice_to tx (tx_size t)))).
Proof.
  intros H.
  destruct (parse_tx_inv sha256 tx t H) as (f & Hf & _ & _ & _ & Hl & _).
  assert (E : locktime t = le_decode (last4 tx)).
  { rewrite Hl. rewrite parse_fields_phases in Hf.
    destruct (decode_uint32 (slice_to tx 4)) as [ver|e]; [|discriminate].
    destruct (decode_uint32 (last4 tx)) as [lock|e] eqn:El; [|discriminate].
    apply decode_uint32_ok in El as [_ ->]. cbn [bind] in Hf.
    destruct (parse_body tx) as [[[[[sw n] m] vals] o]|e]; [|discriminate].
    cbn [bind] in Hf. destruct sw.
    - destruct (for_range n (parse_witness tx) o) as [o'|e]; [|discriminate].
      cbn [bind] in Hf. apply Ok_inj in Hf. now subst f.
    - apply Ok_inj in Hf. now subst f. }
  split; [assumption|].
  intros Hlen. rewrite slice_to_all by lia. assumption.
Qed.

(** The lines written are in the order of their second fields, compared as
    text. *)
Lemma merged_lines_in_text_order
    (set_iter : list string -> list string)
    (lines_read found out : list string) :
  merged_lines set_iter lines_read found = Ok out ->
  exists keyed,
    map snd keyed = out /\
    Forall (fun p => height_key (snd p) = Ok (fst p)) keyed /\
    Sorted keys_in_order keyed.
Proof.
  unfold merged_lines. intros H.
  now destruct (sorted_spec _ _ _ H) as (_ & _ & Hk).
Qed.

(* ================================================================= *)
(** ** The order of the lines written *)

Lemma write_two_lines
    (set_iter : list string -> list string) (a b : string) (out : list string) :
  (forall l, NoDup (set_iter l)) ->
  (forall l x, In x (set_iter l) <-> In x l) ->
  a <> b ->
  sorted [a; b] height_key = Ok out ->
  sorted [b; a] height_key = Ok out ->
  write_candidates set_iter EmptyString [a; b] = Ok (join_lines out).
Proof.
  intros Hnd Hin Hab H1 H2. unfold write_candidates, merged_lines.
  cbn [universal_newlines readlines_text map app].
  destruct (set_iter_two set_iter Hnd Hin [a; b] a b Hab) as [E|E].
  - intros x. simpl. intuition congruence.
  - now rewrite E, H1.
  - now rewrite E, H2.
Qed.

(** C3.  On a scan of the heights 99999 and 100000, both blocks hold a
    matching transaction; the run returns, and the file it writes has the
    line of height 100000 before the line of height 99999: the sort compares
    the height fields as text, and ["100000"] is below ["99999"]. *)
Theorem lines_sorted_as_text
    (sha256 : bytes -> bytes) (set_iter : list string -> list string) :
  (forall l, NoDup (set_iter l)) ->
  (forall l x, In x (set_iter l) <-> In x l) ->
  let id := format_hash (double_sha256 sha256 (joinmarket_tx 0)) in
  main sha256 two_height_chain set_iter 99999 100000 two_height_info
       EmptyString
  = (Returned,
     join_lines [candidate_line id 100000 0; candidate_line id 99999 0])
  /\ height_key (candidate_line id 100000 0) = Ok "100000"%string
  /\ height_key (candidate_line id 99999 0) = Ok "99999"%string
  /\ String.ltb "100000" "99999" = true.
Proof.
  intros Hnd Hin id.
  assert (K1 : height_key (candidate_line id 100000 0) = Ok "100000"%string)
    by apply height_key_candidate_line.
  assert (K2 : height_key (candidate_line id 99999 0) = Ok "99999"%string)
    by apply height_key_candidate_line.
  split; [|repeat split; assumption || reflexivity].
  unfold main.
  replace (scan sha256 two_height_chain
             (range (start_block_of 99999 (end_block_of 100000 two_height_info))
                    (end_block_of 100000 two_height_info + 1)) [])
    with (@inr outcome _ [candidate_line id 99999 0;
                          candidate_line id 100000 0])
    by (vm_compute; reflexivity).
  replace (pruned two_height_info &&
           (start_block_of 99999 (end_block_of 100000 two_height_info)
            <? pruneheight two_height_info)%Z)
    with false by reflexivity.
  rewrite (write_two_lines set_iter _ _
             [candidate_line id 100000 0; candidate_line id 99999 0] Hnd Hin).
  - reflexivity.
  - intros E. rewrite E in K2. rewrite K2 in K1. discriminate.
  - unfold sorted. cbn [decorate]. rewrite K1, K2. reflexivity.
  - unfold sorted. cbn [decorate]. rewrite K1, K2. reflexivity.
Qed.

Lemma lines_sorted_as_text_witness :
  main toy_digest two_height_chain (nodup string_dec) 99999 100000
       two_height_info EmptyString
  = (Returned,
     join_lines ["00d414a0,100000,0"%string; "00d414a0,99999,0"%string]).
Proof.
  apply (lines_sorted_as_text toy_digest (nodup string_dec)
           (NoDup_nodup string_dec) (fun l x => nodup_In string_dec l x)).
Defined.

(* ================================================================= *)
(** ** Lines of equal height, and the size of the weight *)

(** Two lines of the same height are written in the order in which the set
    hands them out: two iteration orders give two files with the same
    lines. *)
Lemma equal_heights_follow_set_order :
  write_candidates (nodup string_dec) EmptyString
    ["aa,700000,1"%string; "bb,700000,2"%string]
  = Ok (join_lines ["aa,700000,1"%string; "bb,700000,2"%string]) /\
  write_candidates (fun l => rev (nodup string_dec l)) EmptyString
    ["aa,700000,1"%string; "bb,700000,2"%string]
  = Ok (join_lines ["bb,700000,2"%string; "aa,700000,1"%string]).
Proof. split; reflexivity. Qed.

Lemma try_widths_size (sha256 : bytes -> bytes) (txs_data : bytes)
    (offset : N) (js : list N) (last : N) (t : tx_record) (L : N) :
  (forall j, In j js -> (j <= 19)%N) ->
  try_widths sha256 txs_data offset js last = (Some t, L) ->
  L = tx_size t /\ (tx_size t <= 1024 * 2 ^ 19)%N /\
  (is_segwit t = true ->
   (offset_before_tx_witnesses t + 4 <= tx_size t)%N).
Proof.
  revert last; induction js as [|j js IH]; intros last Hj; [discriminate|].
  cbn [try_widths].
  destruct (parse_tx sha256 _) as [t0|e s] eqn:Ep.
  - intros H. inversion H; subst t0 L. clear H. split; [reflexivity|].
    destruct (parse_tx_inv sha256 _ t Ep)
      as (f & Hf & Hsz & Hlen & _ & _ & Hseg & _ & _ & _ & Hoff & _).
    split.
    + rewrite len_slice_to, len_slice in Hlen.
      assert (Hp : (2 ^ j <= 2 ^ 19)%N)
        by (apply N.pow_le_mono_r; [lia|apply Hj; now left]).
      lia.
    + intros Hs. rewrite Hseg in Hs. rewrite Hsz, Hoff.
      rewrite parse_fields_phases in Hf.
      destruct (decode_uint32 (slice_to _ 4)) as [ver|e]; [|discriminate].
      destruct (decode_uint32 (last4 _)) as [lock|e]; [|discriminate].
      cbn [bind] in Hf.
      destruct (parse_body _) as [[[[[sw n] m] vals] o]|e]; [|discriminate].
      cbn [bind] in Hf. destruct sw.
      * destruct (for_range n (parse_witness _) o) as [o'|e] eqn:Ew;
          [|discriminate].
        cbn [bind] in Hf. apply Ok_inj in Hf. subst f. cbn.
        destruct (for_range_local (fun x => x) (fun _ => True)
                    (parse_witness _) (parse_witness _)
                    (fun _ _ _ _ => I)
                    (fun st st' H =>
                       conj (proj1 (parse_witness_local _ [] st st' H))
                            (fun _ => H))
                    _ _ _ Ew) as [Hle _].
        lia.
      * apply Ok_inj in Hf. subst f. discriminate.
  - intros H. destruct s as [s|]; apply (IH _ (fun j' Hin => Hj j' (or_intror Hin)) H).
Qed.

(** The weight of a transaction decoded by the scan is an integer of less
    than 53 bits, on which the division by four is exact in floating
    point. *)
Lemma scan_weight_small (sha256 : bytes -> bytes) (txs_data : bytes)
    (offset last : N) (t : tx_record) (L : N) :
  try_widths sha256 txs_data offset range_0_20 last = (Some t, L) ->
  is_segwit t = true ->
  (0 <= weight (Z.of_N (tx_size t)) (Z.of_N (offset_before_tx_witnesses t))
   < 2 ^ 53)%Z.
Proof.
  intros H Hs.
  destruct (try_widths_size sha256 txs_data offset range_0_20 last t L)
    as (_ & Hsz & Hoff); [|exact H|].
  - intros j Hj. unfold range_0_20 in Hj. apply in_map_iff in Hj as (k & <- & Hk).
    apply in_seq in Hk. lia.
  - specialize (Hoff Hs). unfold weight, stripped_size, witness_size.
    change (1024 * 2 ^ 19)%N with 536870912%N in Hsz.
    change (2 ^ 53)%Z with 9007199254740992%Z. lia.
Qed.

(* ================================================================= *)
(** * Further properties of the code *)

(* ================================================================= *)
(** ** Fixed-width integers *)

Lemma le_decode_bound (data : bytes) :
  (le_decode data < 256 ^ len data)%N.
Proof.
  induction data as [|b r IH]; [cbn; lia|].
  rewrite len_cons, N.add_1_r, N.pow_succ_r'. cbn [le_decode].
  pose proof (Byte.to_N_bounded b). lia.
Qed.

Lemma to_N_inj (a b : byte) : Byte.to_N a = Byte.to_N b -> a = b.
Proof.
  intros H. pose proof (Byte.of_to_N a) as Ha.
  rewrite H, Byte.of_to_N in Ha. now inversion Ha.
Qed.

Lemma le_decode_inj (d1 d2 : bytes) :
  List.length d1 = List.length d2 -> le_decode d1 = le_decode d2 -> d1 = d2.
Proof.
  revert d2; induction d1 as [|a r1 IH]; intros [|b r2] Hl H;
    try discriminate; [reflexivity|].
  cbn [le_decode] in H.
  pose proof (Byte.to_N_bounded a). pose proof (Byte.to_N_bounded b).
  assert (Hab : Byte.to_N a = Byte.to_N b) by lia.
  f_equal; [now apply to_N_inj|].
  apply IH; [simpl in Hl; lia|lia].
Qed.

Lemma le_decode_digits (n : N) (s k : nat) :
  le_decode
    (map (fun i => match Byte.of_N ((n / 256 ^ N.of_nat i) mod 256) with
                   | Some b => b
                   | None => x00
                   end) (seq s k))
  = ((n / 256 ^ N.of_nat s) mod 256 ^ N.of_nat k)%N.
Proof.
  revert s; induction k as [|k IH]; intros s.
  - cbn. now rewrite N.mod_1_r.
  - cbn [seq map le_decode]. rewrite IH.
    set (m := (n / 256 ^ N.of_nat s)%N).
    assert (Hb : (m mod 256 <= 255)%N)
      by (pose proof (N.mod_upper_bound m 256 ltac:(lia)); lia).
    destruct (Byte.of_N (m mod 256)) as [b|] eqn:Eb.
    + apply Byte.to_of_N in Eb. rewrite Eb.
      replace (n / 256 ^ N.of_nat (S s))%N with (m / 256)%N.
      * rewrite Nat2N.inj_succ, N.pow_succ_r'.
        now rewrite N.Div0.mod_mul_r.
      * subst m. rewrite Nat2N.inj_succ, N.pow_succ_r', N.Div0.div_div.
        f_equal. lia.
    + pose proof (Byte.to_of_N_option_map (m mod 256)) as Ho.
      rewrite Eb in Ho. cbn in Ho.
      destruct (N.leb_spec (m mod 256) 255); [discriminate|lia].
Qed.

(** The bytes [le_bytes] writes are read back by [le_decode]. *)
Lemma le_decode_le_bytes (k : nat) (n : N) :
  (n < 256 ^ N.of_nat k)%N -> le_decode (le_bytes k n) = n.
Proof.
  intros H. unfold le_bytes. rewrite le_decode_digits.
  cbn [N.of_nat]. rewrite N.pow_0_r, N.div_1_r. now apply N.mod_small.
Qed.

Lemma length_le_bytes (k : nat) (n : N) : List.length (le_bytes k n) = k.
Proof. unfold le_bytes. now rewrite length_map, length_seq. Qed.

Lemma len_le_bytes (k : nat) (n : N) : len (le_bytes k n) = N.of_nat k.
Proof. unfold len. now rewrite length_le_bytes. Qed.

(** X1.  [decode_uint32] takes exactly four bytes, and nothing else; on four
    bytes it returns their little-endian value, which is below 2^32 and
    determines the bytes; it reads back the four bytes of any number below
    2^32. *)
Theorem decode_uint32_exact (data : bytes) :
  (len data <> 4%N -> decode_uint32 data = Raise ValueError) /\
  (len data = 4%N ->
   decode_uint32 data = Ok (le_decode data) /\ (le_decode data < 2 ^ 32)%N) /\
  (forall data' v,
      decode_uint32 data = Ok v -> decode_uint32 data' = Ok v -> data' = data) /\
  (forall n, (n < 2 ^ 32)%N -> decode_uint32 (le_bytes 4 n) = Ok n).
Proof.
  split; [|split; [|split]].
  - intros H. unfold decode_uint32.
    destruct (N.eqb_spec (len data) 4); [contradiction|reflexivity].
  - intros H. split; [now apply decode_uint32_ok|].
    pose proof (le_decode_bound data) as Hb. now rewrite H in Hb.
  - intros data' v H H'.
    apply decode_uint32_ok in H as [Hl ->].
    apply decode_uint32_ok in H' as [Hl' E].
    apply le_decode_inj; [unfold len in *; lia|now symmetry].
  - intros n Hn. apply decode_uint32_ok. split; [apply len_le_bytes|].
    symmetry. now apply le_decode_le_bytes.
Qed.

Lemma decode_uint32_exact_witness :
  decode_uint32 [x01; x02; x03] = Raise ValueError /\
  decode_uint32 [x01; x02; x03; x04] = Ok 67305985%N /\
  decode_uint32 (le_bytes 4 700000) = Ok 700000%N.
Proof.
  split; [|split].
  - apply (decode_uint32_exact [x01; x02; x03]). vm_compute. discriminate.
  - apply (decode_uint32_exact [x01; x02; x03; x04]). reflexivity.
  - apply (decode_uint32_exact []). reflexivity.
Defined.

Lemma decode_uint64_iff (d : bytes) (v : N) :
  decode_uint64 d = Ok v <-> len d = 8%N /\ v = le_decode d.
Proof.
  split; [apply decode_uint64_ok|].
  intros [H ->]. unfold decode_uint64, struct_unpack.
  rewrite H. reflexivity.
Qed.

(** X2.  [decode_uint64] takes exactly eight bytes, and nothing else; on eight
    bytes it returns their little-endian value, which is below 2^64 and
    determines the bytes; it reads back the eight bytes of any number below
    2^64. *)
Theorem decode_uint64_exact (data : bytes) :
  (len data <> 8%N -> decode_uint64 data = Raise ValueError) /\
  (len data = 8%N ->
   decode_uint64 data = Ok (le_decode data) /\ (le_decode data < 2 ^ 64)%N) /\
  (forall data' v,
      decode_uint64 data = Ok v -> decode_uint64 data' = Ok v -> data' = data) /\
  (forall n, (n < 2 ^ 64)%N -> decode_uint64 (le_bytes 8 n) = Ok n).
Proof.
  split; [|split; [|split]].
  - intros H. unfold decode_uint64.
    destruct (N.eqb_spec (len data) 8); [contradiction|reflexivity].
  - intros H. split; [now apply decode_uint64_iff|].
    pose proof (le_decode_bound data) as Hb. now rewrite H in Hb.
  - intros data' v H H'.
    apply decode_uint64_iff in H as [Hl ->].
    apply decode_uint64_iff in H' as [Hl' E].
    apply le_decode_inj; [unfold len in *; lia|now symmetry].
  - intros n Hn. apply decode_uint64_iff. split; [apply len_le_bytes|].
    symmetry. now apply le_decode_le_bytes.
Qed.

Lemma decode_uint64_exact_witness :
  decode_uint64 [x01; x02; x03] = Raise ValueError /\
  decode_uint64 (le_bytes 8 100000) = Ok 100000%N.
Proof.
  split.
  - apply (decode_uint64_exact [x01; x02; x03]). vm_compute. discriminate.
  - apply (decode_uint64_exact []). reflexivity.
Defined.

(* ================================================================= *)
(** ** Variable-length integers *)

Lemma le_decode_firstn_bound (k : nat) (rest : bytes) :
  (N.of_nat k <= len rest)%N ->
  (le_decode (firstn k rest) < 256 ^ N.of_nat k)%N.
Proof.
  intros H. pose proof (le_decode_bound (firstn k rest)) as Hb.
  unfold len in *. rewrite length_firstn in Hb.
  now replace (Nat.min k (List.length rest)) with k in Hb by lia.
Qed.

Lemma decode_varint_raises (data : bytes) (e : exn) :
  decode_varint data = Raise e ->
  (data = [] /\ e = IndexError) \/ (data <> [] /\ e = StructError).
Proof.
  intros H. destruct data as [|b rest].
  - left. split; [reflexivity|]. cbn in H. now inversion H.
  - right. split; [discriminate|].
    pose proof (decode_varint_cases (b :: rest)) as Hc. cbv zeta in Hc.
    destruct Hc as (C0 & C1 & C2 & C3 & [Hs|[Hs|[Hs|Hs]]]).
    + rewrite (C0 Hs) in H. discriminate.
    + destruct (C1 Hs) as [Ca Cb].
      destruct (N.le_gt_cases 2 (len rest)) as [Hl|Hl];
        [rewrite (Ca Hl) in H; discriminate|].
      rewrite (Cb Hl) in H. now inversion H.
    + destruct (C2 Hs) as [Ca Cb].
      destruct (N.le_gt_cases 4 (len rest)) as [Hl|Hl];
        [rewrite (Ca Hl) in H; discriminate|].
      rewrite (Cb Hl) in H. now inversion H.
    + destruct (C3 Hs) as [Ca Cb].
      destruct (N.le_gt_cases 8 (len rest)) as [Hl|Hl];
        [rewrite (Ca Hl) in H; discriminate|].
      rewrite (Cb Hl) in H. now inversion H.
Qed.

(** X3.  What a successful [decode_varint] has read: 1, 3, 5 or 9 bytes, all of
    them there, a value that fits the width, and nothing of what follows.
    The two [raise ValueError] of the function are never reached: it fails
    with [IndexError] on the empty string and with [struct.error] on a
    string cut short, and in no other way. *)
Theorem decode_varint_consumes (data : bytes) :
  (forall v n,
      decode_varint data = Ok (v, n) ->
      ((n = 1 /\ v < 253) \/ (n = 3 /\ v < 2 ^ 16) \/
       (n = 5 /\ v < 2 ^ 32) \/ (n = 9 /\ v < 2 ^ 64))%N /\
      (n <= len data)%N /\
      forall rest, decode_varint (slice_to data n ++ rest) = Ok (v, n)) /\
  (forall e,
      decode_varint data = Raise e ->
      (data = [] /\ e = IndexError) \/ (data <> [] /\ e = StructError)).
Proof.
  split.
  - intros v n H.
    destruct (decode_varint_local data data v n H) as (H1 & H2 & _).
    split; [|split; [assumption|]].
    + destruct data as [|b rest]; [discriminate|].
      pose proof (decode_varint_cases (b :: rest)) as Hc. cbv zeta in Hc.
      destruct Hc as (C0 & C1 & C2 & C3 & [Hs|[Hs|[Hs|Hs]]]).
      * rewrite (C0 Hs) in H. apply Ok_inj in H. inversion H; subst.
        left. split; [reflexivity|lia].
      * destruct (C1 Hs) as [Ca Cb].
        destruct (N.le_gt_cases 2 (len rest)) as [Hl|Hl];
          [|rewrite (Cb Hl) in H; discriminate].
        rewrite (Ca Hl) in H. apply Ok_inj in H. inversion H; subst.
        right. left. split; [reflexivity|].
        apply (le_decode_firstn_bound 2 rest). exact Hl.
      * destruct (C2 Hs) as [Ca Cb].
        destruct (N.le_gt_cases 4 (len rest)) as [Hl|Hl];
          [|rewrite (Cb Hl) in H; discriminate].
        rewrite (Ca Hl) in H. apply Ok_inj in H. inversion H; subst.
        right. right. left. split; [reflexivity|].
        apply (le_decode_firstn_bound 4 rest). exact Hl.
      * destruct (C3 Hs) as [Ca Cb].
        destruct (N.le_gt_cases 8 (len rest)) as [Hl|Hl];
          [|rewrite (Cb Hl) in H; discriminate].
        rewrite (Ca Hl) in H. apply Ok_inj in H. inversion H; subst.
        right. right. right. split; [reflexivity|].
        apply (le_decode_firstn_bound 8 rest). exact Hl.
    + intros rest.
      destruct (decode_varint_local data (slice_to data n ++ rest) v n H)
        as (_ & _ & H3).
      apply H3. apply slice_to_app_exact. rewrite len_slice_to. lia.
  - intros e H. now apply decode_varint_raises.
Qed.

Lemma decode_varint_consumes_witness :
  ((3 = 1 /\ 513 < 253) \/ (3 = 3 /\ 513 < 2 ^ 16) \/
   (3 = 5 /\ 513 < 2 ^ 32) \/ (3 = 9 /\ 513 < 2 ^ 64))%N /\
  (3 <= len [xfd; x01; x02; x03])%N /\
  forall rest,
    decode_varint (slice_to [xfd; x01; x02; x03] 3 ++ rest) = Ok (513%N, 3%N).
Proof.
  apply (decode_varint_consumes [xfd; x01; x02; x03]). reflexivity.
Defined.

Lemma decode_varint_after_selector (b : byte) (f : struct_format)
    (v : N) (rest : bytes) :
  (Byte.to_N b = 253 /\ f = fmt_H \/ Byte.to_N b = 254 /\ f = fmt_I \/
   Byte.to_N b = 255 /\ f = fmt_Q)%N ->
  (v < 256 ^ calcsize f)%N ->
  decode_varint (b :: le_bytes (N.to_nat (calcsize f)) v ++ rest)
  = Ok (v, (calcsize f + 1)%N).
Proof.
  intros Hb Hv. rewrite (decode_varint_wide b _ f Hb).
  rewrite len_app, len_le_bytes, N2Nat.id.
  destruct (N.leb_spec (calcsize f) (calcsize f + len rest)); [|lia].
  rewrite slice_to_app_exact by (rewrite len_le_bytes; apply N2Nat.id).
  rewrite le_decode_le_bytes; [reflexivity|]. now rewrite N2Nat.id.
Qed.

(** X4.  Every number that fits a width is read back from the selector of that
    width followed by its little-endian bytes, whatever comes after; the
    number need not be too large for a shorter form, so that a number below
    253 is read from one, three, five or nine bytes alike. *)
Theorem decode_varint_reads_back (v : N) (rest : bytes) :
  (forall b, Byte.to_N b = v -> (v < 253)%N ->
             decode_varint (b :: rest) = Ok (v, 1%N)) /\
  ((v < 2 ^ 16)%N -> decode_varint (xfd :: le_bytes 2 v ++ rest) = Ok (v, 3%N)) /\
  ((v < 2 ^ 32)%N -> decode_varint (xfe :: le_bytes 4 v ++ rest) = Ok (v, 5%N)) /\
  ((v < 2 ^ 64)%N -> decode_varint (xff :: le_bytes 8 v ++ rest) = Ok (v, 9%N)).
Proof.
  split; [|split; [|split]].
  - intros b Hb Hv.
    pose proof (decode_varint_cases (b :: rest)) as Hc. cbv zeta in Hc.
    destruct Hc as (C0 & _). rewrite C0; [now rewrite Hb|lia].
  - intros Hv. apply (decode_varint_after_selector xfd fmt_H v rest); [tauto|].
    exact Hv.
  - intros Hv. apply (decode_varint_after_selector xfe fmt_I v rest); [tauto|].
    exact Hv.
  - intros Hv. apply (decode_varint_after_selector xff fmt_Q v rest); [tauto|].
    exact Hv.
Qed.

Lemma decode_varint_reads_back_witness :
  decode_varint [x05; xaa] = Ok (5%N, 1%N) /\
  decode_varint (xfd :: le_bytes 2 5 ++ [xaa]) = Ok (5%N, 3%N) /\
  decode_varint (xfe :: le_bytes 4 5 ++ [xaa]) = Ok (5%N, 5%N) /\
  decode_varint (xff :: le_bytes 8 5 ++ [xaa]) = Ok (5%N, 9%N).
Proof.
  destruct (decode_varint_reads_back 5 [xaa]) as (H1 & H2 & H3 & H4).
  split; [apply H1; [reflexivity|lia]|].
  split; [apply H2; lia|]. split; [apply H3; lia|apply H4; lia].
Defined.

(* ================================================================= *)
(** ** The classifier: what a match is, and the order of the outputs *)

Lemma is_jm_inv (n_in n_out : Z) (values : list Z) (v f : Z) :
  is_jm n_in n_out values = Ok (v, f) ->
  (v = 0 /\ f = 0)%Z \/
  (In v values /\ f = occurrences v values /\
   (forall w, occurrences w values <= f)%Z /\
   n_out <= 2 * f < n_out + 2 /\ 3 <= f /\ f <= n_in /\ 75000 <= v)%Z.
Proof.
  intros H.
  set (g := (if negb (n_out mod 2 =? 0)%Z then n_out / 2 + 1 else n_out / 2)%Z).
  assert (Hg : (n_out <= 2 * g < n_out + 2)%Z).
  { subst g. pose proof (Z.div_mod n_out 2 ltac:(lia)).
    pose proof (Z.mod_pos_bound n_out 2 ltac:(lia)).
    destruct (Z.eqb_spec (n_out mod 2) 0); cbn [negb]; lia. }
  destruct values as [|x l].
  - left. unfold is_jm in H.
    destruct (_ <? MIN_PARTICIPANTS)%Z; [now inversion H|].
    destruct (n_in <? _)%Z; [now inversion H|discriminate].
  - destruct (most_common_spec (x :: l) ltac:(discriminate))
      as (v0 & f0 & Hmc & Hv & Hf & Hmax).
    destruct (is_jm_cases n_in n_out g v0 f0 (x :: l) Hg Hmc) as [Hyes Hno].
    assert (Hdec : matches n_in g v0 f0 \/ ~ matches n_in g v0 f0)
      by (unfold matches; lia).
    destruct Hdec as [M|M].
    + rewrite (Hyes M) in H. apply Ok_inj in H.
      assert (Ev : v0 = v) by congruence. assert (Ef : f0 = f) by congruence.
      subst v0 f0. right. unfold matches in M. clearbody g.
      repeat split; try assumption; try lia.
      intros w. specialize (Hmax w). lia.
    + rewrite (Hno M) in H. left. now inversion H.
Qed.

(** X5.  The pattern written above the constants: a transaction that [is_jm]
    lets through has at least three outputs of the amount found, as many
    inputs at least, an amount of 75000 or more that no other amount
    outnumbers; and when the values are those of the [n_out] outputs, the
    other outputs are as many as the equal ones, or one fewer.  The amount
    returned is positive exactly then, which is what the caller tests. *)
Theorem is_jm_match_shape (n_in n_out : Z) (values : list Z) (v f : Z) :
  is_jm n_in n_out values = Ok (v, f) ->
  ((0 < v)%Z <-> (v, f) <> (0, 0)%Z) /\
  ((0 < v)%Z ->
   (3 <= f)%Z /\ (f <= n_in)%Z /\ (75000 <= v)%Z /\
   In v values /\ f = occurrences v values /\
   (forall w, occurrences w values <= f)%Z /\
   (Z.of_nat (List.length values) = n_out ->
    (5 <= n_out)%Z /\ (n_out - f = f \/ n_out - f = f - 1)%Z)).
Proof.
  intros H. destruct (is_jm_inv n_in n_out values v f H)
    as [[-> ->]|(Hv & Hf & Hmax & Hg & H3 & Hin & Hamt)].
  - split; [split; [lia|intros E; now contradiction E]|lia].
  - split.
    + split; [intros _ E; inversion E; lia|lia].
    + intros _. repeat split; try assumption; lia.
Qed.

Lemma is_jm_match_shape_witness :
  (3 <= 3)%Z /\ (3 <= 5)%Z /\ (75000 <= 100000)%Z /\
  In 100000%Z [100000; 100000; 100000; 50; 60; 70]%Z /\
  3%Z = occurrences 100000 [100000; 100000; 100000; 50; 60; 70]%Z /\
  (forall w, occurrences w [100000; 100000; 100000; 50; 60; 70]%Z <= 3)%Z /\
  (Z.of_nat (List.length [100000; 100000; 100000; 50; 60; 70]%Z) = 6%Z ->
   (5 <= 6)%Z /\ (6 - 3 = 3 \/ 6 - 3 = 3 - 1)%Z).
Proof.
  apply (is_jm_match_shape 5 6 [100000; 100000; 100000; 50; 60; 70]%Z
           100000 3 eq_refl).
  reflexivity.
Defined.

Lemma occurrences_perm (w : Z) (l l' : list Z) :
  Permutation l l' -> occurrences w l' = occurrences w l.
Proof.
  intros H. unfold occurrences. f_equal.
  symmetry. revert w. now apply (Permutation_count_occ Z.eq_dec).
Qed.

(** X6.  The order of the outputs does not matter when one amount is more
    frequent than every other: [is_jm] gives the same answer on every
    rearrangement of the values. *)
Theorem is_jm_order_free (n_in n_out : Z) (values values' : list Z) (v : Z) :
  Permutation values values' ->
  (forall w, w <> v -> (occurrences w values < occurrences v values)%Z) ->
  is_jm n_in n_out values' = is_jm n_in n_out values.
Proof.
  intros Hp Hu.
  destruct values as [|x l].
  - apply Permutation_nil in Hp. now subst.
  - assert (Hne' : values' <> []).
    { intros ->. apply Permutation_sym, Permutation_nil in Hp. discriminate. }
    destruct (most_common_spec (x :: l) ltac:(discriminate))
      as (v1 & f1 & Hmc1 & Hv1 & Hf1 & Hmax1).
    destruct (most_common_spec values' Hne')
      as (v2 & f2 & Hmc2 & Hv2 & Hf2 & Hmax2).
    assert (E1 : v1 = v).
    { destruct (Z.eq_dec v1 v) as [E|E]; [assumption|].
      specialize (Hu v1 E). specialize (Hmax1 v). lia. }
    assert (E2 : v2 = v).
    { destruct (Z.eq_dec v2 v) as [E|E]; [assumption|].
      specialize (Hu v2 E). specialize (Hmax2 v).
      rewrite Hf2, 2 (occurrences_perm _ _ _ Hp) in Hmax2. lia. }
    assert (Ef : f2 = f1).
    { rewrite Hf1, Hf2, E1, E2. now apply occurrences_perm. }
    unfold is_jm. rewrite Hmc1, Hmc2, E1, E2, Ef. reflexivity.
Qed.

Lemma is_jm_order_free_witness :
  is_jm 5 6 (rev [100000; 100000; 100000; 50; 60; 70]%Z)
  = is_jm 5 6 [100000; 100000; 100000; 50; 60; 70]%Z.
Proof.
  apply (is_jm_order_free 5 6 [100000; 100000; 100000; 50; 60; 70]%Z
           (rev [100000; 100000; 100000; 50; 60; 70]%Z) 100000).
  - apply Permutation_rev.
  - intros w Hw. unfold occurrences. cbn [count_occ].
    repeat match goal with
           | |- context [Z.eq_dec ?a ?b] => destruct (Z.eq_dec a b)
           end; lia.
Defined.

(* ================================================================= *)
(** ** The displayed form of a digest *)

Lemma hex_digit_inj (n m : N) :
  (n < 16)%N -> (m < 16)%N -> hex_digit n = hex_digit m -> n = m.
Proof.
  intros Hn Hm H.
  assert (U : forall k, (k < 16)%N ->
            (let c := N_of_ascii (hex_digit k) in
             if (c <? 58)%N then c - 48 else c - 87)%N = k).
  { intros k Hk.
    assert (Hc : (k = 0 \/ k = 1 \/ k = 2 \/ k = 3 \/ k = 4 \/ k = 5 \/ k = 6 \/
                  k = 7 \/ k = 8 \/ k = 9 \/ k = 10 \/ k = 11 \/ k = 12 \/
                  k = 13 \/ k = 14 \/ k = 15)%N) by lia.
    repeat (destruct Hc as [->|Hc]; [reflexivity|]). now subst. }
  rewrite <- (U n Hn), <- (U m Hm), H. reflexivity.
Qed.

Lemma hex_byte_inj (a b : byte) :
  hex_digit (Byte.to_N a / 16) = hex_digit (Byte.to_N b / 16) ->
  hex_digit (Byte.to_N a mod 16) = hex_digit (Byte.to_N b mod 16) ->
  a = b.
Proof.
  intros Hh Hl.
  pose proof (Byte.to_N_bounded a) as Ba. pose proof (Byte.to_N_bounded b) as Bb.
  assert (Hda : (Byte.to_N a / 16 < 16)%N)
    by (apply N.Div0.div_lt_upper_bound; lia).
  assert (Hdb : (Byte.to_N b / 16 < 16)%N)
    by (apply N.Div0.div_lt_upper_bound; lia).
  apply hex_digit_inj in Hh; [|assumption ..].
  apply hex_digit_inj in Hl; [|apply N.mod_upper_bound; lia ..].
  apply to_N_inj.
  rewrite (N.div_mod (Byte.to_N a) 16), (N.div_mod (Byte.to_N b) 16) by lia.
  now rewrite Hh, Hl.
Qed.

Lemma hex_inj (d1 d2 : bytes) : hex d1 = hex d2 -> d1 = d2.
Proof.
  revert d2; induction d1 as [|a r1 IH]; intros [|b r2] H;
    try discriminate; [reflexivity|].
  cbn [hex] in H. inversion H as [[Hh Hl Hr]].
  f_equal; [now apply hex_byte_inj|now apply IH].
Qed.

Lemma length_hex (d : bytes) : String.length (hex d) = 2 * List.length d.
Proof.
  induction d as [|b r IH]; [reflexivity|].
  cbn [hex String.length List.length]. rewrite IH. lia.
Qed.

(** X7.  The identifier shown for a digest has two characters for each byte,
    none of them a comma or white space, and two digests with the same
    identifier are the same digest. *)
Theorem format_hash_faithful (hash_ : bytes) :
  String.length (format_hash hash_) = 2 * List.length hash_ /\
  all_chars plain_char (format_hash hash_) = true /\
  (forall hash', format_hash hash' = format_hash hash_ -> hash' = hash_).
Proof.
  unfold format_hash. split; [|split].
  - now rewrite length_hex, length_rev.
  - apply hex_plain.
  - intros hash' H. apply hex_inj in H.
    rewrite <- (rev_involutive hash'), H. apply rev_involutive.
Qed.

(* ================================================================= *)
(** ** Decoding at a cursor *)

(** A transaction found by the loop over the widths was decoded by one of
    its passes, on a slice that holds it whole. *)
Lemma try_widths_success (sha256 : bytes -> bytes) (data : bytes) (cursor : N)
    (js : list N) (last : N) (t : tx_record) (L : N) :
  try_widths sha256 data cursor js last = (Some t, L) ->
  exists j,
    In j js /\
    parse_tx sha256 (slice data cursor (cursor + 1024 * 2 ^ j)) = Parsed t /\
    L = tx_size t /\ (L <= 1024 * 2 ^ j)%N /\ (cursor + L <= len data)%N.
Proof.
  revert last; induction js as [|j js IH]; intros last; [discriminate|].
  cbn [try_widths].
  destruct (parse_tx sha256 (slice data cursor (cursor + 1024 * 2 ^ j)))
    as [t0|e s] eqn:Ep.
  - intros H. inversion H; subst t0 L. clear H.
    exists j. split; [now left|]. split; [assumption|]. split; [reflexivity|].
    destruct (parse_tx_inv sha256 _ t Ep)
      as (f & _ & Hsz & Hlen & _).
    rewrite len_slice_to, len_slice in Hlen.
    assert (H6 : (6 <= tx_size t)%N).
    { destruct (parse_tx_inv sha256 _ t Ep) as (f' & Hf' & Hsz' & _).
      destruct (parse_fields_local _ [] f' Hf') as [Ho _]. lia. }
    lia.
  - intros H.
    assert (H' : exists last', try_widths sha256 data cursor js last' = (Some t, L))
      by (destruct s; eexists; exact H).
    destruct H' as [last' H'].
    destruct (IH last' H') as (j' & Hj' & Hrest).
    exists j'. split; [now right|assumption].
Qed.

Lemma set_locktime_twice (t : tx_record) (a b : N) :
  set_locktime (set_locktime t a) b = set_locktime t b.
Proof. reflexivity. Qed.

Lemma slice_whole {A : Type} (l : list A) (n : N) :
  (len l <= n)%N -> slice l 0 (0 + n) = l.
Proof.
  intros H. unfold slice. rewrite slice_from_0. apply slice_to_all. lia.
Qed.

(** X8.  The round trip of the decoder.  A transaction decoded at a cursor with
    consumed length [L] occupies [L] bytes of the data; decoded again from
    these bytes alone it has the same fields, the lock time being now the one
    of its own last four bytes; and from then on decoding the bytes consumed
    gives the same transaction again. *)
Theorem decode_round_trip (sha256 : bytes -> bytes) (data : bytes)
    (cursor : N) (t : tx_record) (L : N) :
  try_widths sha256 data cursor range_0_20 0 = (Some t, L) ->
  let own := slice data cursor (cursor + L) in
  let t' := set_locktime t (le_decode (last4 own)) in
  L = tx_size t /\ len own = L /\
  try_widths sha256 own 0 range_0_20 0 = (Some t', L) /\
  try_widths sha256 (slice own 0 (0 + L)) 0 range_0_20 0 = (Some t', L) /\
  version t' = version t /\ is_segwit t' = is_segwit t /\
  n_in t' = n_in t /\ n_out t' = n_out t /\ values t' = values t /\
  tx_size t' = tx_size t /\ txid t' = txid t /\ vsize t' = vsize t.
Proof.
  intros H own t'.
  destruct (try_widths_success _ _ _ _ _ _ _ H) as (j & _ & _ & HL & _ & Hfit).
  destruct (redecode_same_but_locktime sha256 data cursor range_0_20 0 0 t L H)
    as [_ H1].
  fold own in H1. fold t' in H1.
  assert (Hlen : len own = L).
  { subst own. rewrite len_slice. lia. }
  split; [assumption|]. split; [assumption|]. split; [assumption|].
  split; [|repeat split].
  destruct (redecode_same_but_locktime sha256 own 0 range_0_20 0 0 t' L H1)
    as [_ H2].
  rewrite (slice_whole own L) in * by lia.
  subst t'. now rewrite set_locktime_twice in H2.
Qed.

Lemma decode_round_trip_witness :
  exists t,
    try_widths toy_digest two_tx_data 1 range_0_20 0 = (Some t, 178%N) /\
    try_widths toy_digest (slice two_tx_data 1 (1 + 178)) 0 range_0_20 0
    = (Some (set_locktime t 7), 178%N).
Proof.
  eexists. split; [vm_compute; reflexivity|].
  apply (decode_round_trip toy_digest two_tx_data 1 _ 178 eq_refl).
Defined.

(** X9.  The lock time decoded for a transaction that ends where the data end,
    as the last transaction of a block does, is the one of its own last four
    bytes. *)
Theorem last_transaction_locktime (sha256 : bytes -> bytes) (data : bytes)
    (cursor : N) (js : list N) (last : N) (t : tx_record) (L : N) :
  try_widths sha256 data cursor js last = (Some t, L) ->
  (cursor + L)%N = len data ->
  locktime t = le_decode (last4 (slice data cursor (cursor + L))) /\
  decode_uint32 (last4 (slice data cursor (cursor + L))) = Ok (locktime t).
Proof.
  intros H Hend.
  destruct (try_widths_success _ _ _ _ _ _ _ H) as (j & _ & Hp & HL & Hw & _).
  destruct (parse_tx_locktime sha256 _ t Hp) as [Hl _].
  assert (E : slice data cursor (cursor + 1024 * 2 ^ j)
              = slice data cursor (cursor + L)).
  { unfold slice. repeat rewrite slice_to_all;
      try (rewrite len_slice_from; lia). reflexivity. }
  rewrite E in Hl. split; [assumption|].
  apply decode_uint32_ok. split; [|assumption].
  rewrite len_last4, len_slice.
  destruct (parse_tx_inv sha256 _ t Hp) as (f & Hf & Hsz & _).
  destruct (parse_fields_local _ [] f Hf) as [Ho _]. lia.
Qed.

Lemma last_transaction_locktime_witness :
  exists t,
    try_widths toy_digest two_tx_data 179 range_0_20 0 = (Some t, 60%N) /\
    locktime t = 9%N /\
    decode_uint32 (last4 (slice two_tx_data 179 (179 + 60))) = Ok 9%N.
Proof.
  eexists. split; [vm_compute; reflexivity|].
  destruct (last_transaction_locktime toy_digest two_tx_data 179 range_0_20 0
              _ 60 eq_refl eq_refl) as [H1 H2].
  split; [reflexivity|exact H2].
Defined.

Lemma parse_tx_witness_offsets (sha256 : bytes -> bytes) (tx : bytes)
    (t : tx_record) :
  parse_tx sha256 tx = Parsed t -> is_segwit t = true ->
  (6 <= offset_before_tx_witnesses t)%N /\
  (offset_before_tx_witnesses t + 4 <= tx_size t)%N.
Proof.
  intros Hp Hs.
  destruct (parse_tx_inv sha256 tx t Hp)
    as (f & Hf & Hsz & _ & _ & _ & Hseg & _ & _ & _ & Hoff & _).
  rewrite Hseg in Hs. rewrite Hsz, Hoff.
  rewrite parse_fields_phases in Hf.
  destruct (decode_uint32 (slice_to tx 4)) as [ver|e]; [|discriminate].
  destruct (decode_uint32 (last4 tx)) as [lock|e]; [|discriminate].
  cbn [bind] in Hf.
  destruct (parse_body tx) as [[[[[sw n] m] vals] o]|e] eqn:Eb; [|discriminate].
  cbn [bind] in Hf.
  destruct (parse_body_local tx [] _ _ _ _ _ Eb) as [Ho _].
  destruct sw.
  - destruct (for_range n (parse_witness tx) o) as [o'|e] eqn:Ew;
      [|discriminate].
    cbn [bind] in Hf. apply Ok_inj in Hf. subst f. cbn.
    destruct (for_range_local (fun x => x) (agree tx [])
                (parse_witness tx) (parse_witness [])
                (agree_le tx []) (parse_witness_local tx []) _ _ _ Ew)
      as [Hle _].
    lia.
  - apply Ok_inj in Hf. subst f. discriminate.
Qed.

(** X10.  The virtual size of a decoded witness transaction lies strictly between
    its stripped size and its byte length. *)
Theorem witness_vsize_between (sha256 : bytes -> bytes) (tx : bytes)
    (t : tx_record) :
  parse_tx sha256 tx = Parsed t -> is_segwit t = true ->
  let total := Z.of_N (tx_size t) in
  let before := Z.of_N (offset_before_tx_witnesses t) in
  (0 <= witness_size total before)%Z /\
  (8 <= stripped_size total before)%Z /\
  (stripped_size total before < vsize t < total)%Z.
Proof.
  intros Hp Hs total before.
  destruct (parse_tx_witness_offsets sha256 tx t Hp Hs) as [H6 H4].
  rewrite (parse_tx_vsize sha256 tx t Hp), Hs. unfold virtual_size. cbn [negb].
  pose proof (ceil_div4_bounds (weight total before)) as Hc.
  unfold weight, stripped_size, witness_size in *. subst total before. lia.
Qed.

Lemma witness_vsize_between_witness :
  exists t,
    parse_tx toy_digest (witness_tx [x02; x01; xaa; x02; xbb; xcc] 7) = Parsed t /\
    (stripped_size 68 58 < vsize t < 68)%Z.
Proof.
  eexists. split; [vm_compute; reflexivity|].
  apply (witness_vsize_between toy_digest
           (witness_tx [x02; x01; xaa; x02; xbb; xcc] 7) _ eq_refl eq_refl).
Defined.

(* ================================================================= *)
(** ** The heights of a run *)

Lemma range_In (a b h : Z) : In h (range a b) <-> (a <= h < b)%Z.
Proof.
  unfold range. rewrite in_map_iff. split.
  - intros (k & <- & Hk). apply in_seq in Hk. lia.
  - intros H. exists (Z.to_nat (h - a)). split; [lia|].
    apply in_seq. lia.
Qed.

Lemma range_length (a b : Z) : List.length (range a b) = Z.to_nat (b - a).
Proof. unfold range. now rewrite length_map, length_seq. Qed.

Lemma range_shift (a b : Z) (s : nat) :
  (a + Z.of_nat s = b)%Z ->
  forall n o,
    map (fun k => (a + Z.of_nat k)%Z) (seq (s + o) n)
    = map (fun k => (b + Z.of_nat k)%Z) (seq o n).
Proof.
  intros E n. induction n as [|n IH]; intros o; [reflexivity|].
  cbn [seq map]. f_equal; [lia|].
  replace (S (s + o)) with (s + S o)%nat by lia. apply IH.
Qed.

Lemma range_split (a b c : Z) :
  (a <= b <= c)%Z -> range a c = range a b ++ range b c.
Proof.
  intros H. unfold range.
  replace (Z.to_nat (c - a)) with (Z.to_nat (b - a) + Z.to_nat (c - b))%nat
    by lia.
  rewrite seq_app, map_app. f_equal. cbn [Nat.add].
  rewrite <- (Nat.add_0_r (Z.to_nat (b - a))).
  apply range_shift. lia.
Qed.

(** X11.  The heights a run scans, from its two arguments: from [start] to [end]
    inclusive, in ascending order; [end] left at 0 stands for the height of
    the chain, and a negative [start] for that many heights up to the end. *)
Theorem scanned_heights_are (args_start args_end : Z) (info : chain_info) :
  let end_block := if (args_end =? 0)%Z then blocks info else args_end in
  let start_block :=
    if (args_start <? 0)%Z then (end_block + args_start + 1)%Z else args_start in
  (forall h, In h (scanned_heights args_start args_end info) <->
             (start_block <= h <= end_block)%Z) /\
  List.length (scanned_heights args_start args_end info)
  = Z.to_nat (end_block + 1 - start_block) /\
  ((args_start < 0)%Z ->
   List.length (scanned_heights args_start args_end info)
   = Z.to_nat (- args_start)) /\
  Sorted Z.lt (scanned_heights args_start args_end info).
Proof.
  cbv zeta. unfold scanned_heights, end_block_of, start_block_of.
  set (e := if negb (args_end =? 0)%Z then args_end else blocks info).
  assert (Ee : (if (args_end =? 0)%Z then blocks info else args_end) = e)
    by (subst e; now destruct (args_end =? 0)%Z).
  rewrite Ee.
  set (s := if (args_start <? 0)%Z then (e - Z.abs args_start + 1)%Z
            else args_start).
  assert (Es : (if (args_start <? 0)%Z then (e + args_start + 1)%Z
                else args_start) = s).
  { subst s. destruct (Z.ltb_spec args_start 0); lia. }
  rewrite Es.
  split; [|split; [|split]].
  - intros h. rewrite range_In. lia.
  - apply range_length.
  - intros Hn. rewrite range_length. subst s.
    destruct (Z.ltb_spec args_start 0); lia.
  - unfold range. generalize (Z.to_nat (e + 1 - s)) as n. intros n.
    generalize 0%nat as o. induction n as [|n IH]; intros o; [constructor|].
    cbn [seq map]. constructor; [apply IH|].
    destruct n; cbn [seq map]; constructor. lia.
Qed.

(* ================================================================= *)
(** ** The loop over the transactions of a block *)

Lemma block_loop_succ (sha256 : bytes -> bytes) (height : Z) (block : bytes)
    (k offset : N) (found : list string) :
  block_loop sha256 height block (N.succ k) offset found
  = tx_turn sha256 height (slice_from block 80)
            (block_loop sha256 height block k offset found).
Proof. unfold block_loop. now rewrite N.iter_succ. Qed.

Lemma block_loop_count (sha256 : bytes -> bytes) (height : Z) (block : bytes)
    (offset : N) (found : list string) (k : N) :
  i (block_loop sha256 height block k offset found) = k /\
  (processed_txs (block_loop sha256 height block k offset found) <= k)%N /\
  (processed_txs (block_loop sha256 height block k offset found) = k <->
   forall j, (j < k)%N -> turn_decodes sha256 height block offset found j).
Proof.
  induction k as [|k (Hi & Hle & Hiff)] using N.peano_ind.
  - cbn. split; [reflexivity|]. split; [lia|]. split; [lia|reflexivity].
  - rewrite block_loop_succ.
    assert (Hd : turn_decodes sha256 height block offset found k \/
                 ~ turn_decodes sha256 height block offset found k).
    { unfold turn_decodes.
      destruct (fst (try_widths _ _ _ _ _)); [left; discriminate|right; tauto]. }
    unfold turn_decodes in Hd at 1 2. unfold tx_turn.
    destruct (try_widths sha256 (slice_from block 80)
                (block_offset (block_loop sha256 height block k offset found))
                range_0_20 0) as [[t|] size] eqn:Et; cbn [fst] in Hd; cbn.
    + split; [lia|]. split; [lia|]. split.
      * intros E.
        assert (E' : processed_txs
                       (block_loop sha256 height block k offset found) = k)
          by lia.
        pose proof (proj1 Hiff E') as Hall.
        intros j Hj. destruct (N.eq_dec j k) as [->|Hne].
        -- unfold turn_decodes. rewrite Et. cbn [fst]. discriminate.
        -- apply Hall. lia.
      * intros H.
        assert (E' : processed_txs
                       (block_loop sha256 height block k offset found) = k).
        { apply (proj2 Hiff). intros j Hj. apply H. lia. }
        lia.
    + split; [lia|]. split; [lia|]. split; [lia|].
      intros H. exfalso. specialize (H k ltac:(lia)).
      unfold turn_decodes in H. rewrite Et in H. apply H. reflexivity.
Qed.

(** X12.  A block goes through exactly when each of the turns of its loop, as
    many as the count it declares, decodes a transaction; a turn that decodes
    nothing is never made up for, and the run ends with [sys.exit(FAILURE)]. *)
Theorem block_complete_iff (sha256 : bytes -> bytes) (height : Z)
    (block : bytes) (found : list string) (n_txs offset : N) :
  decode_varint (slice_from block 80) = Ok (n_txs, offset) ->
  ((forall j, (j < n_txs)%N ->
              turn_decodes sha256 height block offset found j) ->
   scan_block sha256 height block found
   = inr (results (block_loop sha256 height block n_txs offset found))) /\
  (forall j, (j < n_txs)%N ->
             ~ turn_decodes sha256 height block offset found j ->
             scan_block sha256 height block found = inl (Exited FAILURE)) /\
  (processed_txs (block_loop sha256 height block n_txs offset found) <= n_txs)%N.
Proof.
  intros Hd.
  destruct (block_loop_count sha256 height block offset found n_txs)
    as (_ & Hle & Hiff).
  split; [|split; [|assumption]].
  - intros Hall. unfold scan_block. rewrite Hd.
    fold (block_loop sha256 height block n_txs offset found).
    rewrite (proj2 Hiff Hall), N.eqb_refl. reflexivity.
  - intros j Hj Hn.
    apply (scan_block_incomplete sha256 height block found n_txs offset Hd).
    intros E. apply Hn. exact (proj1 Hiff E j Hj).
Qed.

Lemma block_complete_iff_witness :
  scan_block toy_digest 700000 short_block [] = inl (Exited FAILURE).
Proof.
  destruct (block_complete_iff toy_digest 700000 short_block [] 10 1 eq_refl)
    as (_ & H & _).
  apply (H 9%N); [lia|]. vm_compute. tauto.
Defined.

(* ================================================================= *)
(** ** The fields of a result line *)

Lemma split_fields_plain (sep : ascii) (a : string) :
  all_chars (fun c => negb (c =? sep)%char) a = true ->
  split_fields sep a = (a, []).
Proof.
  induction a as [|c a IH]; simpl; [reflexivity|].
  intros H. apply andb_true_iff in H as [Hc Ha]. rewrite (IH Ha).
  apply negb_true_iff in Hc. now rewrite Hc.
Qed.

Lemma split_candidate_line (hash_ : bytes) (height : Z) (i : N) :
  split comma (candidate_line (format_hash hash_) height i)
  = [format_hash hash_; str_of_Z height; str_of_N i].
Proof.
  unfold candidate_line, split, format_hash.
  change ((hex (rev hash_) ++ "," ++ str_of_Z height ++ "," ++ str_of_N i)%string)
    with ((hex (rev hash_)
           ++ String comma (str_of_Z height ++ String comma (str_of_N i)))%string).
  rewrite (split_fields_app comma _ _ (plain_no_comma _ (hex_plain _))).
  unfold split.
  rewrite (split_fields_app comma _ _ (plain_no_comma _ (str_of_Z_plain _))).
  unfold split.
  now rewrite (split_fields_plain comma _ (plain_no_comma _ (str_of_N_plain _))).
Qed.

Lemma to_uint_nonnil (n : N) : N.to_uint n <> Decimal.Nil.
Proof.
  destruct n as [|p]; [discriminate|].
  apply DecimalPos.Unsigned.to_uint_nonnil.
Qed.

Lemma str_of_N_inj (n m : N) : str_of_N n = str_of_N m -> n = m.
Proof.
  unfold str_of_N. intros E.
  apply (f_equal NilZero.uint_of_string) in E.
  rewrite 2 NilZero.usu in E by apply to_uint_nonnil.
  apply DecimalN.Unsigned.to_uint_inj. congruence.
Qed.

Lemma str_of_Z_inj (n m : Z) : str_of_Z n = str_of_Z m -> n = m.
Proof.
  assert (Hn : forall z, Z.to_int z <> Decimal.Pos Decimal.Nil /\
                         Z.to_int z <> Decimal.Neg Decimal.Nil).
  { intros [|p|p]; split; try discriminate; cbn; intros E;
      inversion E as [E']; now apply DecimalPos.Unsigned.to_uint_nonnil in E'. }
  unfold str_of_Z. intros E.
  apply (f_equal NilZero.int_of_string) in E.
  rewrite 2 NilZero.isi in E by apply Hn.
  apply DecimalZ.to_int_inj. congruence.
Qed.

(** X13.  A result line has three fields between commas, the identifier, the
    height and the index in the block; the line tells the three: two lines
    are the same only for the same hash, height and index. *)
Theorem candidate_line_fields (hash_ : bytes) (height : Z) (i : N) :
  split comma (candidate_line (format_hash hash_) height i)
  = [format_hash hash_; str_of_Z height; str_of_N i] /\
  forall hash' height' i',
    candidate_line (format_hash hash_) height i
    = candidate_line (format_hash hash') height' i' ->
    hash' = hash_ /\ height' = height /\ i' = i.
Proof.
  split; [apply split_candidate_line|].
  intros hash' height' i' E.
  apply (f_equal (split comma)) in E.
  rewrite 2 split_candidate_line in E.
  inversion E as [[Eh Ez En]].
  split; [|split].
  - unfold format_hash in Eh. apply hex_inj in Eh.
    apply (f_equal (@rev byte)) in Eh. now rewrite 2 rev_involutive in Eh.
  - symmetry. now apply str_of_Z_inj.
  - symmetry. now apply str_of_N_inj.
Qed.

Lemma candidate_line_inj (hash_ hash' : bytes) (height height' : Z) (i i' : N) :
  candidate_line (format_hash hash_) height i
  = candidate_line (format_hash hash') height' i' ->
  height = height' /\ i = i'.
Proof.
  intros E. apply (f_equal (split comma)) in E.
  rewrite 2 split_candidate_line in E.
  inversion E as [[Eh Ez En]].
  split; [now apply str_of_Z_inj|now apply str_of_N_inj].
Qed.

(* ================================================================= *)
(** ** What a scan finds, line by line *)

Lemma block_loop_lines (sha256 : bytes -> bytes) (height : Z) (block : bytes)
    (offset : N) (k : N) :
  i (block_loop sha256 height block k offset []) = k /\
  NoDup (results (block_loop sha256 height block k offset [])) /\
  forall x, In x (results (block_loop sha256 height block k offset [])) ->
    exists hash_ j, (j < k)%N /\ x = candidate_line (format_hash hash_) height j.
Proof.
  induction k as [|k (Hi & Hnd & Hx)] using N.peano_ind.
  - cbn. split; [reflexivity|]. split; [constructor|]. intros x [].
  - rewrite block_loop_succ. unfold tx_turn.
    destruct (try_widths sha256 (slice_from block 80)
                (block_offset (block_loop sha256 height block k offset []))
                range_0_20 0) as [[t|] size] eqn:Et; cbn.
    + assert (Hold : forall x,
                In x (results (block_loop sha256 height block k offset [])) ->
                exists hash_ j, (j < N.succ k)%N /\
                                x = candidate_line (format_hash hash_) height j).
      { intros x H. destruct (Hx x H) as (hs & j & Hj & ->).
        exists hs, j. split; [lia|reflexivity]. }
      split; [lia|].
      destruct (0 <? most_common_value t)%Z; [|now split].
      destruct (try_widths_txid sha256 _ _ _ _ _ _ Et) as (hs & Eh).
      rewrite Eh, Hi. split.
      * apply NoDup_app; [assumption|repeat constructor; intros []|].
        intros x H [<-|[]].
        destruct (Hx _ H) as (hs' & j & Hj & E).
        apply candidate_line_inj in E. lia.
      * intros x H. apply in_app_iff in H as [H|[<-|[]]]; [now apply Hold|].
        exists hs, k. split; [lia|reflexivity].
    + split; [lia|]. split; [assumption|].
      intros x H. destruct (Hx x H) as (hs & j & Hj & ->).
      exists hs, j. split; [lia|reflexivity].
Qed.

Lemma scan_block_lines (sha256 : bytes -> bytes) (height : Z) (block : bytes)
    (r : list string) :
  scan_block sha256 height block [] = inr r ->
  exists n_txs offset,
    decode_varint (slice_from block 80) = Ok (n_txs, offset) /\
    NoDup r /\
    forall x, In x r ->
      exists hash_ j, (j < n_txs)%N /\
                      x = candidate_line (format_hash hash_) height j.
Proof.
  unfold scan_block.
  destruct (decode_varint (slice_from block 80)) as [[n_txs offset]|e];
    [|discriminate].
  fold (block_loop sha256 height block n_txs offset []).
  destruct (negb _); [discriminate|].
  intros H. inversion H; subst. exists n_txs, offset.
  split; [reflexivity|].
  now destruct (block_loop_lines sha256 height block offset n_txs) as (_ & ? & ?).
Qed.

Lemma scan_cons (sha256 : bytes -> bytes) (fetch_block : Z -> option bytes)
    (h : Z) (rest : list Z) (found : list string) :
  scan sha256 fetch_block (h :: rest) [] = inr found ->
  exists block r found',
    fetch_block h = Some block /\
    scan_block sha256 h block [] = inr r /\
    scan sha256 fetch_block rest [] = inr found' /\
    found = r ++ found'.
Proof.
  cbn [scan]. destruct (fetch_block h) as [block|] eqn:Ef; [|discriminate].
  destruct (scan_block sha256 h block []) as [o|r] eqn:Eb; [discriminate|].
  rewrite scan_prepend.
  destruct (scan sha256 fetch_block rest []) as [o|found'] eqn:Er;
    [discriminate|].
  intros H. inversion H; subst. exists block, r, found'.
  repeat split; assumption || reflexivity.
Qed.

Lemma scan_lines_shape (sha256 : bytes -> bytes)
    (fetch_block : Z -> option bytes) (heights : list Z) (found : list string) :
  scan sha256 fetch_block heights [] = inr found ->
  (forall x, In x found ->
     exists h block n_txs offset hash_ j,
       In h heights /\ fetch_block h = Some block /\
       decode_varint (slice_from block 80) = Ok (n_txs, offset) /\
       (j < n_txs)%N /\
       x = candidate_line (format_hash hash_) h j /\
       height_key x = Ok (str_of_Z h)) /\
  (NoDup heights -> NoDup found).
Proof.
  revert found. induction heights as [|h rest IH]; intros found Hs.
  - cbn in Hs. inversion Hs; subst. split; [intros x []|constructor].
  - destruct (scan_cons _ _ _ _ _ Hs) as (block & r & found' & Hf & Hb & Hr & ->).
    destruct (IH _ Hr) as (IHx & IHnd).
    destruct (scan_block_lines _ _ _ _ Hb) as (n_txs & offset & Hd & Hnd & Hx).
    split.
    + intros x H. apply in_app_iff in H as [H|H].
      * destruct (Hx x H) as (hs & j & Hj & ->).
        exists h, block, n_txs, offset, hs, j.
        repeat split; try assumption; [now left|].
        apply height_key_candidate_line.
      * destruct (IHx x H) as (h' & b' & n' & o' & hs & j & Hin & ?).
        exists h', b', n', o', hs, j. split; [now right|assumption].
    + intros Hh. inversion Hh as [|? ? Hnotin Hrest]; subst.
      apply NoDup_app; [assumption|now apply IHnd|].
      intros x H1 H2.
      destruct (Hx x H1) as (hs & j & _ & E1).
      destruct (IHx x H2) as (h' & _ & _ & _ & hs' & j' & Hin & _ & _ & _ & E2 & _).
      rewrite E1 in E2. apply candidate_line_inj in E2 as [-> _].
      now apply Hnotin.
Qed.

(** The lines the loop over a block has found after [k] turns: one for each
    turn that decoded a transaction with a positive amount. *)
Lemma block_loop_results (sha256 : bytes -> bytes) (height : Z)
    (block : bytes) (offset : N) (k : N) (x : string) :
  In x (results (block_loop sha256 height block k offset [])) <->
  exists j t,
    (j < k)%N /\
    turn_transaction sha256 height block offset j = Some t /\
    (0 < most_common_value t)%Z /\
    x = candidate_line (txid t) height j.
Proof.
  induction k as [|k IH] using N.peano_ind.
  - cbn. split; [intros []|]. intros (j & t & Hj & _). lia.
  - destruct (block_loop_lines sha256 height block offset k) as (Hi & _ & _).
    rewrite block_loop_succ. unfold tx_turn.
    destruct (try_widths sha256 (slice_from block 80)
                (block_offset (block_loop sha256 height block k offset []))
                range_0_20 0) as [found L] eqn:Et.
    assert (Ek : turn_transaction sha256 height block offset k = found)
      by (unfold turn_transaction; rewrite Et; reflexivity).
    assert (Hold : (exists j t,
                      (j < k)%N /\
                      turn_transaction sha256 height block offset j = Some t /\
                      (0 < most_common_value t)%Z /\
                      x = candidate_line (txid t) height j) ->
                   exists j t,
                     (j < N.succ k)%N /\
                     turn_transaction sha256 height block offset j = Some t /\
                     (0 < most_common_value t)%Z /\
                     x = candidate_line (txid t) height j).
    { intros (j & t & Hj & H). exists j, t. split; [lia|assumption]. }
    assert (Hlast : forall j t,
               (j < N.succ k)%N ->
               turn_transaction sha256 height block offset j = Some t ->
               (j < k)%N \/ (j = k /\ found = Some t)).
    { intros j t Hj Ht. destruct (N.eq_dec j k) as [->|Hne]; [|left; lia].
      right. split; [reflexivity|congruence]. }
    destruct found as [t|]; cbn [results].
    + destruct (0 <? most_common_value t)%Z eqn:Em.
      * rewrite in_app_iff, IH. split.
        -- intros [H|[<-|[]]]; [now apply Hold|].
           exists k, t. rewrite Hi. apply Z.ltb_lt in Em.
           split; [lia|]. split; [assumption|]. split; [assumption|reflexivity].
        -- intros (j & t' & Hj & Ht & Hm & ->).
           destruct (Hlast j t' Hj Ht) as [Hlt|[-> E]].
           ++ left. exists j, t'. repeat split; assumption.
           ++ right. left. inversion E; subst t'. rewrite Hi. reflexivity.
      * rewrite IH. split; [apply Hold|].
        intros (j & t' & Hj & Ht & Hm & ->).
        destruct (Hlast j t' Hj Ht) as [Hlt|[-> E]];
          [exists j, t'; repeat split; assumption|].
        inversion E; subst t'. apply Z.ltb_ge in Em. lia.
    + rewrite IH. split; [apply Hold|].
      intros (j & t' & Hj & Ht & Hm & ->).
      destruct (Hlast j t' Hj Ht) as [Hlt|[_ E]];
        [exists j, t'; repeat split; assumption|].
      discriminate.
Qed.

Lemma scan_block_results (sha256 : bytes -> bytes) (height : Z)
    (block : bytes) (r : list string) :
  scan_block sha256 height block [] = inr r ->
  exists n_txs offset,
    decode_varint (slice_from block 80) = Ok (n_txs, offset) /\
    r = results (block_loop sha256 height block n_txs offset []).
Proof.
  unfold scan_block.
  destruct (decode_varint (slice_from block 80)) as [[n_txs offset]|e];
    [|discriminate].
  fold (block_loop sha256 height block n_txs offset []).
  destruct (negb _); [discriminate|].
  intros H. inversion H; subst. now exists n_txs, offset.
Qed.

Lemma slice_to_slice (data : bytes) (cursor w L : N) :
  (L <= w)%N ->
  slice_to (slice data cursor (cursor + w)) L = slice data cursor (cursor + L).
Proof.
  intros H. unfold slice. rewrite slice_to_slice_to.
  f_equal. lia.
Qed.

(** What a turn decodes is the transaction at its cursor: the identifier
    is the one of the bytes from the cursor on, as many as the size decoded,
    and the amount and the number of equal outputs are what [is_jm] finds in
    its counts and values. *)
Lemma turn_transaction_bytes (sha256 : bytes -> bytes) (height : Z)
    (block : bytes) (offset : N) (j : N) (t : tx_record) :
  turn_transaction sha256 height block offset j = Some t ->
  let data := slice_from block 80 in
  let cursor := block_offset (block_loop sha256 height block j offset []) in
  (cursor + tx_size t <= len data)%N /\
  txid t = format_hash
             (double_sha256 sha256
                (txid_data_of (is_segwit t)
                   (slice data cursor (cursor + tx_size t))
                   (offset_before_tx_witnesses t))) /\
  is_jm (Z.of_N (n_in t)) (Z.of_N (n_out t)) (map Z.of_N (values t))
  = Ok (most_common_value t, equal_outs t).
Proof.
  unfold turn_transaction. cbv zeta.
  destruct (try_widths sha256 (slice_from block 80)
              (block_offset (block_loop sha256 height block j offset []))
              range_0_20 0) as [found L] eqn:Et.
  cbn [fst]. intros ->.
  destruct (try_widths_success sha256 _ _ _ _ _ _ Et)
    as (w & _ & Hp & -> & Hw & Hin).
  destruct (parse_tx_inv sha256 _ t Hp)
    as (f & _ & _ & _ & _ & _ & _ & _ & _ & _ & _ & Htx & Hjm).
  split; [assumption|]. split; [|assumption].
  now rewrite slice_to_slice in Htx.
Qed.

(** X14.  The lines of a scan that goes through are exactly these: for
    each scanned height and each turn of the loop over its block that
    decodes a transaction for which [is_jm] gives a positive amount, the line
    [txid,height,index] of that transaction, where the identifier is the one
    of the bytes the turn decoded.  The sort key of each line is its height
    in decimal; over heights that are all different, no line comes twice. *)
Theorem scan_lines_distinct (sha256 : bytes -> bytes)
    (fetch_block : Z -> option bytes) (heights : list Z) (found : list string) :
  scan sha256 fetch_block heights [] = inr found ->
  (forall x, In x found <->
     exists h block n_txs offset j t,
       In h heights /\ fetch_block h = Some block /\
       decode_varint (slice_from block 80) = Ok (n_txs, offset) /\
       (j < n_txs)%N /\
       turn_transaction sha256 h block offset j = Some t /\
       (0 < most_common_value t)%Z /\
       x = candidate_line (txid t) h j) /\
  (forall h block offset j t,
     turn_transaction sha256 h block offset j = Some t ->
     let data := slice_from block 80 in
     let cursor := block_offset (block_loop sha256 h block j offset []) in
     (cursor + tx_size t <= len data)%N /\
     txid t = format_hash
                (double_sha256 sha256
                   (txid_data_of (is_segwit t)
                      (slice data cursor (cursor + tx_size t))
                      (offset_before_tx_witnesses t))) /\
     is_jm (Z.of_N (n_in t)) (Z.of_N (n_out t)) (map Z.of_N (values t))
     = Ok (most_common_value t, equal_outs t)) /\
  (forall x, In x found ->
     exists h, In h heights /\ height_key x = Ok (str_of_Z h)) /\
  (NoDup heights -> NoDup found).
Proof.
  intros Hs.
  destruct (scan_found sha256 fetch_block heights found Hs) as (_ & Hmem).
  destruct (scan_lines_shape sha256 fetch_block heights found Hs)
    as (Hshape & Hnd).
  split; [|split; [|split; [|assumption]]].
  - intros x. rewrite Hmem. split.
    + intros (h & block & r & Hh & Hf & Hb & Hx).
      destruct (scan_block_results sha256 h block r Hb)
        as (n_txs & offset & Hd & ->).
      apply block_loop_results in Hx as (j & t & Hj & Ht & Hm & ->).
      exists h, block, n_txs, offset, j, t.
      repeat split; assumption.
    + intros (h & block & n_txs & offset & j & t
              & Hh & Hf & Hd & Hj & Ht & Hm & ->).
      destruct (proj1 (scan_found sha256 fetch_block heights found Hs) h Hh)
        as (block' & r & Hf' & Hb).
      assert (block' = block) by congruence. subst block'.
      destruct (scan_block_results sha256 h block r Hb)
        as (n' & o' & Hd' & ->).
      assert (E : (n', o') = (n_txs, offset)) by congruence.
      inversion E; subst n' o'.
      exists h, block, (results (block_loop sha256 h block n_txs offset [])).
      repeat split; try assumption.
      apply block_loop_results. exists j, t.
      repeat split; assumption.
  - intros h block offset j t. apply turn_transaction_bytes.
  - intros x Hx.
    destruct (Hshape x Hx) as (h & _ & _ & _ & _ & _ & Hh & _ & _ & _ & _ & Hk).
    now exists h.
Qed.

Lemma scan_lines_distinct_witness :
  scan toy_digest two_height_chain [99999%Z; 100000%Z] []
  = inr ["00d414a0,99999,0"%string; "00d414a0,100000,0"%string] /\
  (forall x, In x ["00d414a0,99999,0"%string; "00d414a0,100000,0"%string] ->
     exists h, In h [99999%Z; 100000%Z] /\ height_key x = Ok (str_of_Z h)) /\
  NoDup ["00d414a0,99999,0"%string; "00d414a0,100000,0"%string].
Proof.
  assert (Hs : scan toy_digest two_height_chain [99999%Z; 100000%Z] []
               = inr ["00d414a0,99999,0"%string; "00d414a0,100000,0"%string])
    by (vm_compute; reflexivity).
  split; [exact Hs|].
  destruct (scan_lines_distinct toy_digest two_height_chain
              [99999%Z; 100000%Z] _ Hs) as (_ & _ & Hk & Hnd).
  split; [exact Hk|].
  apply Hnd. repeat constructor; simpl; intuition discriminate.
Defined.

(** X15.  A scan of a range of heights finds what a scan of its lower part and a
    scan of its upper part find, in this order; it stops where the first of
    the two that stops does, and in the same way. *)
Theorem scan_in_two_runs (sha256 : bytes -> bytes)
    (fetch_block : Z -> option bytes) (a b c : Z) :
  (a <= b <= c)%Z ->
  scan sha256 fetch_block (range a c) [] =
  match scan sha256 fetch_block (range a b) [] with
  | inl o => inl o
  | inr lower =>
      match scan sha256 fetch_block (range b c) [] with
      | inl o => inl o
      | inr upper => inr (lower ++ upper)
      end
  end.
Proof.
  intros H. rewrite (range_split a b c H), scan_app.
  destruct (scan sha256 fetch_block (range a b) []) as [o|lower];
    [reflexivity|].
  apply scan_prepend.
Qed.

Lemma scan_in_two_runs_witness :
  scan toy_digest two_height_chain (range 99999 100001) [] =
  match scan toy_digest two_height_chain (range 99999 100000) [] with
  | inl o => inl o
  | inr lower =>
      match scan toy_digest two_height_chain (range 100000 100001) [] with
      | inl o => inl o
      | inr upper => inr (lower ++ upper)
      end
  end.
Proof. apply (scan_in_two_runs toy_digest two_height_chain); lia. Defined.

(* ================================================================= *)
(** ** Bytes after the last transaction of a block *)

Lemma slice_app_prefix {A : Type} (l1 l2 : list A) (a b : N) :
  exists z, slice (l1 ++ l2) a b = slice l1 a b ++ z /\
            ((b <= len l1)%N -> z = []).
Proof.
  rewrite 2 slice_firstn_skipn, skipn_app, firstn_app.
  eexists. split; [reflexivity|].
  intros Hb. unfold len in Hb.
  replace (N.to_nat (b - a) - List.length (skipn (N.to_nat a) l1))%nat
    with 0%nat; [reflexivity|].
  rewrite length_skipn. lia.
Qed.

Lemma slice_to_app_prefix {A : Type} (l1 l2 : list A) (n : N) :
  (n <= len l1)%N -> slice_to (l1 ++ l2) n = slice_to l1 n.
Proof.
  intros H. rewrite 2 slice_to_firstn, firstn_app. unfold len in H.
  replace (N.to_nat n - List.length l1)%nat with 0%nat by lia.
  cbn [firstn]. apply app_nil_r.
Qed.

Lemma slice_from_app_prefix {A : Type} (l1 l2 : list A) (a : N) :
  exists z, slice_from (l1 ++ l2) a = slice_from l1 a ++ z.
Proof. rewrite 2 slice_from_skipn, skipn_app. now eexists. Qed.

(** Past the end of the data every width gives the same slice. *)
Lemma slice_beyond {A : Type} (l : list A) (a w w' : N) :
  (len l < a + w)%N -> (w <= w')%N ->
  slice l a (a + w') = slice l a (a + w).
Proof.
  intros H Hw. rewrite 2 slice_firstn_skipn. unfold len in H.
  rewrite 2 firstn_all2; [reflexivity| |]; rewrite length_skipn; lia.
Qed.

Lemma try_widths_all_fail (sha256 : bytes -> bytes) (data : bytes)
    (cursor : N) (s : bytes) (e : exn) (so : option N) (js : list N) :
  parse_tx sha256 s = Failed e so ->
  Forall (fun j => slice data cursor (cursor + 1024 * 2 ^ j) = s) js ->
  forall last, fst (try_widths sha256 data cursor js last) = None.
Proof.
  intros Hp H. induction H as [|j js Hj _ IH]; intros last; [reflexivity|].
  cbn [try_widths]. rewrite Hj, Hp. destruct so; apply IH.
Qed.

Lemma seq_increasing (n a : nat) :
  StronglySorted N.le (map N.of_nat (seq a n)).
Proof.
  revert a. induction n as [|n IH]; intros a; cbn [seq map]; constructor;
    [apply IH|].
  apply Forall_forall. intros j Hj.
  apply in_map_iff in Hj as (k & <- & Hk). apply in_seq in Hk. lia.
Qed.

Lemma range_0_20_increasing : StronglySorted N.le range_0_20.
Proof. apply seq_increasing. Qed.

(** A transaction found at a cursor is found there, with the same length,
    identifier and values, when bytes are added after the data; only the lock
    time, read at the end of the slice, may be another one. *)
Lemma try_widths_extend (sha256 : bytes -> bytes) (data extra : bytes)
    (cursor : N) (js : list N) :
  StronglySorted N.le js ->
  forall (last : N) (t : tx_record) (L : N),
    try_widths sha256 data cursor js last = (Some t, L) ->
    exists lock,
      try_widths sha256 (data ++ extra) cursor js last
      = (Some (set_locktime t lock), L).
Proof.
  intros Hs. induction Hs as [|j js Hs IH Hle]; intros last t L;
    [discriminate|].
  cbn [try_widths].
  destruct (slice_app_prefix data extra cursor (cursor + 1024 * 2 ^ j))
    as (z & Ez & Hz).
  destruct (parse_tx sha256 (slice data cursor (cursor + 1024 * 2 ^ j)))
    as [t0|e so] eqn:Ep.
  - intros H. inversion H; subst t0 L. clear H.
    destruct (parse_tx_inv sha256 _ t Ep) as (f & _ & _ & Hlen & _).
    rewrite len_slice_to in Hlen.
    assert (Hpre : slice_to (slice (data ++ extra) cursor
                              (cursor + 1024 * 2 ^ j)) (tx_size t)
                   = slice_to (slice data cursor (cursor + 1024 * 2 ^ j))
                              (tx_size t)).
    { rewrite Ez. apply slice_to_app_prefix. lia. }
    rewrite (parse_tx_local sha256 _ _ t Ep Hpre).
    eexists. reflexivity.
  - destruct (N.leb_spec (cursor + 1024 * 2 ^ j) (len data)) as [Hin|Hout].
    + rewrite Ez, (Hz Hin), app_nil_r, Ep. destruct so; apply IH.
    + intros H. exfalso.
      assert (Hall : Forall (fun j' => slice data cursor (cursor + 1024 * 2 ^ j')
                                       = slice data cursor (cursor + 1024 * 2 ^ j))
                            js).
      { apply Forall_forall. intros j' Hj'.
        apply slice_beyond; [assumption|].
        apply N.mul_le_mono_l, N.pow_le_mono_r; [lia|].
        exact (proj1 (Forall_forall _ _) Hle j' Hj'). }
      pose proof (try_widths_all_fail sha256 data cursor _ e so js Ep Hall)
        as Hnone.
      destruct so as [s|].
      * specialize (Hnone s). rewrite H in Hnone. discriminate.
      * specialize (Hnone last). rewrite H in Hnone. discriminate.
Qed.

Lemma tx_turn_extend (sha256 : bytes -> bytes) (height : Z)
    (data extra : bytes) (st : block_state) :
  fst (try_widths sha256 data (block_offset st) range_0_20 0) <> None ->
  tx_turn sha256 height (data ++ extra) st = tx_turn sha256 height data st.
Proof.
  intros Hd. unfold tx_turn.
  destruct (try_widths sha256 data (block_offset st) range_0_20 0)
    as [[t|] L] eqn:Et; [|now destruct Hd].
  destruct (try_widths_extend sha256 data extra (block_offset st) range_0_20
              range_0_20_increasing 0 t L Et) as (lock & ->).
  reflexivity.
Qed.

Lemma iter_turns_extend (sha256 : bytes -> bytes) (height : Z)
    (data extra : bytes) (st0 : block_state) (k : N) :
  (forall j, (j < k)%N ->
     fst (try_widths sha256 data
            (block_offset (N.iter j (tx_turn sha256 height data) st0))
            range_0_20 0) <> None) ->
  N.iter k (tx_turn sha256 height (data ++ extra)) st0
  = N.iter k (tx_turn sha256 height data) st0.
Proof.
  induction k as [|k IH] using N.peano_ind; intros H; [reflexivity|].
  rewrite 2 N.iter_succ, IH by (intros j Hj; apply H; lia).
  apply tx_turn_extend, H. lia.
Qed.

(** X16.  A block that goes through goes through with any bytes added after it,
    and gives the same lines: what follows the last transaction the block
    declares plays no part. *)
Theorem trailing_bytes_ignored (sha256 : bytes -> bytes) (height : Z)
    (block extra : bytes) (found r : list string) :
  scan_block sha256 height block found = inr r ->
  scan_block sha256 height (block ++ extra) found = inr r.
Proof.
  intros H. pose proof H as H0. unfold scan_block in H.
  destruct (decode_varint (slice_from block 80)) as [[n_txs offset]|e] eqn:Ed;
    [|discriminate].
  fold (block_loop sha256 height block n_txs offset found) in H.
  destruct (N.eqb_spec
              (processed_txs (block_loop sha256 height block n_txs offset found))
              n_txs) as [Ep|Ep]; [|discriminate].
  cbn [negb] in H.
  destruct (block_loop_count sha256 height block offset found n_txs)
    as (_ & _ & Hiff).
  pose proof (proj1 Hiff Ep) as Hall.
  destruct (slice_from_app_prefix block extra 80) as (z & Ez).
  destruct (decode_varint_local (slice_from block 80)
              (slice_from block 80 ++ z) n_txs offset Ed) as (_ & Hlen & Hloc).
  unfold scan_block. rewrite Ez, (Hloc (slice_to_app_prefix _ _ _ Hlen)).
  rewrite (iter_turns_extend sha256 height (slice_from block 80) z _ n_txs Hall).
  fold (block_loop sha256 height block n_txs offset found).
  rewrite Ep, N.eqb_refl. exact H.
Qed.

Lemma trailing_bytes_ignored_witness :
  scan_block toy_digest 7 (sample_block [joinmarket_tx 0] ++ [xff; xff; xff]) []
  = scan_block toy_digest 7 (sample_block [joinmarket_tx 0]) [].
Proof.
  assert (E : exists r, scan_block toy_digest 7 (sample_block [joinmarket_tx 0]) []
                        = inr r)
    by (eexists; vm_compute; reflexivity).
  destruct E as [r E]. rewrite E.
  exact (trailing_bytes_ignored toy_digest 7 _ [xff; xff; xff] [] r E).
Defined.

(* ================================================================= *)
(** ** When the write fails *)







(* ================================================================= *)
(** ** A file the program wrote, read by a later run *)

Lemma scan_lines_keyed (sha256 : bytes -> bytes)
    (fetch_block : Z -> option bytes) (heights : list Z) (found : list string) :
  scan sha256 fetch_block heights [] = inr found ->
  forall x, In x found ->
    exists h, In h heights /\ height_key x = Ok (str_of_Z h).
Proof.
  intros Hs x Hx.
  destruct (scan_found sha256 fetch_block heights found Hs) as (_ & Hf).
  apply Hf in Hx as (h & block & r & Hh & _ & Hb & Hx).
  destruct (scan_block_lines sha256 h block r Hb) as (n & o & _ & _ & Hl).
  destruct (Hl x Hx) as (hs & j & _ & E). subst x.
  exists h. split; [assumption|apply height_key_candidate_line].
Qed.

Lemma stored_records_empty : stored_records EmptyString = [].
Proof. reflexivity. Qed.

(** X18.  Once a run has returned, the file it leaves never makes a later run
    fail: whatever the chain and the range of the later run, it ends as it
    would have ended on an empty file. *)
Theorem later_runs_ignore_file
    (sha256 : bytes -> bytes) (fetch_block fetch_block' : Z -> option bytes)
    (set_iter : list string -> list string)
    (args_start args_end args_start' args_end' : Z) (info info' : chain_info)
    (content content1 : string) :
  (forall l, NoDup (set_iter l)) ->
  (forall l x, In x (set_iter l) <-> In x l) ->
  main sha256 fetch_block set_iter args_start args_end info content
  = (Returned, content1) ->
  fst (main sha256 fetch_block' set_iter args_start' args_end' info' content1)
  = fst (main sha256 fetch_block' set_iter args_start' args_end' info'
              EmptyString).
Proof.
  intros Hnd Hin H1.
  destruct (main_returned_inv _ _ _ _ _ _ _ _ H1) as (found1 & Hs1 & Hw1).
  pose proof (scan_clean sha256 fetch_block _ _ Hs1) as Hc1.
  destruct (write_candidates_spec set_iter Hnd Hin _ _ _ Hc1 Hw1)
    as (_ & _ & Hk1).
  unfold main.
  destruct (pruned info' && _); [reflexivity|].
  destruct (scan sha256 fetch_block' _ []) as [o|found2] eqn:Hs2;
    [reflexivity|].
  pose proof (scan_lines_keyed sha256 fetch_block' _ _ Hs2) as Hk2.
  destruct (write_candidates_total set_iter Hin content1 found2) as [c2 ->].
  { intros x [Hx|Hx]; [now apply Hk1|].
    destruct (Hk2 x Hx) as (h & _ & Hk). now exists (str_of_Z h). }
  destruct (write_candidates_total set_iter Hin EmptyString found2)
    as [c3 ->]; [|reflexivity].
  intros x [Hx|Hx]; [now rewrite stored_records_empty in Hx|].
  destruct (Hk2 x Hx) as (h & _ & Hk). now exists (str_of_Z h).
Qed.

Lemma later_runs_ignore_file_witness :
  fst (main toy_digest short_chain (nodup string_dec) 700000 700000
            two_height_info
            (join_lines ["00d414a0,100000,0"%string; "00d414a0,99999,0"%string]))
  = fst (main toy_digest short_chain (nodup string_dec) 700000 700000
              two_height_info EmptyString).
Proof.
  apply (later_runs_ignore_file toy_digest two_height_chain short_chain
           (nodup string_dec) 99999 100000 700000 700000
           two_height_info two_height_info EmptyString
           (join_lines ["00d414a0,100000,0"%string; "00d414a0,99999,0"%string])
           (NoDup_nodup string_dec) (fun l x => nodup_In string_dec l x)).
  vm_compute. reflexivity.
Defined.

(* ================================================================= *)
(** ** The ways a run ends *)



(* ================================================================= *)
(** ** The cursor of the block loop *)

Lemma try_widths_min_size (sha256 : bytes -> bytes) (data : bytes)
    (cursor : N) (js : list N) (last : N) (t : tx_record) (L : N) :
  try_widths sha256 data cursor js last = (Some t, L) ->
  (10 <= L)%N /\ (cursor + L <= len data)%N.
Proof.
  intros H.
  destruct (try_widths_success sha256 data cursor js last t L H)
    as (j & _ & Hp & -> & _ & Hin).
  split; [|assumption].
  destruct (parse_tx_inv sha256 _ t Hp) as (f & Hf & Hsz & _).
  destruct (parse_fields_local _ [] f Hf) as [Ho _]. lia.
Qed.

Lemma block_loop_cursor (sha256 : bytes -> bytes) (height : Z) (block : bytes)
    (offset : N) (found : list string) (n_txs : N) :
  (offset <= len (slice_from block 80))%N ->
  (forall j, (j < n_txs)%N ->
             turn_decodes sha256 height block offset found j) ->
  forall k, (k <= n_txs)%N ->
    (offset + 10 * k
     <= block_offset (block_loop sha256 height block k offset found))%N /\
    (block_offset (block_loop sha256 height block k offset found)
     <= len (slice_from block 80))%N.
Proof.
  intros Ho Hall k. induction k as [|k IH] using N.peano_ind; intros Hk.
  - cbn. lia.
  - destruct (IH ltac:(lia)) as [IH1 IH2].
    pose proof (Hall k ltac:(lia)) as Hd. unfold turn_decodes in Hd.
    rewrite block_loop_succ. unfold tx_turn.
    destruct (try_widths sha256 (slice_from block 80)
                (block_offset (block_loop sha256 height block k offset found))
                range_0_20 0) as [[t|] L] eqn:Et;
      [|exfalso; apply Hd; reflexivity].
    destruct (try_widths_min_size sha256 _ _ _ _ _ _ Et) as [H10 Hin].
    cbn [block_offset]. lia.
Qed.

(** X20.  In a block that goes through, the cursor stays inside the data: every
    turn moves it forward, by at least the ten bytes of the smallest
    transaction, and never past the end; so a block that declares [n_txs]
    transactions and goes through is at least [81 + 10 * n_txs] bytes
    long. *)
Theorem cursor_within_block (sha256 : bytes -> bytes) (height : Z)
    (block : bytes) (found r : list string) (n_txs offset : N) :
  decode_varint (slice_from block 80) = Ok (n_txs, offset) ->
  scan_block sha256 height block found = inr r ->
  (forall k, (k <= n_txs)%N ->
     (offset + 10 * k
      <= block_offset (block_loop sha256 height block k offset found))%N /\
     (block_offset (block_loop sha256 height block k offset found)
      <= len (slice_from block 80))%N) /\
  (81 + 10 * n_txs <= len block)%N.
Proof.
  intros Hd Hs.
  destruct (decode_varint_local _ [] _ _ Hd) as (H1 & Hlen & _).
  assert (Hall : forall j, (j < n_txs)%N ->
                           turn_decodes sha256 height block offset found j).
  { destruct (block_loop_count sha256 height block offset found n_txs)
      as (_ & _ & Hiff).
    apply Hiff. unfold scan_block in Hs. rewrite Hd in Hs.
    fold (block_loop sha256 height block n_txs offset found) in Hs.
    destruct (N.eqb_spec
                (processed_txs
                   (block_loop sha256 height block n_txs offset found)) n_txs);
      [assumption|discriminate]. }
  pose proof (block_loop_cursor sha256 height block offset found n_txs
                Hlen Hall) as Hc.
  split; [exact Hc|].
  destruct (Hc n_txs (N.le_refl _)) as [Ha Hb].
  rewrite len_slice_from in Hb. lia.
Qed.

Lemma cursor_within_block_witness :
  (81 + 10 * 1 <= len (sample_block [joinmarket_tx 0]))%N.
Proof.
  assert (E : exists r, scan_block toy_digest 7 (sample_block [joinmarket_tx 0]) []
                        = inr r)
    by (eexists; vm_compute; reflexivity).
  destruct E as [r E].
  exact (proj2 (cursor_within_block toy_digest 7
                  (sample_block [joinmarket_tx 0]) [] r 1 1 eq_refl E)).
Defined.

(* ================================================================= *)
(** ** A run over no height *)

Lemma range_empty (a b : Z) : (b <= a)%Z -> range a b = [].
Proof.
  intros H. unfold range. now replace (Z.to_nat (b - a)) with 0%nat by lia.
Qed.

(** X21.  When the last height is below the first, the run asks for no block,
    and still rewrites the file: it ends as the merge of the file with no
    result does. *)
Theorem empty_range_run
    (sha256 : bytes -> bytes) (fetch_block : Z -> option bytes)
    (set_iter : list string -> list string)
    (args_start args_end : Z) (info : chain_info) (content : string) :
  let end_block := end_block_of args_end info in
  let start_block := start_block_of args_start end_block in
  (end_block < start_block)%Z ->
  pruned info && (start_block <? pruneheight info)%Z = false ->
  main sha256 fetch_block set_iter args_start args_end info content
  = match write_candidates set_iter content [] with
    | Ok content' => (Returned, content')
    | Raise e => (Uncaught e, content)
    end.
Proof.
  cbv zeta. intros Hlt Hp. unfold main. rewrite Hp.
  rewrite range_empty by lia. reflexivity.
Qed.

Lemma empty_range_run_witness :
  main toy_digest two_height_chain (nodup string_dec) 100001 100000
       two_height_info scenario_store
  = match write_candidates (nodup string_dec) scenario_store [] with
    | Ok content' => (Returned, content')
    | Raise e => (Uncaught e, scenario_store)
    end.
Proof.
  apply (empty_range_run toy_digest two_height_chain (nodup string_dec)
           100001 100000 two_height_info scenario_store).
  - vm_compute. reflexivity.
  - reflexivity.
Defined.

(* ================================================================= *)
(** ** Line endings *)

Lemma append_assoc (a b c : string) :
  ((a ++ b) ++ c = a ++ (b ++ c))%string.
Proof. induction a as [|x a IH]; cbn; [reflexivity|now rewrite IH]. Qed.

Lemma concat_cons2 (sep x y : string) (r : list string) :
  String.concat sep (x :: y :: r)
  = (x ++ sep ++ String.concat sep (y :: r))%string.
Proof. reflexivity. Qed.

Lemma universal_newlines_app (x rest : string) :
  no_cr x = true ->
  universal_newlines (x ++ String carriage_return rest)
  = (x ++ String newline (universal_newlines (skip_newline rest)))%string.
Proof.
  unfold no_cr. induction x as [|c x IH]; intros H.
  - cbn [append]. now rewrite universal_newlines_cons, Ascii.eqb_refl.
  - cbn [all_chars] in H. apply andb_true_iff in H as [Hc Hx].
    apply negb_true_iff in Hc.
    change ((String c x ++ String carriage_return rest)%string)
      with (String c (x ++ String carriage_return rest)).
    rewrite universal_newlines_cons, Hc, (IH Hx). reflexivity.
Qed.

Lemma clean_line_parts (x : string) :
  clean_line x ->
  no_newline x = true /\ no_cr x = true /\
  exists c x', x = String c x' /\ (c =? newline)%char = false.
Proof.
  intros (Hne & _ & Hb). rewrite no_breaks_split in Hb.
  apply andb_true_iff in Hb as [Hn Hc]. split; [assumption|].
  split; [assumption|].
  destruct x as [|c x']; [congruence|]. exists c, x'. split; [reflexivity|].
  unfold no_newline in Hn. cbn [all_chars] in Hn.
  apply andb_true_iff in Hn as [Hn _]. now apply negb_true_iff in Hn.
Qed.

Lemma concat_starts (sep : string) (c : ascii) (x' : string) (r : list string) :
  exists z, String.concat sep (String c x' :: r) = String c z.
Proof. destruct r; cbn; eexists; reflexivity. Qed.

Lemma universal_newlines_crlf (lines : list string) :
  Forall clean_line lines ->
  universal_newlines
    (String.concat (String carriage_return (String newline EmptyString)) lines)
  = join_lines lines.
Proof.
  induction lines as [|x [|y r] IH]; intros H.
  - reflexivity.
  - inversion H as [|? ? Hx _]; subst.
    destruct (clean_line_parts x Hx) as (_ & Hc & _).
    cbn [String.concat]. now apply universal_newlines_id.
  - inversion H as [|? ? Hx Hr]; subst.
    destruct (clean_line_parts x Hx) as (_ & Hc & _).
    rewrite concat_cons2, join_lines_cons2. cbn [append].
    rewrite (universal_newlines_app x _ Hc). cbn [skip_newline].
    rewrite Ascii.eqb_refl. now rewrite (IH Hr).
Qed.

Lemma universal_newlines_cr (lines : list string) :
  Forall clean_line lines ->
  universal_newlines
    (String.concat (String carriage_return EmptyString) lines)
  = join_lines lines.
Proof.
  induction lines as [|x [|y r] IH]; intros H.
  - reflexivity.
  - inversion H as [|? ? Hx _]; subst.
    destruct (clean_line_parts x Hx) as (_ & Hc & _).
    cbn [String.concat]. now apply universal_newlines_id.
  - inversion H as [|? ? Hx Hr]; subst.
    destruct (clean_line_parts x Hx) as (_ & Hc & _).
    rewrite concat_cons2, join_lines_cons2. cbn [append].
    rewrite (universal_newlines_app x _ Hc).
    inversion Hr as [|? ? Hy _]; subst.
    destruct (clean_line_parts y Hy) as (_ & _ & c & y' & -> & Hn).
    destruct (concat_starts (String carriage_return EmptyString) c y' r)
      as (z & Ez).
    assert (Es : skip_newline
                   (String.concat (String carriage_return EmptyString)
                      (String c y' :: r))
                 = String.concat (String carriage_return EmptyString)
                     (String c y' :: r)).
    { rewrite Ez. cbn [skip_newline]. now rewrite Hn. }
    rewrite Es. now rewrite (IH Hr).
Qed.

Lemma readlines_final_newline (lines : list string) :
  Forall clean_line lines -> lines <> [] ->
  map strip (readlines_text (join_lines lines ++ String newline EmptyString))
  = lines.
Proof.
  induction lines as [|x [|y r] IH]; intros H Hne.
  - congruence.
  - inversion H as [|? ? Hx _]; subst.
    destruct (clean_line_parts x Hx) as (Hn & _ & _).
    destruct Hx as (_ & Hs & _).
    change (join_lines [x]) with x.
    rewrite (readlines_text_line x EmptyString Hn). cbn [readlines_text map].
    now rewrite strip_app_newline, Hs.
  - inversion H as [|? ? Hx Hr]; subst.
    destruct (clean_line_parts x Hx) as (Hn & _ & _).
    destruct Hx as (_ & Hs & _).
    rewrite join_lines_cons2, append_assoc.
    change ((String newline (join_lines (y :: r)) ++ String newline EmptyString)%string)
      with (String newline (join_lines (y :: r) ++ String newline EmptyString)).
    rewrite (readlines_text_line x _ Hn). cbn [map].
    rewrite strip_app_newline, Hs. f_equal. apply IH; [assumption|discriminate].
Qed.

(** X22.  The lines of a file are read alike whatever ends them: lines that are
    clean, joined by [\n], by [\r\n] or by [\r], with or without a newline
    after the last one, are read back as they are. *)
Theorem line_endings_read_alike (lines : list string) :
  Forall clean_line lines ->
  stored_records (join_lines lines) = lines /\
  stored_records
    (String.concat (String carriage_return (String newline EmptyString)) lines)
  = lines /\
  stored_records (String.concat (String carriage_return EmptyString) lines)
  = lines /\
  (lines <> [] ->
   stored_records (join_lines lines ++ String newline EmptyString) = lines).
Proof.
  intros H.
  pose proof (stored_records_join_lines lines H) as Hj.
  pose proof (no_cr_join_lines lines H) as Hc.
  split; [assumption|]. split; [|split].
  - unfold stored_records in *.
    now rewrite (universal_newlines_crlf lines H),
      <- (universal_newlines_id _ Hc).
  - unfold stored_records in *.
    now rewrite (universal_newlines_cr lines H),
      <- (universal_newlines_id _ Hc).
  - intros Hne. unfold stored_records.
    rewrite universal_newlines_id.
    + now apply readlines_final_newline.
    + unfold no_cr in *. rewrite all_chars_app, Hc. reflexivity.
Qed.

Lemma line_endings_read_alike_witness :
  stored_records
    ("def456,699999,0"
     ++ String carriage_return (String newline "abc123,700000,4"))
  = ["def456,699999,0"%string; "abc123,700000,4"%string].
Proof.
  refine (proj1 (proj2 (line_endings_read_alike
            ["def456,699999,0"%string; "abc123,700000,4"%string] _))).
  repeat constructor; try discriminate; reflexivity.
Defined.

(* ================================================================= *)
(** ** The merge, run again *)

(** *** The order of the keys *)


Lemma ltb_irrefl (a : string) : String.ltb a a = false.
Proof.
  destruct (String.ltb a a) eqn:E; [|reflexivity].
  now rewrite (ltb_asym a a E) in E.
Qed.





(** *** The same lines, with keys that differ, give the same file *)





(** *** Heights scanned before *)










